(** * Coordinate geometry of a mesh block: Minkowski spacetime, Cartesian
      coordinates (src/coordinates/minkowski_cartesian.cpp)

    The file embeds the constructor of [Coordinates] and its per-step queries
    ([Area1Face], [Area2Face], [Area3Face], [CellVolume],
    [CoordinateSourceTerms]) as computations over an explicit store of arrays,
    and proves what they write, what they leave alone, and when they run to
    completion.

    - [Real] (a typedef of athena.hpp) is a parameter: a type with the
      operations the file uses.  IEEE binary64 ([float]) is the instance
      used below; what its rounding does to a sum is stated on the
      rationals the doubles stand for.
    - [NGHOST] (a macro of athena.hpp) is a parameter.
    - An [AthenaArray<Real>] is a handle into the store; two references to the
      same array are the same handle, so aliasing between the caller's buffer
      and the arrays of the block is visible.
    - An [int] is a [Z]; an [int] expression whose value leaves the 32-bit
      range, and an array access outside the allocated cells, are undefined
      behaviour in C++ and make the computation fail ([None]). *)

From Stdlib Require Import ZArith Lia Floats QArith Qabs Qpower Lqa.
From stdpp Require Import base tactics option list gmap.

#[local] Open Scope Z_scope.

(** ** Numbers *)

(** The arithmetic of [Real] that the source uses: the literal [0.5], [+],
    [-] and [*].  [Rzero] is the literal [0], used only to state sums;
    [Rindet] is the content of a cell just obtained from [NewAthenaArray],
    which the source does not determine. *)
Class RealOps (Real : Type) : Type := {
  Rzero : Real;
  Rhalf : Real;
  Radd : Real → Real → Real;
  Rsub : Real → Real → Real;
  Rmul : Real → Real → Real;
  Rindet : Real;
}.

(** [Real = double]: IEEE 754 binary64. *)
#[export] Instance float_RealOps : RealOps float := {|
  Rzero := 0%float;
  Rhalf := 0.5%float;
  Radd := PrimFloat.add;
  Rsub := PrimFloat.sub;
  Rmul := PrimFloat.mul;
  Rindet := PrimFloat.nan;
|}.

Definition INT_MIN : Z := - 2 ^ 31.
Definition INT_MAX : Z := 2 ^ 31 - 1.

(** ** Blocks and coordinates (declarations of mesh.hpp and coordinates.hpp)

    [is] is a keyword of Rocq: the field is [is_]. *)

Abbreviation AthenaArray := positive (only parsing).

Record RegionSize : Type := { nx1 : Z; nx2 : Z; nx3 : Z }.

Record Block : Type := {
  is_ : Z; ie : Z; js : Z; je : Z; ks : Z; ke : Z;
  block_size : RegionSize;
  x1f : AthenaArray; x2f : AthenaArray; x3f : AthenaArray;
  dx1f : AthenaArray; dx2f : AthenaArray; dx3f : AthenaArray;
  x1v : AthenaArray; x2v : AthenaArray; x3v : AthenaArray;
  dx1v : AthenaArray; dx2v : AthenaArray; dx3v : AthenaArray;
}.

Record Coordinates : Type := {
  pparent_block : Block;
  face_area : AthenaArray;
  cell_volume : AthenaArray;
}.

(** The arrays a [Coordinates] instance can reach without being handed them:
    those of its block and its two scratch buffers. *)
Definition owned_arrays (co : Coordinates) : list AthenaArray :=
  let pb := pparent_block co in
  [x1f pb; x2f pb; x3f pb; dx1f pb; dx2f pb; dx3f pb;
   x1v pb; x2v pb; x3v pb; dx1v pb; dx2v pb; dx3v pb;
   face_area co; cell_volume co].

(** The arrays the constructor reads or writes. *)
Definition ctor_arrays (pb : Block) : list AthenaArray :=
  [x1f pb; x1v pb; dx1v pb;
   x2f pb; dx2f pb; x2v pb; dx2v pb;
   x3f pb; dx3f pb; x3v pb; dx3v pb].

Section Model.

Context {Real : Type} `{!RealOps Real}.
Variable NGHOST : Z.

(** ** The store and the computations over it *)

Abbreviation heap := (gmap positive (list Real)).

(** A computation returns a value and the store it leaves, or fails. *)
Definition M (A : Type) : Type := heap → option (A * heap).

#[export] Instance M_ret : MRet M := λ A x σ, Some (x, σ).
#[export] Instance M_bind : MBind M := λ A B f m σ,
  match m σ with
  | Some (x, σ') => f x σ'
  | None => None
  end.

(** The value of an [int] expression: signed overflow is undefined. *)
Definition int_ (z : Z) : M Z := λ σ,
  if decide (INT_MIN ≤ z ≤ INT_MAX) then Some (z, σ) else None.

(** Number of cells of an array (0 for a handle with no storage). *)
Definition GetDim1 (σ : heap) (a : AthenaArray) : Z :=
  from_option (λ l, Z.of_nat (length l)) 0 (σ !! a).

(** The content of cell [n] of [a], if there is such a cell. *)
Definition load (σ : heap) (a : AthenaArray) (n : Z) : option Real :=
  σ !! a ≫= λ l, if decide (0 ≤ n) then l !! Z.to_nat n else None.

(** A reference to a cell: the array and the index. *)
Definition lvalue : Type := AthenaArray * Z.

(** Modelled from the spec: [AthenaArray::operator()] (athena_arrays.hpp is
    not among the sources).  [a(n)] denotes cell [n] of the buffer; the
    index must lie within the allocated buffer. *)
Definition elem (a : AthenaArray) (n : Z) : M lvalue := λ σ,
  if decide (0 ≤ n < GetDim1 σ a) then Some ((a, n), σ) else None.

(** Reading through a reference. *)
Definition rd (p : lvalue) : M Real := λ σ,
  match load σ p.1 p.2 with
  | Some v => Some (v, σ)
  | None => None
  end.

(** The store after cell [n] of [a] has received [v]. *)
Definition upd (σ : heap) (a : AthenaArray) (n : Z) (v : Real) : heap :=
  match σ !! a with
  | Some l => <[a := <[Z.to_nat n := v]> l]> σ
  | None => σ
  end.

(** Assigning through a reference. *)
Definition wr (p : lvalue) (v : Real) : M () := λ σ,
  if decide (0 ≤ p.2 < GetDim1 σ p.1) then Some ((), upd σ p.1 p.2 v) else None.

(** [a(n)] as an rvalue, and [a(n) = v]. *)
Definition get (a : AthenaArray) (n : Z) : M Real := p ← elem a n; rd p.
Definition put (a : AthenaArray) (n : Z) (v : Real) : M () := p ← elem a n; wr p v.

(** Modelled from the spec: [AthenaArray::NewAthenaArray] (athena_arrays.hpp
    is not among the sources) allocates a buffer of the given number of
    cells.  The buffer is new: its handle names no array of the store. *)
Definition NewAthenaArray (n : Z) : M AthenaArray := λ σ,
  if decide (0 ≤ n)
  then let a := fresh (dom σ) in
       Some (a, <[a := replicate (Z.to_nat n) Rindet]> σ)
  else None.

(** [for (int i = lo; i <= hi; i++) body]: the bodies in order; after the
    last one [i++] yields [hi + 1], which must be an [int]. *)
Fixpoint iter (body : Z → M ()) (l : list Z) : M () :=
  match l with
  | [] => mret ()
  | i :: l' => body i;; iter body l'
  end.

Definition for_ (lo hi : Z) (body : Z → M ()) : M () :=
  iter body (seqZ lo (hi - lo + 1));;
  if decide (lo ≤ hi) then int_ (hi + 1);; mret () else mret ().

(** ** The constructor (lines 17-60) *)

(** Lines 23-24, 36-37, 50-51:
    [for (i = lo; i <= hi; i++) xv(i) = 0.5 * (xf(i) + xf(i+1));] *)
Definition centers (xf xv : AthenaArray) (lo hi : Z) : M () :=
  for_ lo hi (λ i,
    a ← get xf i;
    i1 ← int_ (i + 1);
    b ← get xf i1;
    put xv i (Rmul Rhalf (Radd a b))).

(** Lines 25-26, 38-39, 52-53:
    [for (i = lo; i <= hi; i++) dxv(i) = xv(i+1) - xv(i);] *)
Definition spacings (xv dxv : AthenaArray) (lo hi : Z) : M () :=
  for_ lo hi (λ i,
    i1 ← int_ (i + 1);
    b ← get xv i1;
    a ← get xv i;
    put dxv i (Rsub b a)).

(** Both loops of an extended direction, with the bounds as the source
    writes them: [s-NGHOST], [e+NGHOST] and [e+NGHOST-1]. *)
Definition extended (xf xv dxv : AthenaArray) (s e : Z) : M () :=
  lo ← int_ (s - NGHOST);
  hi ← int_ (e + NGHOST);
  centers xf xv lo hi;;
  hi' ← int_ (hi - 1);
  spacings xv dxv lo hi'.

(** Lines 31-32, 45-46: a direction with no extent. *)
Definition no_extent (xf dxf xv dxv : AthenaArray) (s : Z) : M () :=
  a ← get xf s;
  s1 ← int_ (s + 1);
  b ← get xf s1;
  put xv s (Rmul Rhalf (Radd a b));;
  d ← get dxf s;
  put dxv s d.

Definition Coordinates_ctor (pb : Block) : M Coordinates :=
  (* x-direction *)
  extended (x1f pb) (x1v pb) (dx1v pb) (is_ pb) (ie pb);;
  (* y-direction *)
  (if decide (nx2 (block_size pb) = 1)
   then no_extent (x2f pb) (dx2f pb) (x2v pb) (dx2v pb) (js pb)
   else extended (x2f pb) (x2v pb) (dx2v pb) (js pb) (je pb));;
  (* z-direction *)
  (if decide (nx3 (block_size pb) = 1)
   then no_extent (x3f pb) (dx3f pb) (x3v pb) (dx3v pb) (ks pb)
   else extended (x3f pb) (x3v pb) (dx3v pb) (ks pb) (ke pb));;
  (* scratch arrays for the integrator *)
  g2 ← int_ (2 * NGHOST);
  n_cells ← int_ (nx1 (block_size pb) + g2);
  fa ← NewAthenaArray n_cells;
  cv ← NewAthenaArray n_cells;
  mret {| pparent_block := pb; face_area := fa; cell_volume := cv |}.

(** ** The queries (lines 78-176)

    [delta_y], [delta_z], [delta_x], [area] and [volume] are references: they
    are bound once and read the cell they name each time they are used. *)

Definition Area1Face (co : Coordinates) (k j il iu : Z) (areas : AthenaArray) : M () :=
  delta_y ← elem (dx2f (pparent_block co)) j;
  delta_z ← elem (dx3f (pparent_block co)) k;
  for_ il iu (λ i,
    area ← elem areas i;
    y ← rd delta_y;
    z ← rd delta_z;
    wr area (Rmul y z)).

Definition Area2Face (co : Coordinates) (k j il iu : Z) (areas : AthenaArray) : M () :=
  delta_z ← elem (dx3f (pparent_block co)) k;
  for_ il iu (λ i,
    area ← elem areas i;
    delta_x ← elem (dx1f (pparent_block co)) i;
    x ← rd delta_x;
    z ← rd delta_z;
    wr area (Rmul x z)).

Definition Area3Face (co : Coordinates) (k j il iu : Z) (areas : AthenaArray) : M () :=
  delta_y ← elem (dx2f (pparent_block co)) j;
  for_ il iu (λ i,
    area ← elem areas i;
    delta_x ← elem (dx1f (pparent_block co)) i;
    x ← rd delta_x;
    y ← rd delta_y;
    wr area (Rmul x y)).

Definition CellVolume (co : Coordinates) (k j il iu : Z) (volumes : AthenaArray) : M () :=
  delta_y ← elem (dx2f (pparent_block co)) j;
  delta_z ← elem (dx3f (pparent_block co)) k;
  for_ il iu (λ i,
    volume ← elem volumes i;
    delta_x ← elem (dx1f (pparent_block co)) i;
    x ← rd delta_x;
    y ← rd delta_y;
    z ← rd delta_z;
    wr volume (Rmul (Rmul x y) z)).

Definition CoordinateSourceTerms (co : Coordinates) (k j : Z)
    (prim sources : AthenaArray) : M () :=
  mret ().

(** The four queries that fill a buffer over [il..iu]. *)
Definition range_queries : list (Coordinates → Z → Z → Z → Z → AthenaArray → M ()) :=
  [Area1Face; Area2Face; Area3Face; CellVolume].

(** ** Preconditions and observations used in the statements *)

(** The cells [lo..hi] of [a] exist (nothing is asked of an empty range). *)
Definition cells (σ : heap) (a : AthenaArray) (lo hi : Z) : Prop :=
  lo ≤ hi → 0 ≤ lo ∧ hi < GetDim1 σ a.

(** A query is called within valid mesh bounds: [j] and [k] index the face
    spacings of directions 2 and 3, the range [il..iu] lies within the face
    spacings of direction 1 and within the caller's buffer, and [iu + 1] is
    an [int]. *)
Definition query_pre (σ : heap) (co : Coordinates) (k j il iu : Z)
    (buf : AthenaArray) : Prop :=
  let pb := pparent_block co in
  0 ≤ j < GetDim1 σ (dx2f pb) ∧ 0 ≤ k < GetDim1 σ (dx3f pb) ∧
  cells σ (dx1f pb) il iu ∧ cells σ buf il iu ∧ (il ≤ iu → iu < INT_MAX).

(** The caller's buffer is none of the face-spacing arrays read by a query. *)
Definition separate (co : Coordinates) (buf : AthenaArray) : Prop :=
  let pb := pparent_block co in
  buf ≠ dx1f pb ∧ buf ≠ dx2f pb ∧ buf ≠ dx3f pb.

(** What an extended direction needs: its bounds are [int]s, the faces are
    populated over [s-NGHOST .. e+NGHOST+1], and the center and spacing
    arrays have the cells that are written. *)
Definition extended_pre (σ : heap) (xf xv dxv : AthenaArray) (s e : Z) : Prop :=
  let lo := s - NGHOST in
  let hi := e + NGHOST in
  INT_MIN ≤ lo ≤ INT_MAX ∧ INT_MIN + 1 ≤ hi ≤ INT_MAX ∧
  (lo ≤ hi → 0 ≤ lo ∧ hi + 1 < GetDim1 σ xf ∧ hi < GetDim1 σ xv ∧ hi < INT_MAX) ∧
  (lo ≤ hi - 1 → hi - 1 < GetDim1 σ dxv).

(** What a direction with no extent needs. *)
Definition no_extent_pre (σ : heap) (xf dxf xv dxv : AthenaArray) (s : Z) : Prop :=
  0 ≤ s ∧ s < INT_MAX ∧ s + 1 < GetDim1 σ xf ∧ s < GetDim1 σ dxf ∧
  s < GetDim1 σ xv ∧ s < GetDim1 σ dxv.

Definition axis_pre (σ : heap) (nx : Z) (xf dxf xv dxv : AthenaArray) (s e : Z) : Prop :=
  if decide (nx = 1) then no_extent_pre σ xf dxf xv dxv s
  else extended_pre σ xf xv dxv s e.

(** A block the constructor can be run on: its arrays are distinct objects of
    the store, each direction has the cells the constructor touches, and the
    size of the scratch arrays is a non-negative [int]. *)
Definition ctor_pre (σ : heap) (pb : Block) : Prop :=
  NoDup (ctor_arrays pb) ∧
  Forall (λ a, is_Some (σ !! a)) (ctor_arrays pb) ∧
  extended_pre σ (x1f pb) (x1v pb) (dx1v pb) (is_ pb) (ie pb) ∧
  axis_pre σ (nx2 (block_size pb)) (x2f pb) (dx2f pb) (x2v pb) (dx2v pb) (js pb) (je pb) ∧
  axis_pre σ (nx3 (block_size pb)) (x3f pb) (dx3f pb) (x3v pb) (dx3v pb) (ks pb) (ke pb) ∧
  INT_MIN ≤ 2 * NGHOST ≤ INT_MAX ∧
  0 ≤ nx1 (block_size pb) + 2 * NGHOST ≤ INT_MAX.

(** The preconditions are decidable: on a concrete store they evaluate. *)
#[export] Instance cells_dec σ a lo hi : Decision (cells σ a lo hi).
Proof. unfold cells. apply _. Defined.

#[export] Instance query_pre_dec σ co k j il iu buf :
  Decision (query_pre σ co k j il iu buf).
Proof. unfold query_pre. apply _. Defined.

#[export] Instance separate_dec co buf : Decision (separate co buf).
Proof. unfold separate. apply _. Defined.

#[export] Instance extended_pre_dec σ xf xv dxv s e :
  Decision (extended_pre σ xf xv dxv s e).
Proof. unfold extended_pre. apply _. Defined.

#[export] Instance no_extent_pre_dec σ xf dxf xv dxv s :
  Decision (no_extent_pre σ xf dxf xv dxv s).
Proof. unfold no_extent_pre. apply _. Defined.

#[export] Instance axis_pre_dec σ nx xf dxf xv dxv s e :
  Decision (axis_pre σ nx xf dxf xv dxv s e).
Proof. unfold axis_pre. case_decide; apply _. Defined.

#[export] Instance ctor_pre_dec σ pb : Decision (ctor_pre σ pb).
Proof. unfold ctor_pre. apply _. Defined.

(** [σ'] differs from [σ] at most in the cells [lo..hi] of [buf]: every
    other array is the same object with the same content, no array changed
    its size, and the other cells of [buf] kept their content. *)
Definition only_cells (σ σ' : heap) (buf : AthenaArray) (lo hi : Z) : Prop :=
  (∀ a, a ≠ buf → σ' !! a = σ !! a) ∧
  (∀ a, GetDim1 σ' a = GetDim1 σ a) ∧
  dom σ' = dom σ ∧
  (∀ n, ¬ (lo ≤ n ≤ hi) → load σ' buf n = load σ buf n) ∧
  (hi < lo → σ' = σ).

(** A loop body that assigns to [buf(i)] a value that is only read from the
    store: [val i σ] is that value, if all the reads are within bounds. *)
Definition assigns (body : Z → M ()) (buf : AthenaArray)
    (val : Z → heap → option Real) : Prop :=
  ∀ i σ, body i σ =
    if decide (0 ≤ i < GetDim1 σ buf)
    then match val i σ with
         | Some v => Some ((), upd σ buf i v)
         | None => None
         end
    else None.

(** [xv(i) == 0.5 * (xf(i) + xf(i+1))] in the store [σ]. *)
Definition center_at (σ : heap) (xf xv : AthenaArray) (i : Z) : Prop :=
  ∃ a b, load σ xf i = Some a ∧ load σ xf (i + 1) = Some b ∧
         load σ xv i = Some (Rmul Rhalf (Radd a b)).

(** [dxv(i) == xv(i+1) - xv(i)] in the store [σ]. *)
Definition spacing_at (σ : heap) (xv dxv : AthenaArray) (i : Z) : Prop :=
  ∃ a b, load σ xv i = Some a ∧ load σ xv (i + 1) = Some b ∧
         load σ dxv i = Some (Rsub b a).

(** [dxv(i) == xf(i+1) - xf(i)], the face-to-face width, in the store [σ]. *)
Definition width_at (σ : heap) (xf dxv : AthenaArray) (i : Z) : Prop :=
  ∃ a b, load σ xf i = Some a ∧ load σ xf (i + 1) = Some b ∧
         load σ dxv i = Some (Rsub b a).

(** What the two loops of an extended direction leave behind, from the store
    [σ] before them to the store [σ'] after them. *)
Definition extended_post (σ σ' : heap) (xf xv dxv : AthenaArray) (lo hi : Z) : Prop :=
  (∀ i, lo ≤ i ≤ hi → center_at σ' xf xv i) ∧
  (∀ i, lo ≤ i ≤ hi - 1 → spacing_at σ' xv dxv i) ∧
  (∀ n, ¬ (lo ≤ n ≤ hi) → load σ' xv n = load σ xv n) ∧
  (∀ n, ¬ (lo ≤ n ≤ hi - 1) → load σ' dxv n = load σ dxv n).

(** What the code for a direction with no extent leaves behind. *)
Definition no_extent_post (σ σ' : heap) (xf dxf xv dxv : AthenaArray) (s : Z) : Prop :=
  center_at σ' xf xv s ∧
  (∃ d, load σ' dxf s = Some d ∧ load σ' dxv s = Some d) ∧
  (∀ n, n ≠ s → load σ' xv n = load σ xv n) ∧
  (∀ n, n ≠ s → load σ' dxv n = load σ dxv n).

Definition axis_post (σ σ' : heap) (nx : Z) (xf dxf xv dxv : AthenaArray)
    (s e : Z) : Prop :=
  if decide (nx = 1) then no_extent_post σ σ' xf dxf xv dxv s
  else extended_post σ σ' xf xv dxv (s - NGHOST) (e + NGHOST).

(** [σ'] has the arrays of [σ], of the same sizes, and the same content in
    all of them but those of [ws]. *)
Definition touches (σ σ' : heap) (ws : list AthenaArray) : Prop :=
  (∀ a, a ∉ ws → σ' !! a = σ !! a) ∧
  (∀ a, GetDim1 σ' a = GetDim1 σ a) ∧
  dom σ' = dom σ.

(** [a(lo) + ... + a(hi)], summed from [0] in increasing order of index. *)
Definition sum_cells (σ : heap) (a : AthenaArray) (lo hi : Z) : option Real :=
  foldl (λ acc i, s ← acc; v ← load σ a i; Some (Radd s v))
        (Some Rzero) (seqZ lo (hi - lo + 1)).


(** ** When a computation is defined *)

(** On every store whose arrays have the sizes [D], the computation [m] runs
    to completion exactly when [P] holds, and it leaves the sizes as they
    are. *)
Definition defined_iff {A : Type} (m : M A) (D : AthenaArray → Z) (P : Prop) : Prop :=
  ∀ σ, (∀ a, GetDim1 σ a = D a) →
    (is_Some (m σ) ↔ P) ∧
    (∀ x σ', m σ = Some (x, σ') → ∀ a, GetDim1 σ' a = D a).

(** The sizes an extended direction needs, read off the sizes [D]. *)
Definition extended_sizes (D : AthenaArray → Z) (xf xv dxv : AthenaArray) (s e : Z) : Prop :=
  let lo := s - NGHOST in
  let hi := e + NGHOST in
  INT_MIN ≤ lo ≤ INT_MAX ∧ INT_MIN + 1 ≤ hi ≤ INT_MAX ∧
  (lo ≤ hi → 0 ≤ lo ∧ hi + 1 < D xf ∧ hi < D xv ∧ hi < INT_MAX) ∧
  (lo ≤ hi - 1 → hi - 1 < D dxv).

(** The sizes a direction with no extent needs. *)
Definition no_extent_sizes (D : AthenaArray → Z) (xf dxf xv dxv : AthenaArray) (s : Z) : Prop :=
  0 ≤ s ∧ s < INT_MAX ∧ s + 1 < D xf ∧ s < D dxf ∧ s < D xv ∧ s < D dxv.

(** All that the constructor needs of a store: sizes. *)
Definition ctor_sizes (σ : heap) (pb : Block) : Prop :=
  extended_sizes (GetDim1 σ) (x1f pb) (x1v pb) (dx1v pb) (is_ pb) (ie pb) ∧
  (if decide (nx2 (block_size pb) = 1)
   then no_extent_sizes (GetDim1 σ) (x2f pb) (dx2f pb) (x2v pb) (dx2v pb) (js pb)
   else extended_sizes (GetDim1 σ) (x2f pb) (x2v pb) (dx2v pb) (js pb) (je pb)) ∧
  (if decide (nx3 (block_size pb) = 1)
   then no_extent_sizes (GetDim1 σ) (x3f pb) (dx3f pb) (x3v pb) (dx3v pb) (ks pb)
   else extended_sizes (GetDim1 σ) (x3f pb) (x3v pb) (dx3v pb) (ks pb) (ke pb)) ∧
  INT_MIN ≤ 2 * NGHOST ≤ INT_MAX ∧
  0 ≤ nx1 (block_size pb) + 2 * NGHOST ≤ INT_MAX.

End Model.

(** ** Concrete blocks (NGHOST = 2)

    [arrays_of rows] is the store whose array of handle [n] is the [n]-th
    row.  Handles 1-12 are the arrays of the block in the order of the
    fields of [Block]; 13 and 14 are buffers of one row. *)

Definition arrays_of {Real : Type} (rows : list (list Real)) : gmap positive (list Real) :=
  list_to_map (zip (Pos.of_nat <$> seq 1 (length rows)) rows).

Definition demo_arrays (size : RegionSize) (s1 e1 s2 e2 s3 e3 : Z) : Block :=
  {| is_ := s1; ie := e1; js := s2; je := e2; ks := s3; ke := e3;
     block_size := size;
     x1f := 1; x2f := 2; x3f := 3; dx1f := 4; dx2f := 5; dx3f := 6;
     x1v := 7; x2v := 8; x3v := 9; dx1v := 10; dx2v := 11; dx3v := 12 |}%positive.

(** A 1-D block of four cells: faces at 0, 1, 2, 3, 4 along direction 1 (and
    two ghost cells on each side), dy = 2, dz = 3. *)
Definition block_1d : Block :=
  demo_arrays {| nx1 := 4; nx2 := 1; nx3 := 1 |} 2 5 0 0 0 0.

Definition heap_1d : gmap positive (list float) :=
  arrays_of
    [ [-2; -1; 0; 1; 2; 3; 4; 5; 6]; [0; 2]; [0; 3];
      [1; 1; 1; 1; 1; 1; 1; 1]; [2]; [3];
      replicate 8 0; [0]; [0];
      replicate 8 0; [0]; [0];
      replicate 8 0; replicate 8 0 ]%float.

Definition coord_1d : Coordinates :=
  {| pparent_block := block_1d; face_area := 13; cell_volume := 14 |}%positive.

(** The same block with the faces of direction 2 at 1 and at the double
    nearest to 1.1, and the face spacing stored as the double nearest to 0.1:
    in binary64 the difference of these faces is not that spacing. *)
Definition heap_1d_step : gmap positive (list float) :=
  <[2%positive := [1; 0x1.199999999999ap+0]%float]>
    (<[5%positive := [0x1.999999999999ap-4%float]]> heap_1d).


(** The same block with faces of direction 1 that were never given a value. *)
Definition heap_1d_nan : gmap positive (list float) :=
  <[1%positive := replicate 9 PrimFloat.nan]> heap_1d.

(** The same arrays with the bounds of direction 1 inverted. *)
Definition block_inverted : Block :=
  demo_arrays {| nx1 := 4; nx2 := 1; nx3 := 1 |} 6 1 0 0 0 0.

(** A 2-D block of 4 x 2 cells. *)
Definition block_2d : Block :=
  demo_arrays {| nx1 := 4; nx2 := 2; nx3 := 1 |} 2 5 2 3 0 0.

Definition heap_2d : gmap positive (list float) :=
  arrays_of
    [ [-2; -1; 0; 1; 2; 3; 4; 5; 6]; [-4; -2; 0; 2; 4; 6; 8]; [0; 3];
      [1; 1; 1; 1; 1; 1; 1; 1]; [2; 2; 2; 2; 2; 2]; [3];
      replicate 8 0; replicate 6 0; [0];
      replicate 8 0; replicate 6 0; [0];
      replicate 8 0; replicate 8 0 ]%float.

(** A block with a single cell in every direction, between the faces 2 and
    4 of a grid whose cells double in width along direction 1. *)
Definition block_thin : Block :=
  demo_arrays {| nx1 := 1; nx2 := 1; nx3 := 1 |} 2 2 0 0 0 0.

Definition heap_thin : gmap positive (list float) :=
  arrays_of
    [ [0; 1; 2; 4; 8; 16]; [0; 2]; [0; 3];
      [1; 1; 2; 4; 8]; [2]; [3];
      replicate 5 0; [0]; [0];
      replicate 5 0; [0]; [0] ]%float.

(** The 1-D block with face spacings 0.1, 0.2 and 0.3 (the nearest doubles). *)
Definition heap_1d_tenths : gmap positive (list float) :=
  <[4%positive := replicate 8 0x1.999999999999ap-4%float]>
    (<[5%positive := [0x1.999999999999ap-3%float]]>
       (<[6%positive := [0x1.3333333333333p-2%float]]> heap_1d)).

(** The 1-D block with the faces of direction 1 at the doubles nearest to
    -0.2, -0.1, 0, 0.1, ..., 0.6. *)
Definition heap_1d_tenths_grid : gmap positive (list float) :=
  <[1%positive :=
      [-0x1.999999999999ap-3; -0x1.999999999999ap-4; 0;
       0x1.999999999999ap-4; 0x1.999999999999ap-3; 0x1.3333333333333p-2;
       0x1.999999999999ap-2; 0x1p-1; 0x1.3333333333333p-1]%float]> heap_1d.

(** The 1-D block with nine adjacent doubles as the faces of direction 1:
    1, the next double [1 + 2^-52], and so on. *)
Definition heap_1d_adjacent : gmap positive (list float) :=
  <[1%positive :=
      [0x1.0000000000000p+0; 0x1.0000000000001p+0; 0x1.0000000000002p+0;
       0x1.0000000000003p+0; 0x1.0000000000004p+0; 0x1.0000000000005p+0;
       0x1.0000000000006p+0; 0x1.0000000000007p+0; 0x1.0000000000008p+0]%float]>
    heap_1d.

(** ** Binary64 numbers as rationals

    [Prim2SF] gives the sign, the mantissa and the exponent of a double;
    the specification of the operations on doubles ([add_spec], [sub_spec],
    [mul_spec]) is stated on these. *)

Definition SF2Q (x : spec_float) : Q :=
  match x with
  | S754_finite s m e => (inject_Z (cond_Zopp s (Z.pos m)) * 2 ^ e)%Q
  | _ => 0%Q
  end.

(** The rational a double stands for ([0] for an infinity or a NaN). *)
Definition B2Q (x : float) : Q := SF2Q (Prim2SF x).

Definition finite_SF (x : spec_float) : bool :=
  match x with
  | S754_zero _ | S754_finite _ _ _ => true
  | _ => false
  end.

(** [x] is a number: neither an infinity nor a NaN. *)
Definition finite_float (x : float) : bool := finite_SF (Prim2SF x).

(** The unit roundoff of binary64, [2^-53]. *)
Definition unit_roundoff : Q := (1 # 2 ^ 53)%Q.

(** What [n] roundings in a row can add to a relative error:
    [(1 + 2^-53)^n - 1], a little more than [n * 2^-53]. *)
Definition tolerance (n : nat) : Q := ((1 + unit_roundoff) ^ Z.of_nat n - 1)%Q.

(** [q] is zero, or at least [2^e] in magnitude.  The least normal double is
    [2^-1022]: a result below it is rounded to fewer than 53 bits. *)
Definition zero_or_at_least (e : Z) (q : Q) : Prop := (q == 0 ∨ 2 ^ e <= Qabs q)%Q.

(** The number in cell [n] of the array [a] ([0] if there is none). *)
Definition value_at (σ : gmap positive (list float)) (a : positive) (n : Z) : Q :=
  from_option B2Q 0%Q (load σ a n).



(** The spacing [dxv(i)] against the mean of the widths of the cells [i]
    and [i+1], read off the faces: when the spacing is a number, and neither
    face sum underflows, the three faces are numbers and the spacing is the
    mean width up to three roundings, relative to the magnitudes of the
    midpoints of the two cells. *)
Definition mean_width_within_tolerance (σ : gmap positive (list float))
    (xf dxv : positive) (i : Z) : Prop :=
  ∃ a b c d,
    load σ xf i = Some a ∧ load σ xf (i + 1) = Some b ∧
    load σ xf (i + 2) = Some c ∧ load σ dxv i = Some d ∧
    (finite_float d = true →
     zero_or_at_least (-1020) (B2Q a + B2Q b) →
     zero_or_at_least (-1020) (B2Q b + B2Q c) →
     finite_float a = true ∧ finite_float b = true ∧ finite_float c = true ∧
     (Qabs (B2Q d - (1 # 2) * ((B2Q b - B2Q a) + (B2Q c - B2Q b)))
      <= tolerance 3 * ((1 # 2) * (Qabs (B2Q a + B2Q b) + Qabs (B2Q b + B2Q c))))%Q).

(** The volume [vol] of a cell with face spacings [dx], [dy] and [dz]
    against its areas [a1] and [a2] orthogonal to the directions 1 and 2:
    when the three are numbers, and no product of the spacings underflows,
    the volume is [a1 * dx] and [a2 * dy] up to three roundings, relative
    to the exact product of the spacings. *)
Definition volume_within_tolerance (dx dy dz a1 a2 vol : float) : Prop :=
  finite_float vol = true → finite_float a1 = true → finite_float a2 = true →
  zero_or_at_least (-1020) (B2Q dx * B2Q dy) ∧
  zero_or_at_least (-1020) (B2Q dy * B2Q dz) ∧
  zero_or_at_least (-1020) (B2Q dx * B2Q dz) ∧
  zero_or_at_least (-1020) (B2Q dx * B2Q dy * B2Q dz) →
  (Qabs (B2Q vol - B2Q a1 * B2Q dx)
   <= tolerance 3 * Qabs (B2Q dx * B2Q dy * B2Q dz))%Q ∧
  (Qabs (B2Q vol - B2Q a2 * B2Q dy)
   <= tolerance 3 * Qabs (B2Q dx * B2Q dy * B2Q dz))%Q.

(** The center of the cell [i] against its faces: when the center is a
    number and the faces are in order, the faces are numbers and the center
    lies between them. *)
Definition center_within_cell (σ : gmap positive (list float))
    (xf xv : positive) (i : Z) : Prop :=
  ∃ a b c,
    load σ xf i = Some a ∧ load σ xf (i + 1) = Some b ∧ load σ xv i = Some c ∧
    (finite_float c = true → (B2Q a <= B2Q b)%Q →
     finite_float a = true ∧ finite_float b = true ∧
     (B2Q a <= B2Q c)%Q ∧ (B2Q c <= B2Q b)%Q).

(** The spacing [dxv(i)] between the centers of the cells [i] and [i+1]:
    when it is a number and the three faces are in order, it is not
    negative. *)
Definition spacing_nonnegative (σ : gmap positive (list float))
    (xf dxv : positive) (i : Z) : Prop :=
  ∃ a b c d,
    load σ xf i = Some a ∧ load σ xf (i + 1) = Some b ∧
    load σ xf (i + 2) = Some c ∧ load σ dxv i = Some d ∧
    (finite_float d = true → (B2Q a <= B2Q b)%Q → (B2Q b <= B2Q c)%Q →
     (0 <= B2Q d)%Q).

(** A direction whose cells [lo..hi] have centers, and spacings between
    them. *)
Definition extended_ordered (σ : gmap positive (list float))
    (xf xv dxv : positive) (lo hi : Z) : Prop :=
  (∀ i, lo ≤ i ≤ hi → center_within_cell σ xf xv i) ∧
  (∀ i, lo ≤ i ≤ hi - 1 → spacing_nonnegative σ xf dxv i).

(** A direction as the constructor treats it: a single center when it has
    no extent, the ghost-extended range [s - NGHOST .. e + NGHOST]
    otherwise. *)
Definition axis_ordered (NGHOST : Z) (σ : gmap positive (list float)) (nx : Z)
    (xf xv dxv : positive) (s e : Z) : Prop :=
  if decide (nx = 1) then center_within_cell σ xf xv s
  else extended_ordered σ xf xv dxv (s - NGHOST) (e + NGHOST).

(** *** Rounding, on integers

    A finite double is a whole number of units of [2^emin], the least
    positive double: the relation between the result of an operation and
    the exact result is stated first on these integers. *)

(** The value of a finite number in units of [2^emin]. *)
Definition units (prec emax : Z) (x : spec_float) : Z :=
  match x with
  | S754_finite s m e => cond_Zopp s (Z.pos m) * 2 ^ (e - SpecFloat.emin prec emax)
  | _ => 0
  end.

Definition above_emin (prec emax : Z) (x : spec_float) : Prop :=
  match x with
  | S754_finite _ _ e => SpecFloat.emin prec emax ≤ e
  | _ => True
  end.

(** [r] is [v] units rounded: within [2^-prec] of it, relatively. *)
Definition rounds_to (prec emax : Z) (r : spec_float) (v : Z) : Prop :=
  above_emin prec emax r ∧ 2 ^ prec * Z.abs (units prec emax r - v) ≤ Z.abs v.

(** The magnitude of a finite number in units of [2^e0]. *)
Definition magnitude (e0 : Z) (x : spec_float) : Z :=
  match x with
  | S754_finite _ m e => Z.pos m * 2 ^ (e - e0)
  | _ => 0
  end.

(** The value of a finite number in units of [2^e0]. *)
Definition scaled (e0 : Z) (x : spec_float) : Z :=
  match x with
  | S754_finite s m e => cond_Zopp s (Z.pos m) * 2 ^ (e - e0)
  | _ => 0
  end.

(** A number of the format, but for the bound on its exponent: zero, or a
    mantissa with the exponent the format gives it. *)
Definition canonical (prec emax : Z) (x : spec_float) : Prop :=
  match x with
  | S754_finite _ m e => fexp prec emax (Z.pos (digits2_pos m) + e) = e
  | S754_zero _ => True
  | _ => False
  end.

(** [R] and the exact value [V] are on the same side of [F]. *)
Definition same_side (F V R : Z) : Prop := (F ≤ V → F ≤ R) ∧ (V ≤ F → R ≤ F).

(** The record after [k] right shifts of [m0]: the quotient, and the
    position of the remainder with respect to one half. *)
Definition shr_inv (m0 k : Z) (mrs : shr_record) : Prop :=
  0 ≤ shr_m mrs ∧
  ∃ rem, 0 ≤ rem < 2 ^ k ∧ m0 = 2 ^ k * shr_m mrs + rem ∧
         (shr_r mrs = true ↔ 2 ^ k ≤ 2 * rem) ∧
         (shr_s mrs = true ↔ rem ≠ 0 ∧ 2 * rem ≠ 2 ^ k).

(** * Facts about the store *)

Section Facts.

Context {Real : Type} `{!RealOps Real}.
Variable NGHOST : Z.

Abbreviation heap := (gmap positive (list Real)).

Implicit Types (σ : heap) (a buf : positive) (n i lo hi : Z) (v : Real).

Lemma bind_unfold {A B : Type} (m : M A) (f : A → M B) σ :
  (m ≫= f) σ = match m σ with Some (x, σ') => f x σ' | None => None end.
Proof. reflexivity. Qed.

Lemma int_ok z σ : INT_MIN ≤ z ≤ INT_MAX → int_ z σ = Some (z, σ).
Proof. intros Hz. unfold int_. by rewrite decide_True. Qed.

Lemma load_is_Some σ a n : is_Some (load σ a n) ↔ 0 ≤ n < GetDim1 σ a.
Proof.
  unfold load, GetDim1. destruct (σ !! a) as [l|]; simpl.
  - case_decide as Hn.
    + rewrite lookup_lt_is_Some. lia.
    + split; [by intros [? ?] | lia].
  - split; [by intros [? ?] | lia].
Qed.

Lemma load_agree σ σ' a n : σ' !! a = σ !! a → load σ' a n = load σ a n.
Proof. unfold load. by intros ->. Qed.

Lemma GetDim1_agree σ σ' a : σ' !! a = σ !! a → GetDim1 σ' a = GetDim1 σ a.
Proof. unfold GetDim1. by intros ->. Qed.

(** ** Assignment *)

Lemma upd_lookup_ne σ a a' n v : a' ≠ a → upd σ a n v !! a' = σ !! a'.
Proof.
  intros Hne. unfold upd. destruct (σ !! a) as [l|] eqn:Ha; [|done].
  by rewrite lookup_insert_ne.
Qed.

Lemma GetDim1_upd σ a a' n v : GetDim1 (upd σ a n v) a' = GetDim1 σ a'.
Proof.
  destruct (decide (a' = a)) as [->|Hne].
  - unfold upd, GetDim1. destruct (σ !! a) as [l|] eqn:Ha.
    + rewrite lookup_insert_eq. simpl. by rewrite length_insert.
    + by rewrite Ha.
  - apply GetDim1_agree. by apply upd_lookup_ne.
Qed.

Lemma load_upd_eq σ a n v :
  0 ≤ n < GetDim1 σ a → load (upd σ a n v) a n = Some v.
Proof.
  unfold upd, GetDim1, load. destruct (σ !! a) as [l|] eqn:Ha; simpl; [|lia].
  intros Hn. rewrite lookup_insert_eq. simpl. rewrite decide_True by lia.
  apply list_lookup_insert_eq. lia.
Qed.

Lemma load_upd_ne σ a n v n' :
  0 ≤ n → n' ≠ n → load (upd σ a n v) a n' = load σ a n'.
Proof.
  intros Hn Hne. unfold upd, load. destruct (σ !! a) as [l|] eqn:Ha; simpl.
  - rewrite lookup_insert_eq. simpl. case_decide as Hn'; [|done].
    apply list_lookup_insert_ne. lia.
  - by rewrite Ha.
Qed.

(** ** Array accesses *)

Lemma elem_ok σ a n : 0 ≤ n < GetDim1 σ a → elem a n σ = Some ((a, n), σ).
Proof. intros Hn. unfold elem. by rewrite decide_True. Qed.

Lemma get_eq σ a n :
  get a n σ = match load σ a n with Some v => Some (v, σ) | None => None end.
Proof.
  unfold get. rewrite bind_unfold. unfold elem. case_decide as Hn.
  - reflexivity.
  - destruct (load σ a n) as [v|] eqn:Hl; [|done].
    exfalso. apply Hn, load_is_Some. eauto.
Qed.

Lemma put_eq σ a n v :
  put a n v σ =
  if decide (0 ≤ n < GetDim1 σ a) then Some ((), upd σ a n v) else None.
Proof.
  unfold put. rewrite bind_unfold. unfold elem. case_decide as Hn; [|done].
  unfold wr. simpl. by rewrite decide_True.
Qed.

(** ** Loops *)

Lemma iter_inv (I : Z → heap → Prop) (body : Z → M ()) (k : nat) : ∀ lo σ,
  I lo σ →
  (∀ i σi, lo ≤ i < lo + Z.of_nat k → I i σi →
     ∃ σ', body i σi = Some ((), σ') ∧ I (i + 1) σ') →
  ∃ σ', iter body (seqZ lo (Z.of_nat k)) σ = Some ((), σ') ∧ I (lo + Z.of_nat k) σ'.
Proof.
  induction k as [|k IH]; intros lo σ H0 Hstep.
  - exists σ. rewrite seqZ_nil by lia. split; [done|].
    by replace (lo + Z.of_nat 0) with lo by lia.
  - rewrite seqZ_cons by lia. simpl iter. rewrite bind_unfold.
    destruct (Hstep lo σ) as (σ1 & -> & H1); [lia | done |].
    replace (Z.pred (Z.of_nat (S k))) with (Z.of_nat k) by lia.
    destruct (IH (Z.succ lo) σ1) as (σ' & Hrun & HI).
    + by replace (Z.succ lo) with (lo + 1) by lia.
    + intros i σi Hi. apply Hstep. lia.
    + exists σ'. split; [done|].
      by replace (lo + Z.of_nat (S k)) with (Z.succ lo + Z.of_nat k) by lia.
Qed.

(** The rule for [for (i = lo; i <= hi; i++)]: an invariant that holds at
    [lo] and that every body carries from [i] to [i + 1] holds at [hi + 1];
    an empty range leaves the store as it is. *)
Lemma for_inv (I : Z → heap → Prop) (body : Z → M ()) lo hi σ :
  (lo ≤ hi → INT_MIN ≤ hi + 1 ≤ INT_MAX) →
  I lo σ →
  (∀ i σi, lo ≤ i ≤ hi → I i σi →
     ∃ σ', body i σi = Some ((), σ') ∧ I (i + 1) σ') →
  ∃ σ', for_ lo hi body σ = Some ((), σ') ∧
        (lo ≤ hi → I (hi + 1) σ') ∧ (hi < lo → σ' = σ).
Proof.
  intros Hint H0 Hstep. unfold for_. rewrite bind_unfold.
  destruct (decide (lo ≤ hi)) as [Hle|Hgt].
  - destruct (iter_inv I body (Z.to_nat (hi - lo + 1)) lo σ H0) as (σ' & Hrun & HI).
    { intros i σi Hi. apply Hstep. lia. }
    rewrite Z2Nat.id in Hrun, HI by lia. rewrite Hrun.
    rewrite bind_unfold, int_ok by auto.
    exists σ'. split; [done|]. split; [|lia].
    intros _. by replace (hi + 1) with (lo + (hi - lo + 1)) by lia.
  - rewrite seqZ_nil by lia. simpl. exists σ. split; [done|]. split; [lia|done].
Qed.

Lemma dom_upd σ a n v : dom (upd σ a n v) = dom σ.
Proof.
  unfold upd. destruct (σ !! a) as [l|] eqn:Ha; [|done].
  apply dom_insert_lookup_L. eauto.
Qed.

(** A loop of assignments [buf(i) = val i] over [lo..hi] runs to completion
    when the cells exist and the reads succeed in every store of the same
    shape; it changes the cells [lo..hi] of [buf] only; and when the values
    do not depend on [buf], cell [i] ends up holding [val i] as computed in
    the initial store. *)
Lemma for_assigns (body : Z → M ()) (val : Z → heap → option Real) buf lo hi σ :
  assigns body buf val →
  cells σ buf lo hi →
  (lo ≤ hi → INT_MIN ≤ hi + 1 ≤ INT_MAX) →
  (∀ i σi, lo ≤ i ≤ hi → (∀ a, GetDim1 σi a = GetDim1 σ a) → is_Some (val i σi)) →
  ∃ σ', for_ lo hi body σ = Some ((), σ') ∧
        only_cells σ σ' buf lo hi ∧
        ((∀ i σi, (∀ a, a ≠ buf → σi !! a = σ !! a) → val i σi = val i σ) →
         ∀ i, lo ≤ i ≤ hi → load σ' buf i = val i σ).
Proof.
  intros Hbody Hcells Hint Hval. unfold cells in Hcells.
  set (indep := ∀ i σi, (∀ a, a ≠ buf → σi !! a = σ !! a) → val i σi = val i σ).
  set (I := λ (i : Z) (σi : heap),
    (∀ a, a ≠ buf → σi !! a = σ !! a) ∧
    (∀ a, GetDim1 σi a = GetDim1 σ a) ∧
    dom σi = dom σ ∧
    (∀ n, ¬ (lo ≤ n < i) → load σi buf n = load σ buf n) ∧
    (indep → ∀ n, lo ≤ n < i → load σi buf n = val n σ)).
  destruct (for_inv I body lo hi σ Hint) as (σ' & Hrun & Hpost & Hempty).
  - unfold I. repeat split; try done. intros _ n Hn. lia.
  - intros i σi Hi (Hfr & Hdim & Hdom & Hout & Hin).
    rewrite Hbody. rewrite decide_True by (rewrite Hdim; lia).
    destruct (Hval i σi Hi Hdim) as [v Hv]. rewrite Hv.
    eexists. split; [reflexivity|]. unfold I. repeat split.
    + intros a Ha. rewrite upd_lookup_ne by done. by apply Hfr.
    + intros a. by rewrite GetDim1_upd.
    + by rewrite dom_upd.
    + intros n Hn. rewrite load_upd_ne by lia. apply Hout. lia.
    + intros Hindep n Hn. destruct (decide (n = i)) as [->|Hne].
      * rewrite load_upd_eq by (rewrite Hdim; lia).
        rewrite <- Hv. by apply (Hindep i σi).
      * rewrite load_upd_ne by lia. apply Hin; [done | lia].
  - exists σ'. split; [done|].
    destruct (decide (lo ≤ hi)) as [Hle|Hgt].
    + destruct (Hpost Hle) as (Hfr & Hdim & Hdom & Hout & Hin).
      split.
      * unfold only_cells. do 3 (split; [done|]). split; [|lia].
        intros n Hn. apply Hout. lia.
      * intros Hindep i Hi. apply Hin; [done | lia].
    + rewrite (Hempty ltac:(lia)). split.
      * unfold only_cells. repeat split; done.
      * intros _ i Hi. lia.
Qed.

(** ** The queries *)

(** Unfolds one loop body into the shape [assigns] asks for. *)
Ltac body_assigns :=
  intros ? ?; unfold get, put, int_, elem, rd, wr; simpl;
  repeat (rewrite bind_unfold; simpl);
  repeat first
    [ progress (rewrite bind_unfold; simpl)
    | match goal with
      | |- context [decide ?P] => destruct (decide P); simpl
      | |- context [load ?s ?a ?n] =>
          let E := fresh "E" in destruct (load s a n) eqn:E; simpl
      end ];
  try reflexivity; try lia;
  try (exfalso;
       match goal with
       | H : load ?s ?a ?n = Some _, N : ¬ (0 ≤ ?n < GetDim1 ?s ?a) |- _ =>
           apply N, load_is_Some; eauto
       end).

Lemma Area1Face_body dy dz areas :
  assigns (λ i, area ← elem areas i; y ← rd dy; z ← rd dz; wr area (Rmul y z))
    areas
    (λ _ σ, y ← load σ dy.1 dy.2; z ← load σ dz.1 dz.2; Some (Rmul y z)).
Proof. body_assigns. Qed.

Lemma Area2Face_body d1 dz areas :
  assigns (λ i, area ← elem areas i; delta_x ← elem d1 i;
                x ← rd delta_x; z ← rd dz; wr area (Rmul x z))
    areas
    (λ i σ, x ← load σ d1 i; z ← load σ dz.1 dz.2; Some (Rmul x z)).
Proof. body_assigns. Qed.

Lemma CellVolume_body d1 dy dz volumes :
  assigns (λ i, volume ← elem volumes i; delta_x ← elem d1 i;
                x ← rd delta_x; y ← rd dy; z ← rd dz;
                wr volume (Rmul (Rmul x y) z))
    volumes
    (λ i σ, x ← load σ d1 i; y ← load σ dy.1 dy.2; z ← load σ dz.1 dz.2;
            Some (Rmul (Rmul x y) z)).
Proof. body_assigns. Qed.

Lemma load_same_shape σ σi a n :
  (∀ a, GetDim1 σi a = GetDim1 σ a) → 0 ≤ n < GetDim1 σ a →
  ∃ v, load σi a n = Some v.
Proof. intros Hdim Hn. apply load_is_Some. by rewrite Hdim. Qed.

Lemma int_succ_ok il iu : (il ≤ iu → 0 ≤ il ∧ iu < INT_MAX) →
  il ≤ iu → INT_MIN ≤ iu + 1 ≤ INT_MAX.
Proof. unfold INT_MIN, INT_MAX. lia. Qed.

Lemma query_int σ co k j il iu buf :
  query_pre σ co k j il iu buf → il ≤ iu → INT_MIN ≤ iu + 1 ≤ INT_MAX.
Proof.
  intros (_ & _ & _ & Hb & Hi) Hle. unfold cells in Hb.
  apply (int_succ_ok il iu); [|done]. intros _. split; [apply Hb|apply Hi]; done.
Qed.

(** [Area1Face] within valid bounds: it completes, changes the cells
    [il..iu] of [areas] only, and, when [areas] is not itself one of the
    spacing arrays, fills them with [dx2f(j) * dx3f(k)]. *)
Lemma Area1Face_spec σ co k j il iu areas :
  query_pre σ co k j il iu areas →
  ∃ σ', Area1Face co k j il iu areas σ = Some ((), σ') ∧
        only_cells σ σ' areas il iu ∧
        (separate co areas → ∀ i, il ≤ i ≤ iu →
           load σ' areas i =
             (y ← load σ (dx2f (pparent_block co)) j;
              z ← load σ (dx3f (pparent_block co)) k; Some (Rmul y z))).
Proof.
  intros Hpre. pose proof (query_int _ _ _ _ _ _ _ Hpre) as Hint.
  destruct Hpre as (Hj & Hk & H1 & Hb & _).
  unfold Area1Face. rewrite bind_unfold, elem_ok by done.
  rewrite bind_unfold, elem_ok by done.
  destruct (for_assigns _ _ areas il iu σ (Area1Face_body (dx2f (pparent_block co), j) (dx3f (pparent_block co), k) areas) Hb Hint)
    as (σ' & Hrun & Hfr & Hval).
  - intros i σi Hi Hdim. simpl.
    destruct (load_same_shape σ σi _ j Hdim Hj) as [y ->].
    destruct (load_same_shape σ σi _ k Hdim Hk) as [z ->]. simpl. eauto.
  - exists σ'. split; [exact Hrun|]. split; [done|].
    intros (_ & Hy & Hz) i Hi. apply Hval; [|done].
    intros i' σi Hagree. simpl.
    by rewrite (load_agree σ σi _ j), (load_agree σ σi _ k) by (apply Hagree; done).
Qed.

Lemma Area2Face_spec σ co k j il iu areas :
  query_pre σ co k j il iu areas →
  ∃ σ', Area2Face co k j il iu areas σ = Some ((), σ') ∧
        only_cells σ σ' areas il iu ∧
        (separate co areas → ∀ i, il ≤ i ≤ iu →
           load σ' areas i =
             (x ← load σ (dx1f (pparent_block co)) i;
              z ← load σ (dx3f (pparent_block co)) k; Some (Rmul x z))).
Proof.
  intros Hpre. pose proof (query_int _ _ _ _ _ _ _ Hpre) as Hint.
  destruct Hpre as (Hj & Hk & H1 & Hb & _).
  unfold Area2Face. rewrite bind_unfold, elem_ok by done.
  destruct (for_assigns _ _ areas il iu σ (Area2Face_body (dx1f (pparent_block co)) (dx3f (pparent_block co), k) areas) Hb Hint)
    as (σ' & Hrun & Hfr & Hval).
  - intros i σi Hi Hdim. simpl. unfold cells in H1.
    destruct (load_same_shape σ σi (dx1f (pparent_block co)) i Hdim) as [x ->]; [lia|].
    destruct (load_same_shape σ σi _ k Hdim Hk) as [z ->]. simpl. eauto.
  - exists σ'. split; [exact Hrun|]. split; [done|].
    intros (Hx & _ & Hz) i Hi. apply Hval; [|done].
    intros i' σi Hagree. simpl.
    by rewrite (load_agree σ σi _ i'), (load_agree σ σi _ k) by (apply Hagree; done).
Qed.

Lemma Area3Face_spec σ co k j il iu areas :
  query_pre σ co k j il iu areas →
  ∃ σ', Area3Face co k j il iu areas σ = Some ((), σ') ∧
        only_cells σ σ' areas il iu ∧
        (separate co areas → ∀ i, il ≤ i ≤ iu →
           load σ' areas i =
             (x ← load σ (dx1f (pparent_block co)) i;
              y ← load σ (dx2f (pparent_block co)) j; Some (Rmul x y))).
Proof.
  intros Hpre. pose proof (query_int _ _ _ _ _ _ _ Hpre) as Hint.
  destruct Hpre as (Hj & Hk & H1 & Hb & _).
  unfold Area3Face. rewrite bind_unfold, elem_ok by done.
  destruct (for_assigns _ _ areas il iu σ (Area2Face_body (dx1f (pparent_block co)) (dx2f (pparent_block co), j) areas) Hb Hint)
    as (σ' & Hrun & Hfr & Hval).
  - intros i σi Hi Hdim. simpl. unfold cells in H1.
    destruct (load_same_shape σ σi (dx1f (pparent_block co)) i Hdim) as [x ->]; [lia|].
    destruct (load_same_shape σ σi _ j Hdim Hj) as [y ->]. simpl. eauto.
  - exists σ'. split; [exact Hrun|]. split; [done|].
    intros (Hx & Hy & _) i Hi. apply Hval; [|done].
    intros i' σi Hagree. simpl.
    by rewrite (load_agree σ σi _ i'), (load_agree σ σi _ j) by (apply Hagree; done).
Qed.

Lemma CellVolume_spec σ co k j il iu volumes :
  query_pre σ co k j il iu volumes →
  ∃ σ', CellVolume co k j il iu volumes σ = Some ((), σ') ∧
        only_cells σ σ' volumes il iu ∧
        (separate co volumes → ∀ i, il ≤ i ≤ iu →
           load σ' volumes i =
             (x ← load σ (dx1f (pparent_block co)) i;
              y ← load σ (dx2f (pparent_block co)) j;
              z ← load σ (dx3f (pparent_block co)) k;
              Some (Rmul (Rmul x y) z))).
Proof.
  intros Hpre. pose proof (query_int _ _ _ _ _ _ _ Hpre) as Hint.
  destruct Hpre as (Hj & Hk & H1 & Hb & _).
  unfold CellVolume. rewrite bind_unfold, elem_ok by done.
  rewrite bind_unfold, elem_ok by done.
  destruct (for_assigns _ _ volumes il iu σ (CellVolume_body (dx1f (pparent_block co)) (dx2f (pparent_block co), j) (dx3f (pparent_block co), k) volumes) Hb Hint)
    as (σ' & Hrun & Hfr & Hval).
  - intros i σi Hi Hdim. simpl. unfold cells in H1.
    destruct (load_same_shape σ σi (dx1f (pparent_block co)) i Hdim) as [x ->]; [lia|].
    destruct (load_same_shape σ σi _ j Hdim Hj) as [y ->].
    destruct (load_same_shape σ σi _ k Hdim Hk) as [z ->]. simpl. eauto.
  - exists σ'. split; [exact Hrun|]. split; [done|].
    intros (Hx & Hy & Hz) i Hi. apply Hval; [|done].
    intros i' σi Hagree. simpl.
    by rewrite (load_agree σ σi _ i'), (load_agree σ σi _ j),
      (load_agree σ σi _ k) by (apply Hagree; done).
Qed.

(** ** The constructor *)

Lemma centers_body xf xv :
  assigns (λ i, a ← get xf i; i1 ← int_ (i + 1); b ← get xf i1;
                put xv i (Rmul Rhalf (Radd a b)))
    xv
    (λ i σ, if decide (INT_MIN ≤ i + 1 ≤ INT_MAX)
            then a ← load σ xf i; b ← load σ xf (i + 1);
                 Some (Rmul Rhalf (Radd a b))
            else None).
Proof. body_assigns. Qed.

Lemma spacings_body xv dxv :
  assigns (λ i, i1 ← int_ (i + 1); b ← get xv i1; a ← get xv i;
                put dxv i (Rsub b a))
    dxv
    (λ i σ, if decide (INT_MIN ≤ i + 1 ≤ INT_MAX)
            then b ← load σ xv (i + 1); a ← load σ xv i; Some (Rsub b a)
            else None).
Proof. body_assigns. Qed.

Lemma int_bounds_succ i hi : 0 ≤ i ≤ hi → hi < INT_MAX → INT_MIN ≤ i + 1 ≤ INT_MAX.
Proof. unfold INT_MIN, INT_MAX. lia. Qed.

(** The loop of the centers. *)
Lemma centers_spec σ xf xv lo hi :
  xf ≠ xv →
  (lo ≤ hi → 0 ≤ lo ∧ hi + 1 < GetDim1 σ xf ∧ hi < GetDim1 σ xv ∧ hi < INT_MAX) →
  ∃ σ', centers xf xv lo hi σ = Some ((), σ') ∧
        only_cells σ σ' xv lo hi ∧
        (∀ i, lo ≤ i ≤ hi → center_at σ' xf xv i).
Proof.
  intros Hne Hpre. unfold centers.
  destruct (for_assigns _ _ xv lo hi σ (centers_body xf xv))
    as (σ' & Hrun & Hfr & Hval).
  - intros Hle. destruct (Hpre Hle) as (? & ? & ? & ?). done.
  - intros Hle. destruct (Hpre Hle) as (? & ? & ? & ?).
    apply (int_bounds_succ hi hi); lia.
  - intros i σi Hi Hdim. simpl.
    destruct (Hpre ltac:(lia)) as (? & ? & ? & ?).
    rewrite decide_True by (apply (int_bounds_succ i hi); lia).
    destruct (load_same_shape σ σi xf i Hdim) as [a ->]; [lia|].
    destruct (load_same_shape σ σi xf (i + 1) Hdim) as [b ->]; [lia|].
    simpl. eauto.
  - exists σ'. split; [exact Hrun|]. split; [done|].
    intros i Hi. destruct (Hpre ltac:(lia)) as (? & ? & ? & ?).
    destruct Hfr as (Hag & Hdim & _).
    assert (Hxf : σ' !! xf = σ !! xf) by (by apply Hag).
    destruct (load_same_shape σ σ xf i) as [a Ha]; [done | lia |].
    destruct (load_same_shape σ σ xf (i + 1)) as [b Hb]; [done | lia |].
    exists a, b. rewrite !(load_agree σ σ' xf) by done.
    split; [done|]. split; [done|].
    rewrite Hval; [| |done].
    + simpl. rewrite decide_True by (apply (int_bounds_succ i hi); lia).
      by rewrite Ha, Hb.
    + intros i' σi Hagree. simpl.
      by rewrite (load_agree σ σi xf i'), (load_agree σ σi xf (i' + 1))
        by (by apply Hagree).
Qed.

(** The loop of the spacings. *)
Lemma spacings_spec σ xv dxv lo hi :
  xv ≠ dxv →
  (lo ≤ hi → 0 ≤ lo ∧ hi + 1 < GetDim1 σ xv ∧ hi < GetDim1 σ dxv ∧ hi < INT_MAX) →
  ∃ σ', spacings xv dxv lo hi σ = Some ((), σ') ∧
        only_cells σ σ' dxv lo hi ∧
        (∀ i, lo ≤ i ≤ hi → spacing_at σ' xv dxv i).
Proof.
  intros Hne Hpre. unfold spacings.
  destruct (for_assigns _ _ dxv lo hi σ (spacings_body xv dxv))
    as (σ' & Hrun & Hfr & Hval).
  - intros Hle. destruct (Hpre Hle) as (? & ? & ? & ?). done.
  - intros Hle. destruct (Hpre Hle) as (? & ? & ? & ?).
    apply (int_bounds_succ hi hi); lia.
  - intros i σi Hi Hdim. simpl.
    destruct (Hpre ltac:(lia)) as (? & ? & ? & ?).
    rewrite decide_True by (apply (int_bounds_succ i hi); lia).
    destruct (load_same_shape σ σi xv (i + 1) Hdim) as [b ->]; [lia|].
    destruct (load_same_shape σ σi xv i Hdim) as [a ->]; [lia|].
    simpl. eauto.
  - exists σ'. split; [exact Hrun|]. split; [done|].
    intros i Hi. destruct (Hpre ltac:(lia)) as (? & ? & ? & ?).
    destruct Hfr as (Hag & Hdim & _).
    assert (Hxv : σ' !! xv = σ !! xv) by (by apply Hag).
    destruct (load_same_shape σ σ xv i) as [a Ha]; [done | lia |].
    destruct (load_same_shape σ σ xv (i + 1)) as [b Hb]; [done | lia |].
    exists a, b. rewrite !(load_agree σ σ' xv) by done.
    split; [done|]. split; [done|].
    rewrite Hval; [| |done].
    + simpl. rewrite decide_True by (apply (int_bounds_succ i hi); lia).
      by rewrite Ha, Hb.
    + intros i' σi Hagree. simpl.
      by rewrite (load_agree σ σi xv i'), (load_agree σ σi xv (i' + 1))
        by (by apply Hagree).
Qed.

Lemma load_upd_other σ a a' n n' v :
  a' ≠ a → load (upd σ a n v) a' n' = load σ a' n'.
Proof. intros Hne. apply load_agree. by apply upd_lookup_ne. Qed.

Lemma center_at_agree σ σ' xf xv i :
  σ' !! xf = σ !! xf → σ' !! xv = σ !! xv →
  center_at σ xf xv i → center_at σ' xf xv i.
Proof.
  intros Hf Hv (a & b & Ha & Hb & Hc). exists a, b.
  by rewrite !(load_agree σ σ' xf), (load_agree σ σ' xv).
Qed.

Lemma spacing_at_agree σ σ' xv dxv i :
  σ' !! xv = σ !! xv → σ' !! dxv = σ !! dxv →
  spacing_at σ xv dxv i → spacing_at σ' xv dxv i.
Proof.
  intros Hv Hd (a & b & Ha & Hb & Hc). exists a, b.
  by rewrite !(load_agree σ σ' xv), (load_agree σ σ' dxv).
Qed.

Lemma touches_trans σ1 σ2 σ3 ws :
  touches σ1 σ2 ws → touches σ2 σ3 ws → touches σ1 σ3 ws.
Proof.
  intros (Ha & Hd & Hm) (Ha' & Hd' & Hm'). split; [|split].
  - intros a Hn. rewrite Ha' by done. by apply Ha.
  - intros a. by rewrite Hd'.
  - by rewrite Hm'.
Qed.

Lemma only_cells_touches σ σ' buf lo hi ws :
  buf ∈ ws → only_cells σ σ' buf lo hi → touches σ σ' ws.
Proof.
  intros Hin (Ha & Hd & Hm & _). split; [|done].
  intros a Hn. apply Ha. by intros ->.
Qed.

Lemma not_elem_of_pair (a x y : positive) : a ∉ [x; y] → a ≠ x ∧ a ≠ y.
Proof. rewrite !not_elem_of_cons. tauto. Qed.

(** Both loops of an extended direction. *)
Lemma extended_spec σ xf xv dxv s e :
  xf ≠ xv → xf ≠ dxv → xv ≠ dxv →
  extended_pre NGHOST σ xf xv dxv s e →
  ∃ σ', extended NGHOST xf xv dxv s e σ = Some ((), σ') ∧
        touches σ σ' [xv; dxv] ∧
        extended_post σ σ' xf xv dxv (s - NGHOST) (e + NGHOST).
Proof.
  intros Hfv Hfd Hvd (Hlo & Hhi & Hc & Hs). unfold extended.
  rewrite bind_unfold, int_ok by done.
  rewrite bind_unfold, int_ok by lia.
  set (lo := s - NGHOST) in *. set (hi := e + NGHOST) in *.
  destruct (centers_spec σ xf xv lo hi Hfv Hc) as (σ1 & Hrun1 & Hfr1 & Hcen).
  rewrite bind_unfold, Hrun1. rewrite bind_unfold, int_ok by lia.
  pose proof Hfr1 as (Hag1 & Hdim1 & Hdom1 & Hout1 & _).
  destruct (spacings_spec σ1 xv dxv lo (hi - 1) Hvd) as (σ2 & Hrun2 & Hfr2 & Hsp).
  { intros Hle. rewrite !Hdim1. destruct Hc as (? & ? & ? & ?); [lia|].
    specialize (Hs Hle). repeat split; lia. }
  pose proof Hfr2 as (Hag2 & Hdim2 & Hdom2 & Hout2 & _).
  exists σ2. split; [exact Hrun2|]. split.
  - apply (touches_trans σ σ1 σ2).
    + apply (only_cells_touches σ σ1 xv lo hi); [|done].
      rewrite !elem_of_cons. tauto.
    + apply (only_cells_touches σ1 σ2 dxv lo (hi - 1)); [|done].
      rewrite !elem_of_cons. tauto.
  - split; [|split; [|split]].
    + intros i Hi. apply (center_at_agree σ1); [by apply Hag2 | by apply Hag2 |].
      by apply Hcen.
    + done.
    + intros n Hn. rewrite (load_agree σ1 σ2 xv) by (by apply Hag2). by apply Hout1.
    + intros n Hn. rewrite Hout2 by done. apply load_agree. apply Hag1. done.
Qed.

(** A direction with no extent. *)
Lemma no_extent_spec σ xf dxf xv dxv s :
  xf ≠ xv → xf ≠ dxv → dxf ≠ xv → dxf ≠ dxv → xv ≠ dxv →
  no_extent_pre σ xf dxf xv dxv s →
  ∃ σ', no_extent xf dxf xv dxv s σ = Some ((), σ') ∧
        touches σ σ' [xv; dxv] ∧
        no_extent_post σ σ' xf dxf xv dxv s.
Proof.
  intros Hfv Hfd Hgv Hgd Hvd (Hs0 & Hs1 & Hf & Hg & Hv & Hd). unfold no_extent.
  destruct (load_same_shape σ σ xf s) as [a Ha]; [done | lia |].
  destruct (load_same_shape σ σ xf (s + 1)) as [b Hb]; [done | lia |].
  destruct (load_same_shape σ σ dxf s) as [d Hdl]; [done | lia |].
  rewrite bind_unfold, get_eq, Ha.
  rewrite bind_unfold, int_ok by (apply (int_bounds_succ s s); lia).
  rewrite bind_unfold, get_eq, Hb.
  rewrite bind_unfold, put_eq, decide_True by lia.
  set (σ1 := upd σ xv s (Rmul Rhalf (Radd a b))).
  rewrite bind_unfold, get_eq.
  unfold σ1 at 1. rewrite load_upd_other by done. rewrite Hdl.
  rewrite put_eq, decide_True by (unfold σ1; rewrite GetDim1_upd; lia).
  eexists. split; [reflexivity|]. split; [split; [|split] |].
  - intros a' Hn. apply not_elem_of_pair in Hn as [Hn1 Hn2].
    unfold σ1. by rewrite !upd_lookup_ne by done.
  - intros a'. unfold σ1. by rewrite !GetDim1_upd.
  - unfold σ1. by rewrite !dom_upd.
  - split; [|split; [|split]].
    + exists a, b. unfold σ1. rewrite !load_upd_other by done.
      split; [done|]. split; [done|]. apply load_upd_eq. lia.
    + exists d. unfold σ1. rewrite !load_upd_other by done.
      split; [done|]. apply load_upd_eq. rewrite GetDim1_upd. lia.
    + intros n Hn. unfold σ1. rewrite load_upd_other by done.
      by apply load_upd_ne.
    + intros n Hn. rewrite load_upd_ne by done. unfold σ1.
      by apply load_upd_other.
Qed.

Lemma extended_pre_dims σ σ' xf xv dxv s e :
  (∀ a, GetDim1 σ' a = GetDim1 σ a) →
  extended_pre NGHOST σ xf xv dxv s e → extended_pre NGHOST σ' xf xv dxv s e.
Proof. unfold extended_pre. intros Hd. by rewrite !Hd. Qed.

Lemma axis_pre_dims σ σ' nx xf dxf xv dxv s e :
  (∀ a, GetDim1 σ' a = GetDim1 σ a) →
  axis_pre NGHOST σ nx xf dxf xv dxv s e → axis_pre NGHOST σ' nx xf dxf xv dxv s e.
Proof.
  unfold axis_pre, no_extent_pre. intros Hd. case_decide.
  - by rewrite !Hd.
  - by apply extended_pre_dims.
Qed.

(** The code of one direction, as the constructor writes it for the
    directions 2 and 3. *)
Lemma axis_spec σ nx xf dxf xv dxv s e :
  xf ≠ xv → xf ≠ dxv → dxf ≠ xv → dxf ≠ dxv → xv ≠ dxv →
  axis_pre NGHOST σ nx xf dxf xv dxv s e →
  ∃ σ', (if decide (nx = 1) then no_extent xf dxf xv dxv s
         else extended NGHOST xf xv dxv s e) σ = Some ((), σ') ∧
        touches σ σ' [xv; dxv] ∧
        axis_post NGHOST σ σ' nx xf dxf xv dxv s e.
Proof.
  intros Hfv Hfd Hgv Hgd Hvd. unfold axis_pre, axis_post. case_decide.
  - by apply no_extent_spec.
  - by apply extended_spec.
Qed.

Lemma extended_post_transfer σ0 σ1 σ2 σ3 xf xv dxv lo hi :
  σ1 !! xv = σ0 !! xv → σ1 !! dxv = σ0 !! dxv →
  σ3 !! xf = σ2 !! xf → σ3 !! xv = σ2 !! xv → σ3 !! dxv = σ2 !! dxv →
  extended_post σ1 σ2 xf xv dxv lo hi → extended_post σ0 σ3 xf xv dxv lo hi.
Proof.
  intros Hv0 Hd0 Hf Hv Hd (Hc & Hs & Hov & Hod). split; [|split; [|split]].
  - intros i Hi. apply (center_at_agree σ2); auto.
  - intros i Hi. apply (spacing_at_agree σ2); auto.
  - intros n Hn. rewrite (load_agree σ2 σ3 xv), <- (load_agree σ0 σ1 xv) by done. auto.
  - intros n Hn. rewrite (load_agree σ2 σ3 dxv), <- (load_agree σ0 σ1 dxv) by done. auto.
Qed.

Lemma no_extent_post_transfer σ0 σ1 σ2 σ3 xf dxf xv dxv s :
  σ1 !! xv = σ0 !! xv → σ1 !! dxv = σ0 !! dxv →
  σ3 !! xf = σ2 !! xf → σ3 !! dxf = σ2 !! dxf →
  σ3 !! xv = σ2 !! xv → σ3 !! dxv = σ2 !! dxv →
  no_extent_post σ1 σ2 xf dxf xv dxv s → no_extent_post σ0 σ3 xf dxf xv dxv s.
Proof.
  intros Hv0 Hd0 Hf Hg Hv Hd (Hc & (d & Hd1 & Hd2) & Hov & Hod).
  split; [|split; [|split]].
  - apply (center_at_agree σ2); auto.
  - exists d. by rewrite (load_agree σ2 σ3 dxf), (load_agree σ2 σ3 dxv).
  - intros n Hn. rewrite (load_agree σ2 σ3 xv), <- (load_agree σ0 σ1 xv) by done. auto.
  - intros n Hn. rewrite (load_agree σ2 σ3 dxv), <- (load_agree σ0 σ1 dxv) by done. auto.
Qed.

Lemma axis_post_transfer σ0 σ1 σ2 σ3 nx xf dxf xv dxv s e :
  σ1 !! xv = σ0 !! xv → σ1 !! dxv = σ0 !! dxv →
  σ3 !! xf = σ2 !! xf → σ3 !! dxf = σ2 !! dxf →
  σ3 !! xv = σ2 !! xv → σ3 !! dxv = σ2 !! dxv →
  axis_post NGHOST σ1 σ2 nx xf dxf xv dxv s e →
  axis_post NGHOST σ0 σ3 nx xf dxf xv dxv s e.
Proof.
  unfold axis_post. intros Hv0 Hd0 Hf Hg Hv Hd. case_decide.
  - by apply no_extent_post_transfer.
  - by apply extended_post_transfer.
Qed.

(** A new array is none of the arrays of the store, which keep their
    content. *)
Lemma NewAthenaArray_spec σ n :
  0 ≤ n →
  ∃ a σ', NewAthenaArray n σ = Some (a, σ') ∧
          (a ∉ dom σ) ∧ (dom σ' = {[a]} ∪ dom σ) ∧
          GetDim1 σ' a = n ∧
          (∀ a', a' ∈ dom σ → σ' !! a' = σ !! a').
Proof.
  intros Hn. unfold NewAthenaArray. rewrite decide_True by done.
  eexists _, _. split; [reflexivity|]. simpl.
  pose proof (is_fresh (dom σ)) as Hfresh.
  split; [done|]. split; [apply dom_insert_L|]. split.
  - unfold GetDim1. rewrite lookup_insert_eq. simpl. rewrite length_replicate. lia.
  - intros a' Hin. apply lookup_insert_ne. by intros <-.
Qed.

(** Closes a goal [x ≠ y] or [x ∉ [y; ...]] from the inequalities at hand. *)
Ltac differ :=
  rewrite ?not_elem_of_cons; repeat split;
  first [ assumption | apply not_eq_sym; assumption | apply not_elem_of_nil ].

(** The constructor on a block it can be run on: it completes; the scratch
    arrays are new; outside the center and spacing arrays the store is as it
    was; and each direction is left as its code leaves it. *)
Lemma Coordinates_ctor_spec σ pb :
  ctor_pre NGHOST σ pb →
  ∃ co σ',
    Coordinates_ctor NGHOST pb σ = Some (co, σ') ∧
    pparent_block co = pb ∧
    (face_area co ∉ dom σ) ∧ (cell_volume co ∉ dom σ) ∧
    face_area co ≠ cell_volume co ∧
    (GetDim1 σ' (face_area co) = nx1 (block_size pb) + 2 * NGHOST) ∧
    (GetDim1 σ' (cell_volume co) = nx1 (block_size pb) + 2 * NGHOST) ∧
    (∀ a, a ∈ dom σ →
          a ∉ [x1v pb; dx1v pb; x2v pb; dx2v pb; x3v pb; dx3v pb] →
          σ' !! a = σ !! a) ∧
    (∀ a, a ∈ dom σ → GetDim1 σ' a = GetDim1 σ a) ∧
    extended_post σ σ' (x1f pb) (x1v pb) (dx1v pb)
      (is_ pb - NGHOST) (ie pb + NGHOST) ∧
    axis_post NGHOST σ σ' (nx2 (block_size pb))
      (x2f pb) (dx2f pb) (x2v pb) (dx2v pb) (js pb) (je pb) ∧
    axis_post NGHOST σ σ' (nx3 (block_size pb))
      (x3f pb) (dx3f pb) (x3v pb) (dx3v pb) (ks pb) (ke pb).
Proof.
  intros (Hnd & Hall & Hp1 & Hp2 & Hp3 & Hg & Hn). unfold ctor_arrays in *.
  repeat (rewrite NoDup_cons in Hnd; rewrite ?not_elem_of_cons in Hnd).
  destruct_and!.
  repeat match goal with H : Forall _ (_ :: _) |- _ =>
    apply Forall_cons in H as [? ?] end.
  repeat match goal with H : is_Some (σ !! _) |- _ =>
    apply elem_of_dom in H end.
  unfold Coordinates_ctor.
  (* direction 1 *)
  destruct (extended_spec σ (x1f pb) (x1v pb) (dx1v pb) (is_ pb) (ie pb))
    as (σ1 & Hrun1 & (T1 & D1 & M1) & P1); [differ.. | done |].
  rewrite bind_unfold, Hrun1.
  (* direction 2 *)
  destruct (axis_spec σ1 (nx2 (block_size pb)) (x2f pb) (dx2f pb) (x2v pb)
              (dx2v pb) (js pb) (je pb))
    as (σ2 & Hrun2 & (T2 & D2 & M2) & P2);
    [differ.. | by apply (axis_pre_dims σ) |].
  rewrite bind_unfold, Hrun2.
  (* direction 3 *)
  destruct (axis_spec σ2 (nx3 (block_size pb)) (x3f pb) (dx3f pb) (x3v pb)
              (dx3v pb) (ks pb) (ke pb))
    as (σ3 & Hrun3 & (T3 & D3 & M3) & P3);
    [differ.. | apply (axis_pre_dims σ); [intros a; by rewrite D2|done] |].
  rewrite bind_unfold, Hrun3.
  (* scratch arrays *)
  rewrite bind_unfold, int_ok by done.
  rewrite bind_unfold, int_ok by (unfold INT_MIN; lia).
  destruct (NewAthenaArray_spec σ3 (nx1 (block_size pb) + 2 * NGHOST))
    as (fa & σ4 & Hrun4 & Hfa & M4 & G4 & T4); [lia|].
  rewrite bind_unfold, Hrun4.
  destruct (NewAthenaArray_spec σ4 (nx1 (block_size pb) + 2 * NGHOST))
    as (cv & σ5 & Hrun5 & Hcv & M5 & G5 & T5); [lia|].
  rewrite bind_unfold, Hrun5.
  assert (Hdom3 : dom σ3 = dom σ) by (by rewrite M3, M2, M1).
  rewrite M4, Hdom3, not_elem_of_union, not_elem_of_singleton in Hcv.
  destruct Hcv as [Hcvfa Hcv0].
  assert (Hin4 : ∀ a, a ∈ dom σ → a ∈ dom σ4).
  { intros a Ha. rewrite M4, Hdom3, elem_of_union. by right. }
  assert (T35 : ∀ a, a ∈ dom σ → σ5 !! a = σ3 !! a).
  { intros a Ha. rewrite T5, T4; [done | by rewrite Hdom3 | by apply Hin4]. }
  exists {| pparent_block := pb; face_area := fa; cell_volume := cv |}, σ5.
  simpl. split; [reflexivity|]. split; [done|].
  split; [by rewrite <- Hdom3|]. split; [done|]. split; [done|].
  split; [|split; [|split; [|split; [|split; [|split]]]]].
  - rewrite <- G4. apply GetDim1_agree, T5.
    rewrite M4, elem_of_union, elem_of_singleton. by left.
  - done.
  - intros a Ha Hno. rewrite !not_elem_of_cons in Hno. destruct_and!.
    rewrite T35, T3, T2, T1 by (done || differ). done.
  - intros a Ha. rewrite (GetDim1_agree σ3 σ5) by (by apply T35).
    by rewrite D3, D2, D1.
  - apply (extended_post_transfer σ σ σ1 σ5); try done.
    all: rewrite T35, T3, T2 by (done || differ); done.
  - apply (axis_post_transfer σ σ1 σ2 σ5).
    1,2: apply T1; differ.
    all: try done.
    all: rewrite T35, T3 by (done || differ); done.
  - apply (axis_post_transfer σ σ2 σ3 σ5).
    1,2: rewrite T2, T1 by differ; done.
    all: try done.
    all: rewrite T35 by done; done.
Qed.

(** Every range query, within valid bounds, completes and changes the cells
    [il..iu] of its buffer only. *)
Lemma range_queries_spec σ co k j il iu buf q :
  q ∈ range_queries →
  query_pre σ co k j il iu buf →
  ∃ σ', q co k j il iu buf σ = Some ((), σ') ∧ only_cells σ σ' buf il iu.
Proof.
  unfold range_queries. rewrite !elem_of_cons, elem_of_nil.
  intros [->|[->|[->|[->|[]]]]] Hpre.
  - destruct (Area1Face_spec σ co k j il iu buf Hpre) as (σ' & ? & ? & _); eauto.
  - destruct (Area2Face_spec σ co k j il iu buf Hpre) as (σ' & ? & ? & _); eauto.
  - destruct (Area3Face_spec σ co k j il iu buf Hpre) as (σ' & ? & ? & _); eauto.
  - destruct (CellVolume_spec σ co k j il iu buf Hpre) as (σ' & ? & ? & _); eauto.
Qed.

Lemma query_pre_loads σ co k j il iu buf :
  query_pre σ co k j il iu buf →
  (∃ dy, load σ (dx2f (pparent_block co)) j = Some dy) ∧
  (∃ dz, load σ (dx3f (pparent_block co)) k = Some dz) ∧
  (∀ i, il ≤ i ≤ iu → ∃ dx, load σ (dx1f (pparent_block co)) i = Some dx).
Proof.
  intros (Hj & Hk & H1 & _). unfold cells in H1. split; [|split].
  - by apply (load_same_shape σ σ).
  - by apply (load_same_shape σ σ).
  - intros i Hi. apply (load_same_shape σ σ); [done | lia].
Qed.

(** The arrays the constructor only reads are arrays of the store that it
    leaves as they are. *)
Lemma ctor_reads_kept σ σ' pb :
  ctor_pre NGHOST σ pb →
  (∀ a, a ∈ dom σ →
        a ∉ [x1v pb; dx1v pb; x2v pb; dx2v pb; x3v pb; dx3v pb] →
        σ' !! a = σ !! a) →
  ∀ a, a ∈ [x1f pb; x2f pb; x3f pb; dx2f pb; dx3f pb] → σ' !! a = σ !! a.
Proof.
  intros (Hnd & Hall & _) Hfr a Ha. unfold ctor_arrays in *.
  repeat (rewrite NoDup_cons in Hnd; rewrite ?not_elem_of_cons in Hnd).
  destruct_and!.
  repeat match goal with H : Forall _ (_ :: _) |- _ =>
    apply Forall_cons in H as [? ?] end.
  repeat match goal with H : is_Some (σ !! _) |- _ =>
    apply elem_of_dom in H end.
  rewrite !elem_of_cons, elem_of_nil in Ha.
  destruct Ha as [->|[->|[->|[->|[->|[]]]]]]; apply Hfr; (done || differ).
Qed.

(** * The claims *)

(** C1.  For every cell index [i] of the requested range [il..iu], with
    transverse indices [j] and [k] within valid mesh bounds (interior or
    ghost), [CellVolume] completes and writes
    [volumes(i) = dx1f(i) * dx2f(j) * dx3f(k)].  The buffer is the caller's:
    it is none of the three face-spacing arrays. *)
Theorem CellVolume_product σ co k j il iu volumes :
  query_pre σ co k j il iu volumes →
  separate co volumes →
  ∃ σ', CellVolume co k j il iu volumes σ = Some ((), σ') ∧
    ∀ i, il ≤ i ≤ iu →
      ∃ dx dy dz,
        load σ (dx1f (pparent_block co)) i = Some dx ∧
        load σ (dx2f (pparent_block co)) j = Some dy ∧
        load σ (dx3f (pparent_block co)) k = Some dz ∧
        load σ' volumes i = Some (Rmul (Rmul dx dy) dz).
Proof.
  intros Hpre Hsep.
  destruct (query_pre_loads _ _ _ _ _ _ _ Hpre) as ([dy Hy] & [dz Hz] & Hx).
  destruct (CellVolume_spec σ co k j il iu volumes Hpre) as (σ' & Hrun & _ & Hval).
  exists σ'. split; [done|]. intros i Hi. destruct (Hx i Hi) as [dx Hdx].
  exists dx, dy, dz. rewrite (Hval Hsep i Hi), Hdx, Hy, Hz. done.
Qed.

(** C2.  For every valid range [il..iu] and transverse indices [j], [k],
    each face-area query completes and fills the buffer with the product of
    the face spacings along the two other directions: [Area1Face] with
    [dx2f(j) * dx3f(k)], the same value at every [i] of the range;
    [Area2Face] with [dx1f(i) * dx3f(k)]; [Area3Face] with
    [dx1f(i) * dx2f(j)]. *)
Theorem face_areas_product σ co k j il iu areas :
  query_pre σ co k j il iu areas →
  separate co areas →
  ∃ dy dz,
    load σ (dx2f (pparent_block co)) j = Some dy ∧
    load σ (dx3f (pparent_block co)) k = Some dz ∧
    (∃ σ1, Area1Face co k j il iu areas σ = Some ((), σ1) ∧
       ∀ i, il ≤ i ≤ iu → load σ1 areas i = Some (Rmul dy dz)) ∧
    (∃ σ2, Area2Face co k j il iu areas σ = Some ((), σ2) ∧
       ∀ i, il ≤ i ≤ iu →
         ∃ dx, load σ (dx1f (pparent_block co)) i = Some dx ∧
               load σ2 areas i = Some (Rmul dx dz)) ∧
    (∃ σ3, Area3Face co k j il iu areas σ = Some ((), σ3) ∧
       ∀ i, il ≤ i ≤ iu →
         ∃ dx, load σ (dx1f (pparent_block co)) i = Some dx ∧
               load σ3 areas i = Some (Rmul dx dy)).
Proof.
  intros Hpre Hsep.
  destruct (query_pre_loads _ _ _ _ _ _ _ Hpre) as ([dy Hy] & [dz Hz] & Hx).
  exists dy, dz. split; [done|]. split; [done|]. split; [|split].
  - destruct (Area1Face_spec σ co k j il iu areas Hpre) as (σ' & Hrun & _ & Hval).
    exists σ'. split; [done|]. intros i Hi.
    rewrite (Hval Hsep i Hi), Hy, Hz. done.
  - destruct (Area2Face_spec σ co k j il iu areas Hpre) as (σ' & Hrun & _ & Hval).
    exists σ'. split; [done|]. intros i Hi. destruct (Hx i Hi) as [dx Hdx].
    exists dx. split; [done|]. rewrite (Hval Hsep i Hi), Hdx, Hz. done.
  - destruct (Area3Face_spec σ co k j il iu areas Hpre) as (σ' & Hrun & _ & Hval).
    exists σ'. split; [done|]. intros i Hi. destruct (Hx i Hi) as [dx Hdx].
    exists dx. split; [done|]. rewrite (Hval Hsep i Hi), Hdx, Hy. done.
Qed.

(** C3.  For every pair of transverse indices and every array of primitive
    values, [CoordinateSourceTerms] completes and leaves the store, hence the
    output buffer of the caller, exactly as it was: it writes nothing, and
    calling it again changes nothing either. *)
Theorem CoordinateSourceTerms_noop σ co k j prim sources :
  ∃ σ', CoordinateSourceTerms co k j prim sources σ = Some ((), σ') ∧
        σ' = σ ∧
        (∀ n, load σ' sources n = load σ sources n) ∧
        CoordinateSourceTerms co k j prim sources σ' = Some ((), σ).
Proof.
  exists σ. unfold CoordinateSourceTerms. repeat split; reflexivity.
Qed.

(** C7.  For every face-area and cell-volume query with range [il..iu]
    called within valid bounds, every cell of the buffer outside [il..iu]
    holds after the call what it held before; a call with an empty range
    ([iu < il]) leaves the whole buffer (indeed the whole store) unchanged. *)
Theorem range_queries_keep_rest_of_buffer σ co k j il iu buf q :
  q ∈ range_queries →
  query_pre σ co k j il iu buf →
  ∃ σ', q co k j il iu buf σ = Some ((), σ') ∧
        (∀ n, ¬ (il ≤ n ≤ iu) → load σ' buf n = load σ buf n) ∧
        (iu < il → σ' = σ).
Proof.
  intros Hq Hpre.
  destruct (range_queries_spec σ co k j il iu buf q Hq Hpre)
    as (σ' & Hrun & _ & _ & _ & Hout & Hempty).
  exists σ'. auto.
Qed.

(** C10, as the code has it.  Every per-step query leaves the arrays of the
    block and the scratch buffers of the instance unchanged, the array
    handed by the caller as the buffer apart, be it a scratch buffer of the
    instance or an array of the block: the only cells of the store a range
    query writes are the cells [il..iu] of that buffer, and
    [CoordinateSourceTerms] writes none. *)
Theorem queries_write_buffer_only σ co k j il iu buf prim :
  query_pre σ co k j il iu buf →
  (∀ q, q ∈ range_queries →
     ∃ σ', q co k j il iu buf σ = Some ((), σ') ∧
           (∀ a n, a ≠ buf ∨ ¬ (il ≤ n ≤ iu) → load σ' a n = load σ a n) ∧
           (∀ a, a ∈ owned_arrays co → a ≠ buf → σ' !! a = σ !! a) ∧
           (∀ a, GetDim1 σ' a = GetDim1 σ a)) ∧
  CoordinateSourceTerms co k j prim buf σ = Some ((), σ).
Proof.
  intros Hpre. split; [|reflexivity]. intros q Hq.
  destruct (range_queries_spec σ co k j il iu buf q Hq Hpre)
    as (σ' & Hrun & Hag & Hdim & _ & Hout & _).
  exists σ'. split; [done|]. split; [|split; [|done]].
  - intros a n [Ha|Hn].
    + apply load_agree. by apply Hag.
    + destruct (decide (a = buf)) as [->|Ha]; [by apply Hout|].
      apply load_agree. by apply Hag.
  - intros a _ Ha. by apply Hag.
Qed.

(** C4.  Given a block whose face positions are populated over the interior
    and the ghost margins, the constructor completes, leaves the faces as
    they are, and writes, for direction 1 and for every other direction that
    is not of unit extent, the centers [x#v(i) = 0.5 * (x#f(i) + x#f(i+1))]
    for every [i] from the lower to the upper ghost bound, and the spacings
    [dx#v(i) = x#v(i+1) - x#v(i)] for every [i] from the lower ghost bound to
    the upper ghost bound minus one. *)
Theorem ctor_centers_and_spacings σ pb :
  ctor_pre NGHOST σ pb →
  ∃ co σ', Coordinates_ctor NGHOST pb σ = Some (co, σ') ∧
    (∀ a, a ∈ [x1f pb; x2f pb; x3f pb] → σ' !! a = σ !! a) ∧
    ((∀ i, is_ pb - NGHOST ≤ i ≤ ie pb + NGHOST →
           center_at σ' (x1f pb) (x1v pb) i) ∧
     (∀ i, is_ pb - NGHOST ≤ i ≤ ie pb + NGHOST - 1 →
           spacing_at σ' (x1v pb) (dx1v pb) i)) ∧
    (nx2 (block_size pb) ≠ 1 →
     (∀ j, js pb - NGHOST ≤ j ≤ je pb + NGHOST →
           center_at σ' (x2f pb) (x2v pb) j) ∧
     (∀ j, js pb - NGHOST ≤ j ≤ je pb + NGHOST - 1 →
           spacing_at σ' (x2v pb) (dx2v pb) j)) ∧
    (nx3 (block_size pb) ≠ 1 →
     (∀ k, ks pb - NGHOST ≤ k ≤ ke pb + NGHOST →
           center_at σ' (x3f pb) (x3v pb) k) ∧
     (∀ k, ks pb - NGHOST ≤ k ≤ ke pb + NGHOST - 1 →
           spacing_at σ' (x3v pb) (dx3v pb) k)).
Proof.
  intros Hpre.
  destruct (Coordinates_ctor_spec σ pb Hpre)
    as (co & σ' & Hrun & _ & _ & _ & _ & _ & _ & Hfr & _ & P1 & P2 & P3).
  exists co, σ'. split; [done|]. split; [|split; [|split]].
  - intros a Ha. apply (ctor_reads_kept σ σ' pb Hpre Hfr).
    rewrite !elem_of_cons in Ha. rewrite !elem_of_cons. tauto.
  - destruct P1 as (Hc & Hs & _). auto.
  - intros Hnx. unfold axis_post in P2. rewrite decide_False in P2 by done.
    destruct P2 as (Hc & Hs & _). auto.
  - intros Hnx. unfold axis_post in P3. rewrite decide_False in P3 by done.
    destruct P3 as (Hc & Hs & _). auto.
Qed.

(** C5, as the code has it.  For a block of unit extent along direction 2
    ([nx2 == 1]) the constructor sets exactly one center,
    [x2v(js) = 0.5 * (x2f(js) + x2f(js+1))], and exactly one spacing, which
    is the face spacing the block stores, [dx2v(js) = dx2f(js)]; it writes no
    other cell of [x2v] or [dx2v].  The spacing is the face-to-face width
    [x2f(js+1) - x2f(js)] when the stored [dx2f(js)] is. *)
Theorem ctor_unit_extent_direction2 σ pb :
  ctor_pre NGHOST σ pb →
  nx2 (block_size pb) = 1 →
  ∃ co σ', Coordinates_ctor NGHOST pb σ = Some (co, σ') ∧
    center_at σ' (x2f pb) (x2v pb) (js pb) ∧
    (∃ d, load σ (dx2f pb) (js pb) = Some d ∧
          load σ' (dx2v pb) (js pb) = Some d) ∧
    (∀ n, n ≠ js pb →
          load σ' (x2v pb) n = load σ (x2v pb) n ∧
          load σ' (dx2v pb) n = load σ (dx2v pb) n) ∧
    (width_at σ (x2f pb) (dx2f pb) (js pb) →
     width_at σ' (x2f pb) (dx2v pb) (js pb)).
Proof.
  intros Hpre Hnx.
  destruct (Coordinates_ctor_spec σ pb Hpre)
    as (co & σ' & Hrun & _ & _ & _ & _ & _ & _ & Hfr & _ & _ & P2 & _).
  pose proof (ctor_reads_kept σ σ' pb Hpre Hfr) as Hkept.
  assert (Hf : σ' !! x2f pb = σ !! x2f pb)
    by (apply Hkept; rewrite !elem_of_cons; tauto).
  assert (Hg : σ' !! dx2f pb = σ !! dx2f pb)
    by (apply Hkept; rewrite !elem_of_cons; tauto).
  unfold axis_post in P2. rewrite decide_True in P2 by done.
  destruct P2 as (Hc & (d & Hd1 & Hd2) & Hov & Hod).
  rewrite (load_agree σ σ') in Hd1 by done.
  exists co, σ'. split; [done|]. split; [done|]. split; [eauto|]. split; [auto|].
  intros (a & b & Ha & Hb & Hw). exists a, b.
  rewrite !(load_agree σ σ' (x2f pb)) by done.
  split; [done|]. split; [done|]. congruence.
Qed.

(** C6, as the code has it.  For the directions 2 and 3, a direction with
    exactly one cell gets the convention of a direction with no extent: one
    center from the two bounding faces and one spacing, the stored face
    spacing, with no other cell written.  Direction 1 has no such case: the
    constructor always runs its two loops over the ghost-extended range,
    also when [nx1 == 1]. *)
Theorem ctor_unit_extent_directions σ pb :
  ctor_pre NGHOST σ pb →
  ∃ co σ', Coordinates_ctor NGHOST pb σ = Some (co, σ') ∧
    (nx2 (block_size pb) = 1 →
     no_extent_post σ σ' (x2f pb) (dx2f pb) (x2v pb) (dx2v pb) (js pb)) ∧
    (nx3 (block_size pb) = 1 →
     no_extent_post σ σ' (x3f pb) (dx3f pb) (x3v pb) (dx3v pb) (ks pb)) ∧
    extended_post σ σ' (x1f pb) (x1v pb) (dx1v pb)
      (is_ pb - NGHOST) (ie pb + NGHOST).
Proof.
  intros Hpre.
  destruct (Coordinates_ctor_spec σ pb Hpre)
    as (co & σ' & Hrun & _ & _ & _ & _ & _ & _ & _ & _ & P1 & P2 & P3).
  exists co, σ'. split; [done|]. split; [|split; [|done]].
  - intros Hnx. unfold axis_post in P2. by rewrite decide_True in P2.
  - intros Hnx. unfold axis_post in P3. by rewrite decide_True in P3.
Qed.

(** C9, as the code has it.  The constructor checks nothing: whether it
    completes depends on the arrays having the cells it touches, not on the
    values the faces hold nor on the order of the bounds.  On a block whose
    bounds of direction 1 are inverted ([ie + NGHOST < is - NGHOST]) the two
    loops of that direction run no body, and construction completes with
    every cell of [x1v] and [dx1v] holding what it held before. *)
Theorem ctor_checks_nothing σ pb :
  ctor_pre NGHOST σ pb →
  ∃ co σ', Coordinates_ctor NGHOST pb σ = Some (co, σ') ∧
    (ie pb + NGHOST < is_ pb - NGHOST →
     ∀ n, load σ' (x1v pb) n = load σ (x1v pb) n ∧
          load σ' (dx1v pb) n = load σ (dx1v pb) n).
Proof.
  intros Hpre.
  destruct (Coordinates_ctor_spec σ pb Hpre)
    as (co & σ' & Hrun & _ & _ & _ & _ & _ & _ & _ & _ & P1 & _).
  destruct P1 as (_ & _ & Hov & Hod).
  exists co, σ'. split; [done|]. intros Hinv n.
  split; [apply Hov | apply Hod]; lia.
Qed.

(** The scratch arrays.  The constructor records its block and allocates
    two new arrays, [face_area] and [cell_volume], distinct from each other
    and from every array of the store it was given, each of
    [nx1 + 2*NGHOST] cells. *)
Theorem ctor_allocates_scratch_arrays σ pb :
  ctor_pre NGHOST σ pb →
  ∃ co σ', Coordinates_ctor NGHOST pb σ = Some (co, σ') ∧
    pparent_block co = pb ∧
    (face_area co ∉ dom σ) ∧ (cell_volume co ∉ dom σ) ∧
    face_area co ≠ cell_volume co ∧
    (GetDim1 σ' (face_area co) = nx1 (block_size pb) + 2 * NGHOST) ∧
    (GetDim1 σ' (cell_volume co) = nx1 (block_size pb) + 2 * NGHOST).
Proof.
  intros Hpre.
  destruct (Coordinates_ctor_spec σ pb Hpre)
    as (co & σ' & Hrun & Hpb & Hfa & Hcv & Hne & Gfa & Gcv & _).
  exists co, σ'. auto 10.
Qed.

End Facts.

(** * Rounding in binary64 *)

(** ** The rounding of [SpecFloat], on integers *)

Section Rounding.

Variables prec emax : Z.

#[local] Abbreviation emin := (SpecFloat.emin prec emax).

Implicit Types (x y r : spec_float) (k e ex ez v : Z) (mx mz p : positive)
  (mrs : shr_record).

Lemma digits2_size p : digits2_pos p = Pos.size p.
Proof. induction p; simpl; congruence. Qed.

Lemma digits2_bounds p :
  2 ^ (Z.pos (digits2_pos p) - 1) ≤ Z.pos p < 2 ^ Z.pos (digits2_pos p).
Proof.
  rewrite digits2_size. split.
  - pose proof (Pos.size_le p) as H.
    apply (Pos2Z.pos_le_pos) in H. rewrite Pos2Z.inj_pow in H.
    replace (Z.pos (Pos.size p)) with (Z.succ (Z.pos (Pos.size p) - 1)) in H by lia.
    rewrite Z.pow_succ_r in H by lia. lia.
  - pose proof (Pos.size_gt p) as H.
    apply (Pos2Z.pos_lt_pos) in H. by rewrite Pos2Z.inj_pow in H.
Qed.

Lemma digits2_unique p k :
  2 ^ (k - 1) ≤ Z.pos p < 2 ^ k → Z.pos (digits2_pos p) = k.
Proof.
  intros [Hlo Hhi]. destruct (digits2_bounds p) as [Dlo Dhi].
  set (d := Z.pos (digits2_pos p)) in *.
  assert (0 < k).
  { destruct (Z.lt_trichotomy 0 k) as [?|[<-|?]]; [done| |].
    - simpl in Hhi. lia.
    - rewrite Z.pow_neg_r in Hhi by done. lia. }
  assert (d - 1 < k) by (apply (Z.pow_lt_mono_r_iff 2); lia).
  assert (k - 1 < d) by (apply (Z.pow_lt_mono_r_iff 2); lia).
  lia.
Qed.

Lemma digits2_le p k : 0 ≤ k → Z.pos p < 2 ^ k → Z.pos (digits2_pos p) ≤ k.
Proof.
  intros Hk Hp. destruct (digits2_bounds p) as [Hlo _].
  assert (Z.pos (digits2_pos p) - 1 < k); [|lia].
  apply (Z.pow_lt_mono_r_iff 2); lia.
Qed.

Lemma pow2_pos k : 0 ≤ k → 0 < 2 ^ k.
Proof. intros. apply Z.pow_pos_nonneg; lia. Qed.

Lemma pow2_succ k : 0 ≤ k → 2 ^ (k + 1) = 2 * 2 ^ k.
Proof. intros. rewrite Z.pow_add_r by lia. lia. Qed.

Lemma pow2_split a b : 0 ≤ a → 0 ≤ b → 2 ^ (a + b) = 2 ^ a * 2 ^ b.
Proof. intros. by rewrite Z.pow_add_r. Qed.

(** Reads a hypothesis [b = true ↔ P] once [b] is known. *)
Ltac iff_bool H :=
  match type of H with
  | true = true ↔ ?P => assert P by (by apply H); clear H
  | false = true ↔ ?P => assert (¬ P) by (by intros ?%H); clear H
  end.

Lemma shr_inv_0 m0 : 0 ≤ m0 → shr_inv m0 0 (Build_shr_record m0 false false).
Proof.
  intros Hm. split; [done|]. exists 0. simpl. repeat split; try lia; try done.
Qed.

Lemma shr_inv_1 m0 k mrs : 0 ≤ k → shr_inv m0 k mrs → shr_inv m0 (k + 1) (shr_1 mrs).
Proof.
  intros Hk [Hm (rem & Hrem & Hm0 & Hr & Hs)].
  pose proof (pow2_succ k Hk) as Hp. pose proof (pow2_pos k Hk).
  unfold shr_inv. rewrite Hp. destruct mrs as [m r s]. simpl in *.
  assert (Hor : orb r s = true ↔ rem ≠ 0).
  { destruct r, s; iff_bool Hr; iff_bool Hs; simpl; split; intros; try done; lia. }
  destruct m as [|[p|p|]|p]; simpl; try lia.
  - split; [lia|]. exists rem. rewrite Hor. repeat split; intros; try done; lia.
  - split; [lia|]. exists (rem + 2 ^ k). rewrite Hor. repeat split; intros; try done; lia.
  - split; [lia|]. exists rem. rewrite Hor. repeat split; intros; try done; lia.
  - split; [lia|]. exists (rem + 2 ^ k). rewrite Hor. repeat split; intros; try done; lia.
Qed.

Lemma shr_inv_iter m0 p : ∀ k mrs,
  0 ≤ k → shr_inv m0 k mrs →
  shr_inv m0 (k + Z.pos p) (SpecFloat.iter_pos shr_1 p mrs).
Proof.
  induction p as [p IH|p IH|]; intros k mrs Hk H; simpl.
  - replace (k + Z.pos p~1) with (k + 1 + Z.pos p + Z.pos p) by lia.
    apply IH; [lia|]. apply IH; [lia|]. by apply shr_inv_1.
  - replace (k + Z.pos p~0) with (k + Z.pos p + Z.pos p) by lia.
    apply IH; [lia|]. by apply IH.
  - by apply shr_inv_1.
Qed.

(** Rounding to nearest, ties to even, is off by at most half a unit of the
    last place kept. *)
Lemma round_nearest_even_inv m0 k mrs :
  shr_inv m0 k mrs →
  let mr := round_nearest_even (shr_m mrs) (loc_of_shr_record mrs) in
  shr_m mrs ≤ mr ≤ shr_m mrs + 1 ∧ 2 * Z.abs (2 ^ k * mr - m0) ≤ 2 ^ k.
Proof.
  intros [Hm (rem & Hrem & Hm0 & Hr & Hs)]. destruct mrs as [m r s]. simpl in *.
  destruct r, s; iff_bool Hr; iff_bool Hs; simpl; try destruct (Z.even m); lia.
Qed.

(** Rounding a positive integer mantissa, at any exponent: the result is a
    multiple [q] of [2^n], [n] the number of bits dropped, within half of
    [2^n] of the mantissa. *)
Lemma binary_round_aux_nearest sx mz ez :
  0 < prec →
  let n := Z.max 0 (fexp prec emax (Z.pos (digits2_pos mz) + ez) - ez) in
  let r := binary_round_aux prec emax sx (Z.pos mz) ez loc_Exact in
  ∃ q, 0 ≤ q ∧ 2 * Z.abs (2 ^ n * q - Z.pos mz) ≤ 2 ^ n ∧
    (r = S754_infinity sx ∨
     (q = 0 ∧ r = S754_zero sx) ∨
     ∃ m e, r = S754_finite sx m e ∧ ez ≤ e ∧ emin ≤ e ∧
            Z.pos m * 2 ^ (e - ez) = 2 ^ n * q).
Proof.
  intros Hprec. cbv zeta. unfold binary_round_aux, shr_fexp.
  pose proof (digits2_bounds mz) as Hd. simpl Zdigits2.
  set (d := Z.pos (digits2_pos mz)) in *.
  assert (Hexact : emin ≤ ez → ∀ e,
     let r := if e <=? emax - prec then S754_finite sx mz ez else S754_infinity sx in
     ∃ q, 0 ≤ q ∧ 2 * Z.abs (2 ^ 0 * q - Z.pos mz) ≤ 2 ^ 0 ∧
       (r = S754_infinity sx ∨ (q = 0 ∧ r = S754_zero sx) ∨
        ∃ m e0, r = S754_finite sx m e0 ∧ ez ≤ e0 ∧ emin ≤ e0 ∧
                Z.pos m * 2 ^ (e0 - ez) = 2 ^ 0 * q)).
  { intros He e. exists (Z.pos mz). split; [lia|]. split; [simpl; lia|].
    destruct (e <=? emax - prec); [right; right|by left].
    exists mz, ez. split; [done|]. do 2 (split; [lia|]).
    rewrite Z.sub_diag. simpl. lia. }
  destruct (fexp prec emax (d + ez) - ez) as [|p|p] eqn:Hn.
  - simpl. fold d. rewrite Hn. simpl. apply Hexact. unfold fexp in Hn. lia.
  - replace (Z.max 0 (Z.pos p)) with (Z.pos p) by lia.
    assert (He' : emin ≤ ez + Z.pos p ∧ d - Z.pos p ≤ prec) by (unfold fexp in Hn; lia).
    cbn [shr shr_record_of_loc].
    set (mrs := SpecFloat.iter_pos shr_1 p _).
    assert (Hinv : shr_inv (Z.pos mz) (Z.pos p) mrs).
    { apply (shr_inv_iter (Z.pos mz) p 0); [lia|]. by apply shr_inv_0. }
    pose proof (round_nearest_even_inv _ _ _ Hinv) as [Hmr Herr].
    destruct Hinv as [Hm (rem & Hrem & Hm0 & _)].
    set (mr := round_nearest_even (shr_m mrs) (loc_of_shr_record mrs)) in *.
    clearbody mr. set (m' := shr_m mrs) in *. clearbody m'. clear mrs.
    pose proof (pow2_pos (Z.pos p) ltac:(lia)) as HA.
    pose proof (pow2_pos (prec - 1) ltac:(lia)) as HB.
    assert (Hpr : 2 ^ prec = 2 * 2 ^ (prec - 1)).
    { rewrite <- (pow2_succ (prec - 1)) by lia. f_equal. lia. }
    assert (Hm' : m' < 2 ^ prec).
    { destruct (decide (Z.pos p ≤ d)) as [Hpd|Hpd].
      - assert (2 ^ d = 2 ^ Z.pos p * 2 ^ (d - Z.pos p))
          by (rewrite <- Z.pow_add_r by lia; f_equal; lia).
        assert (2 ^ (d - Z.pos p) ≤ 2 ^ prec) by (apply Z.pow_le_mono_r; lia).
        nia.
      - assert (2 ^ d ≤ 2 ^ Z.pos p) by (apply Z.pow_le_mono_r; lia).
        assert (m' = 0) by nia. lia. }
    exists mr. split; [lia|]. split; [done|].
    destruct mr as [|q|q]; [|  |lia].
    { right; left. split; [done|]. simpl Zdigits2.
      destruct (fexp prec emax (0 + (ez + Z.pos p)) - (ez + Z.pos p)) as [|z|z] eqn:Hz;
        [done | unfold fexp in Hz; lia | done]. }
    destruct (decide (Z.pos q < 2 ^ prec)) as [Hlt|Hge].
    + pose proof (digits2_le q prec ltac:(lia) Hlt) as Hq.
      simpl Zdigits2.
      destruct (fexp prec emax (Z.pos (digits2_pos q) + (ez + Z.pos p)) - (ez + Z.pos p))
        as [|z|z] eqn:Hz; try (unfold fexp in Hz; lia).
      * simpl. destruct (_ <=? _); [right; right|by left].
        exists q, (ez + Z.pos p). split; [done|]. do 2 (split; [lia|]).
        replace (ez + Z.pos p - ez) with (Z.pos p) by lia. lia.
      * simpl. destruct (_ <=? _); [right; right|by left].
        exists q, (ez + Z.pos p). split; [done|]. do 2 (split; [lia|]).
        replace (ez + Z.pos p - ez) with (Z.pos p) by lia. lia.
    + assert (Hq2 : Z.pos q = 2 ^ prec) by lia.
      assert (Hq : Z.pos (digits2_pos q) = prec + 1).
      { apply digits2_unique. rewrite pow2_succ by lia.
        replace (prec + 1 - 1) with prec by lia. lia. }
      simpl Zdigits2. rewrite Hq.
      replace (fexp prec emax (prec + 1 + (ez + Z.pos p)) - (ez + Z.pos p)) with 1
        by (unfold fexp; lia).
      destruct q as [q|q|]; [lia| |lia].
      simpl. destruct (_ <=? _); [right; right|by left].
      exists q, (ez + Z.pos p + 1). split; [done|]. do 2 (split; [lia|]).
      replace (ez + Z.pos p + 1 - ez) with (Z.pos p + 1) by lia.
      rewrite pow2_succ by lia. lia.
  - simpl. fold d. rewrite Hn. simpl. apply Hexact. unfold fexp in Hn. lia.
Qed.


(** When the mantissa is not so small that the result is subnormal: overflow,
    or a finite number within [2^-prec] of it. *)
Lemma binary_round_aux_value sx mz ez :
  0 < prec → emin ≤ Z.max ez (Z.pos (digits2_pos mz) + ez - prec) →
  binary_round_aux prec emax sx (Z.pos mz) ez loc_Exact = S754_infinity sx ∨
  ∃ m e, binary_round_aux prec emax sx (Z.pos mz) ez loc_Exact = S754_finite sx m e ∧
         ez ≤ e ∧ emin ≤ e ∧
         2 ^ prec * Z.abs (Z.pos m * 2 ^ (e - ez) - Z.pos mz) ≤ Z.pos mz.
Proof.
  intros Hprec Hez.
  destruct (binary_round_aux_nearest sx mz ez Hprec) as (q & Hq & Herr & Hres).
  pose proof (digits2_bounds mz) as [Hdlo _].
  set (d := Z.pos (digits2_pos mz)) in *.
  set (n := Z.max 0 (fexp prec emax (d + ez) - ez)) in *.
  assert (Hn : n = 0 ∨ (0 < n ∧ n = d - prec)) by (unfold n, fexp; lia).
  assert (Hbound : 2 ^ prec * Z.abs (2 ^ n * q - Z.pos mz) ≤ Z.pos mz ∧ q ≠ 0).
  { destruct Hn as [Hn|[Hn Hnd]].
    - rewrite Hn in *. simpl in Herr. split; lia.
    - pose proof (pow2_pos prec ltac:(lia)).
      assert (E : 2 ^ (d - 1) * 2 = 2 ^ prec * 2 ^ n).
      { rewrite <- pow2_split, <- (Z.mul_comm 2), <- pow2_succ by lia. f_equal. lia. }
      pose proof (pow2_pos n ltac:(lia)). split; [nia|].
      intros ->. assert (2 ≤ 2 ^ prec); [|nia].
      replace prec with ((prec - 1) + 1) by lia. rewrite pow2_succ by lia.
      pose proof (pow2_pos (prec - 1) ltac:(lia)). lia. }
  destruct Hbound as [Hbound Hq0].
  destruct Hres as [Hr|[[? _]|(m & e & Hr & Hle & He & Hv)]]; [by left|done|right].
  exists m, e. rewrite Hv. done.
Qed.

Lemma iter_xO mx p : Z.pos (Pos.iter xO mx p) = Z.pos mx * 2 ^ Z.pos p.
Proof.
  induction p as [|p IH] using Pos.peano_ind.
  - simpl. lia.
  - rewrite Pos.iter_succ, Pos2Z.inj_succ, Z.pow_succ_r by lia.
    rewrite Pos2Z.inj_xO, IH. lia.
Qed.

Lemma shl_align_value mx ex ex' :
  let me := shl_align mx ex ex' in
  me.2 ≤ ex ∧ (me.2 = ex ∨ me.2 = ex') ∧ (ex' ≤ ex → me.2 = ex') ∧
  Z.pos me.1 = Z.pos mx * 2 ^ (ex - me.2).
Proof.
  unfold shl_align. destruct (ex' - ex) as [|d|d] eqn:Hd; simpl.
  - rewrite Z.sub_diag. simpl. lia.
  - rewrite Z.sub_diag. simpl. lia.
  - rewrite iter_xO. replace (ex - ex') with (Z.pos d) by lia. lia.
Qed.

(** A valid number has an exponent that is not below [emin]. *)
Lemma valid_above_emin x :
  SpecFloat.valid_binary prec emax x = true → above_emin prec emax x.
Proof.
  destruct x as [| | |s m e]; simpl; try done.
  unfold bounded, canonical_mantissa, fexp. intros [H _]%andb_prop.
  apply Z.eqb_eq in H. lia.
Qed.

Lemma binary_round_units sx mx ex :
  0 < prec → emin ≤ ex →
  let r := binary_round prec emax sx mx ex in
  r = S754_infinity sx ∨
  (finite_SF r = true ∧
   rounds_to prec emax r (cond_Zopp sx (Z.pos mx) * 2 ^ (ex - emin))).
Proof.
  intros Hprec Hex. unfold binary_round.
  pose proof (shl_align_value mx ex (fexp prec emax (Z.pos (digits2_pos mx) + ex)))
    as (Hle & Hor & _ & Hval).
  destruct (shl_align _ _ _) as [mz ez]. simpl in *.
  assert (Hez : emin ≤ ez) by (unfold fexp in Hor; lia).
  destruct (binary_round_aux_value sx mz ez Hprec ltac:(lia))
    as [->|(m & e & -> & Hee & _ & Herr)]; [by left|right].
  split; [done|]. split; [simpl; lia|]. simpl.
  assert (E1 : 2 ^ (e - emin) = 2 ^ (e - ez) * 2 ^ (ez - emin)).
  { rewrite <- Z.pow_add_r by lia. f_equal. lia. }
  assert (E2 : 2 ^ (ex - emin) = 2 ^ (ex - ez) * 2 ^ (ez - emin)).
  { rewrite <- Z.pow_add_r by lia. f_equal. lia. }
  pose proof (pow2_pos (ez - emin) ltac:(lia)) as HU.
  rewrite E1, E2. rewrite Hval in Herr.
  set (U := 2 ^ (ez - emin)) in *. set (a := Z.pos m * 2 ^ (e - ez)) in *.
  set (b := Z.pos mx * 2 ^ (ex - ez)) in *.
  assert (0 ≤ b) by (unfold b; pose proof (pow2_pos (ex - ez) ltac:(lia)); lia).
  replace (cond_Zopp sx (Z.pos m) * (2 ^ (e - ez) * U)
           - cond_Zopp sx (Z.pos mx) * (2 ^ (ex - ez) * U))
    with (cond_Zopp sx (U * (a - b))) by (destruct sx; simpl; unfold a, b; lia).
  replace (cond_Zopp sx (Z.pos mx) * (2 ^ (ex - ez) * U))
    with (cond_Zopp sx (U * b)) by (destruct sx; simpl; unfold b; lia).
  assert (Habs : ∀ z, Z.abs (cond_Zopp sx z) = Z.abs z) by (destruct sx; simpl; lia).
  rewrite !Habs, !Z.abs_mul, (Z.abs_eq U), (Z.abs_eq b) by lia.
  set (c := Z.abs (a - b)) in *. nia.
Qed.

Lemma binary_normalize_units m0 e szero :
  0 < prec → emin ≤ e →
  let r := binary_normalize prec emax m0 e szero in
  (∃ s, r = S754_infinity s) ∨
  (finite_SF r = true ∧ rounds_to prec emax r (m0 * 2 ^ (e - emin))).
Proof.
  intros Hprec He. destruct m0 as [|m|m]; simpl.
  - right. split; [done|]. split; simpl; lia.
  - destruct (binary_round_units false m e Hprec He) as [->|H]; [left; eauto|by right].
  - destruct (binary_round_units true m e Hprec He) as [->|H]; [left; eauto|by right].
Qed.

Lemma rounds_to_exact x : above_emin prec emax x → rounds_to prec emax x (units prec emax x).
Proof. intros. split; [done|]. rewrite Z.sub_diag. simpl. lia. Qed.

Lemma shl_align_units mx ex ez (s : bool) :
  emin ≤ ez → ez ≤ ex →
  cond_Zopp s (Z.pos (shl_align mx ex ez).1) * 2 ^ (ez - emin)
  = cond_Zopp s (Z.pos mx) * 2 ^ (ex - emin).
Proof.
  intros He Hle. pose proof (shl_align_value mx ex ez) as (_ & _ & Heq & Hval).
  simpl in *. rewrite Hval, Heq by done.
  replace (2 ^ (ex - emin)) with (2 ^ (ex - ez) * 2 ^ (ez - emin))
    by (rewrite <- Z.pow_add_r by lia; f_equal; lia).
  destruct s; simpl; lia.
Qed.

(** Addition: a result that is a number comes from numbers and is their
    sum, rounded. *)
Lemma SFadd_units x y :
  0 < prec → above_emin prec emax x → above_emin prec emax y →
  finite_SF (SFadd prec emax x y) = true →
  finite_SF x = true ∧ finite_SF y = true ∧
  rounds_to prec emax (SFadd prec emax x y) (units prec emax x + units prec emax y).
Proof.
  intros Hprec Hx Hy Hfin.
  destruct x as [sx|sx| |sx mx ex], y as [sy|sy| |sy my ey];
    try (simpl in Hfin; done); try (by destruct sx, sy).
  - do 2 (split; [done|]). destruct sx, sy; by apply rounds_to_exact.
  - do 2 (split; [done|]). by apply rounds_to_exact.
  - do 2 (split; [done|]). simpl. rewrite Z.add_0_r.
    by apply (rounds_to_exact (S754_finite _ _ _)).
  - do 2 (split; [done|]). simpl in Hx, Hy. unfold SFadd in *.
    set (ez := Z.min ex ey) in *.
    destruct (binary_normalize_units
      (cond_Zopp sx (Z.pos (shl_align mx ex ez).1)
       + cond_Zopp sy (Z.pos (shl_align my ey ez).1)) ez false Hprec ltac:(lia))
      as [[s Hs]|[_ Hr]].
    + simpl in Hs, Hfin. rewrite Hs in Hfin. done.
    + rewrite Z.mul_add_distr_r, !shl_align_units in Hr by lia. done.
Qed.

(** Subtraction, likewise. *)
Lemma SFsub_units x y :
  0 < prec → above_emin prec emax x → above_emin prec emax y →
  finite_SF (SFsub prec emax x y) = true →
  finite_SF x = true ∧ finite_SF y = true ∧
  rounds_to prec emax (SFsub prec emax x y) (units prec emax x - units prec emax y).
Proof.
  intros Hprec Hx Hy Hfin.
  destruct x as [sx|sx| |sx mx ex], y as [sy|sy| |sy my ey];
    try (simpl in Hfin; done); try (by destruct sx, sy).
  - do 2 (split; [done|]). destruct sx, sy; by apply rounds_to_exact.
  - do 2 (split; [done|]). simpl in Hy. split; [done|]. simpl.
    replace (cond_Zopp (negb sy) (Z.pos my) * 2 ^ (ey - emin)
             - (0 - cond_Zopp sy (Z.pos my) * 2 ^ (ey - emin))) with 0
      by (destruct sy; simpl; lia).
    simpl. lia.
  - do 2 (split; [done|]). simpl. rewrite Z.sub_0_r.
    by apply (rounds_to_exact (S754_finite _ _ _)).
  - do 2 (split; [done|]). simpl in Hx, Hy. unfold SFsub in *.
    set (ez := Z.min ex ey) in *.
    destruct (binary_normalize_units
      (cond_Zopp sx (Z.pos (shl_align mx ex ez).1)
       - cond_Zopp sy (Z.pos (shl_align my ey ez).1)) ez false Hprec ltac:(lia))
      as [[s Hs]|[_ Hr]].
    + simpl in Hs, Hfin. rewrite Hs in Hfin. done.
    + rewrite Z.mul_sub_distr_r, !shl_align_units in Hr by lia. done.
Qed.

(** A multiple [k * A] on one side of [m] stays on that side of the
    multiple [q * A] nearest to [m]. *)
Lemma nearest_multiple (A q k m : Z) :
  0 < A → 2 * Z.abs (A * q - m) ≤ A →
  (k * A ≤ m → k ≤ q) ∧ (m ≤ k * A → q ≤ k).
Proof. intros HA Hq. split; intros H; nia. Qed.

(** Rounding does not cross a number of the format: the rounded magnitude is
    on the same side of [mf * 2^ef], a canonical mantissa and exponent, as
    the exact one. *)
Lemma round_aux_between sx mz ez mf ef e0 :
  0 < prec → e0 ≤ ez → e0 ≤ ef →
  fexp prec emax (Z.pos (digits2_pos mf) + ef) = ef →
  let r := binary_round_aux prec emax sx (Z.pos mz) ez loc_Exact in
  finite_SF r = true →
  let V := Z.pos mz * 2 ^ (ez - e0) in
  let F := Z.pos mf * 2 ^ (ef - e0) in
  (F ≤ V → F ≤ magnitude e0 r) ∧ (V ≤ F → magnitude e0 r ≤ F).
Proof.
  intros Hprec Hez Hef Hcan. cbv zeta. intros Hfin.
  destruct (binary_round_aux_nearest sx mz ez Hprec) as (q & Hq & Herr & Hres).
  pose proof (digits2_bounds mz) as [Hdlo Hdhi].
  pose proof (digits2_bounds mf) as [_ Hfhi].
  set (d := Z.pos (digits2_pos mz)) in *. set (df := Z.pos (digits2_pos mf)) in *.
  set (n := Z.max 0 (fexp prec emax (d + ez) - ez)) in *.
  pose proof (pow2_pos (ez - e0) ltac:(lia)) as HS.
  pose proof (pow2_pos n ltac:(lia)) as HA.
  assert (HR : magnitude e0 (binary_round_aux prec emax sx (Z.pos mz) ez loc_Exact)
               = 2 ^ n * q * 2 ^ (ez - e0)).
  { destruct Hres as [Hr|[[-> Hr]|(m & e & Hr & Hle & _ & Hv)]]; rewrite Hr in *.
    - done.
    - simpl. lia.
    - simpl. rewrite <- Hv.
      replace (e - e0) with ((e - ez) + (ez - e0)) by lia.
      rewrite pow2_split by lia. lia. }
  rewrite HR. clear HR Hres Hfin.
  set (S := 2 ^ (ez - e0)) in *. set (A := 2 ^ n) in *.
  destruct (decide (fexp prec emax (d + ez) - ez ≤ 0)) as [Hn|Hn].
  { assert (A = 1) by (unfold A, n; by replace (Z.max 0 _) with 0 by lia).
    assert (q = Z.pos mz) by lia. subst q. split; nia. }
  assert (Hn' : n = fexp prec emax (d + ez) - ez) by lia.
  destruct (decide (ez + n ≤ ef)) as [Hle|Hgt].
  - assert (E : 2 ^ (ef - e0) = 2 ^ (ef - (ez + n)) * (A * S)).
    { unfold A, S. rewrite <- !pow2_split by lia. f_equal. lia. }
    rewrite E. set (k := Z.pos mf * 2 ^ (ef - (ez + n))).
    destruct (nearest_multiple A q k (Z.pos mz) HA Herr) as [H1 H2].
    replace (Z.pos mf * (2 ^ (ef - (ez + n)) * (A * S))) with (k * A * S) by (unfold k; lia).
    split; intros Hc.
    + assert (k ≤ q) by (apply H1; nia). nia.
    + assert (q ≤ k) by (apply H2; nia). nia.
  - assert (Hdd : df + ef < d + ez ∧ n = d - prec ∧ 0 ≤ df + ef - e0)
      by (unfold fexp in *; lia).
    destruct Hdd as (Hdd & Hnd & Hpos).
    assert (HF : Z.pos mf * 2 ^ (ef - e0) < 2 ^ (d - 1) * S).
    { assert (2 ^ (df + ef - e0) ≤ 2 ^ (d - 1 + (ez - e0))) by (apply Z.pow_le_mono_r; lia).
      assert (E1 : 2 ^ (df + ef - e0) = 2 ^ df * 2 ^ (ef - e0))
        by (rewrite <- pow2_split by lia; f_equal; lia).
      assert (E2 : 2 ^ (d - 1 + (ez - e0)) = 2 ^ (d - 1) * S)
        by (unfold S; rewrite <- pow2_split by lia; done).
      pose proof (pow2_pos (ef - e0) ltac:(lia)). nia. }
    assert (E : 2 ^ (d - 1) = 2 ^ (d - 1 - n) * A).
    { unfold A. rewrite <- pow2_split by lia. f_equal. lia. }
    destruct (nearest_multiple A q (2 ^ (d - 1 - n)) (Z.pos mz) HA Herr) as [H1 _].
    assert (2 ^ (d - 1 - n) ≤ q) by (apply H1; lia).
    split; intros Hc; nia.
Qed.


Lemma same_side_exact F V : same_side F V V.
Proof. by split. Qed.

Lemma valid_canonical x :
  SpecFloat.valid_binary prec emax x = true → finite_SF x = true →
  canonical prec emax x.
Proof.
  destruct x as [| | |s m e]; simpl; try done.
  unfold bounded, canonical_mantissa. intros [H _]%andb_prop _.
  by apply Z.eqb_eq in H.
Qed.

Lemma round_aux_between_signed sx mz ez f e0 :
  0 < prec → e0 ≤ ez → e0 ≤ emin → canonical prec emax f →
  let r := binary_round_aux prec emax sx (Z.pos mz) ez loc_Exact in
  finite_SF r = true →
  same_side (scaled e0 f) (cond_Zopp sx (Z.pos mz) * 2 ^ (ez - e0)) (scaled e0 r).
Proof.
  intros Hprec Hez He0 Hcan. cbv zeta. intros Hfin.
  pose proof (pow2_pos (ez - e0) ltac:(lia)) as HS.
  assert (Hsign : scaled e0 (binary_round_aux prec emax sx (Z.pos mz) ez loc_Exact)
                  = cond_Zopp sx (magnitude e0
                      (binary_round_aux prec emax sx (Z.pos mz) ez loc_Exact))
                  ∧ 0 ≤ magnitude e0 (binary_round_aux prec emax sx (Z.pos mz) ez loc_Exact)).
  { destruct (binary_round_aux_nearest sx mz ez Hprec) as (q & _ & _ & Hres).
    destruct Hres as [Hr|[[_ Hr]|(m & e & Hr & Hle & _ & _)]]; rewrite Hr in *.
    - done.
    - simpl. by destruct sx.
    - simpl. pose proof (pow2_pos (e - e0) ltac:(lia)). destruct sx; simpl; lia. }
  destruct Hsign as [-> Hpos].
  destruct f as [sf| | |sf mf ef]; simpl in Hcan; try done; simpl scaled.
  - unfold same_side. destruct sx; simpl; lia.
  - assert (Hef : e0 ≤ ef) by (unfold fexp in Hcan; lia).
    pose proof (pow2_pos (ef - e0) ltac:(lia)) as HF.
    destruct (round_aux_between sx mz ez mf ef e0 Hprec Hez Hef Hcan Hfin) as [H1 H2].
    unfold same_side. destruct sx, sf; simpl; split; intros Hc; lia.
Qed.

Lemma binary_round_between sx mx ex f e0 :
  0 < prec → e0 ≤ ex → e0 ≤ emin → canonical prec emax f →
  let r := binary_round prec emax sx mx ex in
  finite_SF r = true →
  same_side (scaled e0 f) (cond_Zopp sx (Z.pos mx) * 2 ^ (ex - e0)) (scaled e0 r).
Proof.
  intros Hprec Hex He0 Hcan. cbv zeta. unfold binary_round.
  pose proof (shl_align_value mx ex (fexp prec emax (Z.pos (digits2_pos mx) + ex)))
    as (Hle & Hor & _ & Hval).
  destruct (shl_align _ _ _) as [mz ez]. simpl in *.
  assert (Hez : e0 ≤ ez) by (unfold fexp in Hor; lia).
  intros Hfin.
  pose proof (round_aux_between_signed sx mz ez f e0 Hprec Hez He0 Hcan Hfin) as H.
  replace (cond_Zopp sx (Z.pos mx) * 2 ^ (ex - e0))
    with (cond_Zopp sx (Z.pos mz) * 2 ^ (ez - e0)); [done|].
  rewrite Hval. replace (ex - e0) with ((ex - ez) + (ez - e0)) by lia.
  rewrite pow2_split by lia. destruct sx; simpl; lia.
Qed.

Lemma binary_normalize_between m0 e f e0 szero :
  0 < prec → e0 ≤ e → e0 ≤ emin → canonical prec emax f →
  let r := binary_normalize prec emax m0 e szero in
  finite_SF r = true →
  same_side (scaled e0 f) (m0 * 2 ^ (e - e0)) (scaled e0 r).
Proof.
  intros Hprec He He0 Hcan. destruct m0 as [|m|m]; simpl; intros Hfin.
  - apply same_side_exact.
  - by apply (binary_round_between false).
  - by apply (binary_round_between true).
Qed.

(** The sum of two numbers, rounded, does not cross a number of the
    format. *)
Lemma SFadd_between x y f :
  0 < prec → above_emin prec emax x → above_emin prec emax y → canonical prec emax f →
  finite_SF (SFadd prec emax x y) = true →
  same_side (units prec emax f) (units prec emax x + units prec emax y)
            (units prec emax (SFadd prec emax x y)).
Proof.
  intros Hprec Hx Hy Hcan Hfin.
  destruct x as [sx|sx| |sx mx ex], y as [sy|sy| |sy my ey];
    try (simpl in Hfin; done);
    try (destruct sx, sy; apply same_side_exact);
    try apply same_side_exact.
  - simpl. rewrite Z.add_0_r. apply same_side_exact.
  - simpl in Hx, Hy. unfold SFadd in *. set (ez := Z.min ex ey) in *.
    pose proof (binary_normalize_between
      (cond_Zopp sx (Z.pos (shl_align mx ex ez).1)
       + cond_Zopp sy (Z.pos (shl_align my ey ez).1)) ez f emin false
      Hprec ltac:(lia) ltac:(lia) Hcan Hfin) as H.
    rewrite Z.mul_add_distr_r, !shl_align_units in H by lia. done.
Qed.

(** The product of two numbers, rounded, does not cross a number of the
    format. *)
Lemma SFmul_between x y f e0 :
  0 < prec → e0 ≤ emin → canonical prec emax f →
  match x, y with
  | S754_finite sx mx ex, S754_finite sy my ey =>
      e0 ≤ ex + ey →
      finite_SF (SFmul prec emax x y) = true →
      same_side (scaled e0 f)
                (cond_Zopp (xorb sx sy) (Z.pos (mx * my)) * 2 ^ (ex + ey - e0))
                (scaled e0 (SFmul prec emax x y))
  | _, _ => True
  end.
Proof.
  intros Hprec He0 Hcan. destruct x as [| | |sx mx ex], y as [| | |sy my ey]; try done.
  intros He Hfin. by apply round_aux_between_signed.
Qed.

(** Twice a number of the format is one, the bound on the exponent apart. *)
Lemma double_canonical x :
  0 < prec → canonical prec emax x →
  ∃ f, canonical prec emax f ∧ units prec emax f = 2 * units prec emax x.
Proof.
  intros Hprec Hcan. destruct x as [s| | |s m e]; simpl in Hcan; try done.
  { exists (S754_zero s). done. }
  destruct (decide (Z.pos (digits2_pos m) = prec)) as [Hd|Hd].
  - exists (S754_finite s m (e + 1)). split.
    + simpl. unfold fexp in *. lia.
    + simpl. replace (e + 1 - emin) with ((e - emin) + 1) by lia.
      rewrite pow2_succ by (unfold fexp in Hcan; lia). lia.
  - exists (S754_finite s (m~0) e). split.
    + simpl. unfold fexp in *. lia.
    + simpl. destruct s; simpl; lia.
Qed.

End Rounding.

(** ** Sums and differences of doubles *)

Section Binary64.

Variable NGHOST : Z.

Implicit Types (σ : gmap positive (list float)) (xf xv dxv : positive)
  (x y : float) (i s e lo hi : Z).

#[local] Open Scope Q_scope.

Lemma SF2Q_units (r : spec_float) :
  above_emin prec emax r →
  SF2Q r == inject_Z (units prec emax r) * 2 ^ FloatOps.emin.
Proof.
  destruct r as [| | |sg m e]; unfold SF2Q, units, above_emin; intros He;
    try (by rewrite Qmult_0_l).
  assert (Hp : 2 ^ e == 2 ^ (e - FloatOps.emin) * 2 ^ FloatOps.emin).
  { rewrite <- Qpower_plus by done.
    by replace (e - FloatOps.emin + FloatOps.emin)%Z with e by lia. }
  rewrite inject_Z_mult, Zpower_Qpower, Hp by lia.
  change (inject_Z 2) with 2.
  generalize (2 ^ (e - FloatOps.emin)) (2 ^ FloatOps.emin). intros a b. ring.
Qed.

Lemma unit_roundoff_prec : unit_roundoff * inject_Z (2 ^ prec) == 1.
Proof. reflexivity. Qed.

Lemma unit_roundoff_pos : 0 < unit_roundoff.
Proof. reflexivity. Qed.

Lemma least_double_pos : 0 < 2 ^ FloatOps.emin.
Proof. reflexivity. Qed.

Lemma inject_Z_sub (a b : Z) : inject_Z (a - b) == inject_Z a - inject_Z b.
Proof. unfold Z.sub. rewrite inject_Z_plus, inject_Z_opp. ring. Qed.

Lemma rounds_to_Q (r : spec_float) (v : Z) :
  rounds_to prec emax r v →
  Qabs (SF2Q r - inject_Z v * 2 ^ FloatOps.emin)
  <= unit_roundoff * Qabs (inject_Z v * 2 ^ FloatOps.emin).
Proof.
  intros [He Hr]. rewrite (SF2Q_units r He).
  pose proof least_double_pos as Hc. set (c := 2 ^ FloatOps.emin) in *.
  assert (E : inject_Z (units prec emax r) * c - inject_Z v * c
              == inject_Z (units prec emax r - v) * c)
    by (rewrite inject_Z_sub; ring).
  rewrite E, !Qabs_Qmult, (Qabs_pos c) by lra.
  change (Qabs (inject_Z ?z)) with (inject_Z (Z.abs z)).
  rewrite Zle_Qle, inject_Z_mult in Hr.
  pose proof unit_roundoff_prec as He1.
  set (A := inject_Z (Z.abs (units prec emax r - v))) in *.
  set (V := inject_Z (Z.abs v)) in *.
  set (N := inject_Z (2 ^ prec)) in *.
  assert (HA : A <= unit_roundoff * V).
  { assert (E2 : A == unit_roundoff * (N * A)) by (rewrite Qmult_assoc, He1; ring).
    rewrite E2. apply Qmult_le_l; [reflexivity | done]. }
  rewrite Qmult_assoc. apply Qmult_le_compat_r; lra.
Qed.

(** [x + y] in binary64: if it is a number, so are [x] and [y], and it is
    their sum up to a relative error of [2^-53]. *)
Lemma add_error x y :
  finite_float (x + y) = true →
  finite_float x = true ∧ finite_float y = true ∧
  Qabs (B2Q (x + y) - (B2Q x + B2Q y)) <= unit_roundoff * Qabs (B2Q x + B2Q y).
Proof.
  unfold finite_float, B2Q. rewrite add_spec. intros Hfin.
  pose proof (valid_above_emin _ _ _ (Prim2SF_valid x)) as Hx.
  pose proof (valid_above_emin _ _ _ (Prim2SF_valid y)) as Hy.
  destruct (SFadd_units prec emax _ _ ltac:(done) Hx Hy Hfin) as (Fx & Fy & Hr).
  do 2 (split; [done|]). apply rounds_to_Q in Hr.
  assert (E : inject_Z (units prec emax (Prim2SF x) + units prec emax (Prim2SF y))
              * 2 ^ FloatOps.emin
              == SF2Q (Prim2SF x) + SF2Q (Prim2SF y)).
  { rewrite (SF2Q_units _ Hx), (SF2Q_units _ Hy), inject_Z_plus.
    generalize (2 ^ FloatOps.emin). intros c. ring. }
  by rewrite E in Hr.
Qed.

(** [x - y] in binary64, likewise. *)
Lemma sub_error x y :
  finite_float (x - y) = true →
  finite_float x = true ∧ finite_float y = true ∧
  Qabs (B2Q (x - y) - (B2Q x - B2Q y)) <= unit_roundoff * Qabs (B2Q x - B2Q y).
Proof.
  unfold finite_float, B2Q. rewrite sub_spec. intros Hfin.
  pose proof (valid_above_emin _ _ _ (Prim2SF_valid x)) as Hx.
  pose proof (valid_above_emin _ _ _ (Prim2SF_valid y)) as Hy.
  destruct (SFsub_units prec emax _ _ ltac:(done) Hx Hy Hfin) as (Fx & Fy & Hr).
  do 2 (split; [done|]). apply rounds_to_Q in Hr.
  assert (E : inject_Z (units prec emax (Prim2SF x) - units prec emax (Prim2SF y))
              * 2 ^ FloatOps.emin
              == SF2Q (Prim2SF x) - SF2Q (Prim2SF y)).
  { rewrite (SF2Q_units _ Hx), (SF2Q_units _ Hy), inject_Z_sub.
    generalize (2 ^ FloatOps.emin). intros c. ring. }
  by rewrite E in Hr.
Qed.


(** ** Running sums of spacings *)

Lemma tolerance_S (n : nat) :
  tolerance (S n) == (1 + tolerance n) * (1 + unit_roundoff) - 1.
Proof.
  unfold tolerance. rewrite Nat2Z.inj_succ, <- Z.add_1_r, Qpower_plus by done.
  change ((1 + unit_roundoff) ^ 1) with (1 + unit_roundoff).
  generalize ((1 + unit_roundoff) ^ Z.of_nat n). intros p. ring.
Qed.

Lemma tolerance_nonneg (n : nat) : 0 <= tolerance n.
Proof.
  induction n as [|n IH]; [done|]. rewrite tolerance_S.
  pose proof unit_roundoff_pos.
  assert (0 <= tolerance n * unit_roundoff) by (apply Qmult_le_0_compat; lra).
  lra.
Qed.






(** ** Products in binary64 *)

Lemma pow2_Q_pos (e : Z) : 0 < 2 ^ e.
Proof. by apply Qpower_0_lt. Qed.

Lemma pow2_Q_split (e ez : Z) : 2 ^ e == 2 ^ (e - ez) * 2 ^ ez.
Proof. rewrite <- Qpower_plus by done. by replace (e - ez + ez)%Z with e by lia. Qed.

(** From a bound on integers to a bound on rationals, at any scale [c]. *)
Lemma scaled_bound (A V : Z) (c : Q) :
  (2 ^ prec * A ≤ V)%Z → 0 <= c →
  inject_Z A * c <= unit_roundoff * (inject_Z V * c).
Proof.
  intros H Hc. rewrite Zle_Qle, inject_Z_mult in H.
  pose proof unit_roundoff_prec as He1.
  set (N := inject_Z (2 ^ prec)) in *.
  assert (HA : inject_Z A <= unit_roundoff * inject_Z V).
  { assert (E2 : inject_Z A == unit_roundoff * (N * inject_Z A))
      by (rewrite Qmult_assoc, He1; ring).
    rewrite E2. apply Qmult_le_l; [reflexivity | done]. }
  rewrite Qmult_assoc. by apply Qmult_le_compat_r.
Qed.

Lemma SF2Q_finite_bound (sg : bool) (m : positive) (e ez M : Z) :
  (ez ≤ e)%Z → (0 ≤ M)%Z →
  (2 ^ prec * Z.abs (Z.pos m * 2 ^ (e - ez) - M) ≤ M)%Z →
  Qabs (SF2Q (S754_finite sg m e) - inject_Z (cond_Zopp sg M) * 2 ^ ez)
  <= unit_roundoff * Qabs (inject_Z (cond_Zopp sg M) * 2 ^ ez).
Proof.
  intros He HM Hr. unfold SF2Q. pose proof (pow2_Q_pos ez) as Hc.
  assert (Hs : 2 ^ e == inject_Z (2 ^ (e - ez)) * 2 ^ ez)
    by (rewrite Zpower_Qpower by lia; apply pow2_Q_split).
  rewrite Hs. set (c := 2 ^ ez) in *.
  assert (E : inject_Z (cond_Zopp sg (Z.pos m)) * (inject_Z (2 ^ (e - ez)) * c)
                - inject_Z (cond_Zopp sg M) * c
              == inject_Z (cond_Zopp sg (Z.pos m * 2 ^ (e - ez) - M)) * c).
  { destruct sg; simpl cond_Zopp;
      rewrite ?inject_Z_opp, ?inject_Z_sub, ?inject_Z_mult; ring. }
  rewrite E, !Qabs_Qmult, (Qabs_pos c) by lra.
  change (Qabs (inject_Z ?z)) with (inject_Z (Z.abs z)).
  assert (Habs : ∀ z, Z.abs (cond_Zopp sg z) = Z.abs z) by (destruct sg; simpl; lia).
  rewrite !Habs, (Z.abs_eq M) by done.
  apply scaled_bound; [done | lra].
Qed.

(** A product that is a number comes from numbers. *)
Lemma mul_finite x y :
  finite_float (x * y) = true → finite_float x = true ∧ finite_float y = true.
Proof.
  unfold finite_float. rewrite mul_spec.
  destruct (Prim2SF x) as [sx|sx| |sx mx ex], (Prim2SF y) as [sy|sy| |sy my ey];
    simpl; intros; by split.
Qed.

(** [x * y] in binary64: when it is a number, and the exact product is not
    so small that it underflows, it is the product up to a relative error
    of [2^-53]. *)
Lemma mul_error x y :
  finite_float (x * y) = true →
  zero_or_at_least (-1022) (B2Q x * B2Q y) →
  Qabs (B2Q (x * y) - B2Q x * B2Q y) <= unit_roundoff * Qabs (B2Q x * B2Q y).
Proof.
  unfold finite_float, B2Q. rewrite mul_spec. intros Hfin Hrange.
  assert (Hzero : ∀ q r, q == 0 → r == 0 → Qabs (r - q) <= unit_roundoff * Qabs q).
  { intros q r -> ->. done. }
  destruct (Prim2SF x) as [sx|sx| |sx mx ex], (Prim2SF y) as [sy|sy| |sy my ey];
    try (simpl in Hfin; done);
    try (apply Hzero; [unfold SF2Q; ring | done]).
  assert (E : SF2Q (S754_finite sx mx ex) * SF2Q (S754_finite sy my ey)
              == inject_Z (cond_Zopp (xorb sx sy) (Z.pos (mx * my))) * 2 ^ (ex + ey)).
  { unfold SF2Q. rewrite Qpower_plus by done.
    generalize (2 ^ ex) (2 ^ ey). intros a b.
    destruct sx, sy; simpl cond_Zopp;
      rewrite ?Pos2Z.inj_mul, ?inject_Z_opp, ?inject_Z_mult; ring. }
  unfold zero_or_at_least in Hrange. rewrite E in Hrange. rewrite E. clear E.
  pose proof (pow2_Q_pos (ex + ey)) as Hc.
  pose proof (digits2_bounds (mx * my)) as [_ Hd].
  set (M := Z.pos (mx * my)) in *. set (d := Z.pos (digits2_pos (mx * my))) in *.
  set (ez := (ex + ey)%Z) in *.
  assert (Habs : Qabs (inject_Z (cond_Zopp (xorb sx sy) M) * 2 ^ ez)
                 == inject_Z M * 2 ^ ez).
  { rewrite Qabs_Qmult, (Qabs_pos (2 ^ ez)) by lra.
    change (Qabs (inject_Z ?z)) with (inject_Z (Z.abs z)).
    replace (Z.abs (cond_Zopp (xorb sx sy) M)) with M; [done|].
    destruct (xorb sx sy); simpl; lia. }
  assert (Hexp : (-1022 < d + ez)%Z).
  { destruct Hrange as [H0|Hge].
    - assert (Qabs (inject_Z (cond_Zopp (xorb sx sy) M) * 2 ^ ez) == 0)
        by (by rewrite H0).
      rewrite Habs in *.
      assert (0 < inject_Z M * 2 ^ ez).
      { apply Qmult_lt_0_compat; [|done].
        change 0 with (inject_Z 0). rewrite <- Zlt_Qlt. unfold M. lia. }
      lra.
    - rewrite Habs in Hge.
      assert (Hlt : inject_Z M * 2 ^ ez < 2 ^ (d + ez)).
      { assert (Hs : 2 ^ (d + ez) == inject_Z (2 ^ d) * 2 ^ ez)
          by (rewrite Zpower_Qpower by (unfold d; lia); by apply Qpower_plus).
        rewrite Hs. apply Qmult_lt_compat_r; [done|]. by rewrite <- Zlt_Qlt. }
      apply (Qpower_lt_compat_l_inv 2); [|done]. lra. }
  unfold SF64mul, SFmul in *. fold ez M in Hfin |- *.
  destruct (binary_round_aux_value prec emax (xorb sx sy) (mx * my) ez ltac:(done))
    as [Hinf|(m & e & Hr & Hee & _ & Herr)].
  { fold d. unfold SpecFloat.emin, prec, emax. lia. }
  { fold M in Hinf. rewrite Hinf in Hfin. done. }
  fold M in Hr, Herr. rewrite Hr. apply SF2Q_finite_bound; (done || lia).
Qed.

(** Two roundings in a row: [y] is [x] up to [g], [z] is [y] rounded. *)
Lemma compose_error (x y z g : Q) :
  0 <= g →
  Qabs (y - x) <= g * Qabs x →
  Qabs (z - y) <= unit_roundoff * Qabs y →
  Qabs (z - x) <= ((1 + g) * (1 + unit_roundoff) - 1) * Qabs x.
Proof.
  intros Hg Hy Hz. pose proof unit_roundoff_pos as He. set (u := unit_roundoff) in *.
  pose proof (Qabs_nonneg x) as HX. set (X := Qabs x) in *.
  assert (HY : Qabs y <= X + g * X).
  { apply Qabs_Qle_condition in Hy. assert (Hx : Qabs x <= X) by (unfold X; lra).
    apply Qabs_Qle_condition in Hx. apply Qabs_Qle_condition. lra. }
  set (Y := Qabs y) in *.
  assert (HuY : u * Y <= u * (X + g * X)) by (apply Qmult_le_l; lra).
  apply Qabs_Qle_condition in Hy, Hz. apply Qabs_Qle_condition.
  set (gX := g * X) in *.
  assert (E : ((1 + g) * (1 + u) - 1) * X == gX + u * X + u * gX) by (unfold gX; ring).
  assert (E2 : u * (X + gX) == u * X + u * gX) by ring.
  rewrite E. lra.
Qed.

(** ** Centers and spacings in binary64 *)

Lemma tolerance_1 : tolerance 1 == unit_roundoff.
Proof. reflexivity. Qed.

Lemma half_value : B2Q 0.5 == 1 # 2.
Proof. vm_compute. reflexivity. Qed.

(** The center [0.5 * (a + b)] of a cell with faces [a] and [b]: the
    midpoint, up to two roundings. *)
Lemma center_error (a b : float) :
  finite_float (0.5 * (a + b)) = true →
  zero_or_at_least (-1020) (B2Q a + B2Q b) →
  finite_float a = true ∧ finite_float b = true ∧
  Qabs (B2Q (0.5 * (a + b)) - (1 # 2) * (B2Q a + B2Q b))
  <= tolerance 2 * Qabs ((1 # 2) * (B2Q a + B2Q b)).
Proof.
  intros Hfin Hrange. pose proof (mul_finite _ _ Hfin) as [_ Fs].
  destruct (add_error _ _ Fs) as (Fa & Fb & Hadd). do 2 (split; [done|]).
  pose proof unit_roundoff_pos as Hu.
  assert (Hu2 : unit_roundoff <= 1 # 2) by done.
  set (q := B2Q a + B2Q b) in *. set (s := B2Q (a + b)) in *.
  assert (Hs : zero_or_at_least (-1022) (B2Q 0.5 * s)).
  { unfold zero_or_at_least. rewrite half_value. destruct Hrange as [H0|Hge]; [left|right].
    - rewrite H0 in Hadd. change (Qabs 0) with 0 in Hadd.
      apply Qabs_Qle_condition in Hadd. lra.
    - assert (E : 2 ^ (-1020) == 4 * 2 ^ (-1022)) by (apply (pow2_Q_split (-1020) (-1022))).
      pose proof (pow2_Q_pos (-1022)) as Hc. rewrite E in Hge.
      set (c := 2 ^ (-1022)) in *.
      rewrite Qabs_Qmult, (Qabs_pos (1 # 2)) by done.
      pose proof (Qabs_triangle_reverse q (q - s)) as Htri.
      assert (E2 : q - (q - s) == s) by ring. rewrite E2 in Htri.
      rewrite Qabs_Qminus in Hadd.
      assert (unit_roundoff * Qabs q <= (1 # 2) * Qabs q)
        by (apply Qmult_le_compat_r; [done | apply Qabs_nonneg]).
      lra. }
  pose proof (mul_error _ _ Hfin Hs) as Hmul. rewrite half_value in Hmul.
  assert (E : tolerance 2 == (1 + unit_roundoff) * (1 + unit_roundoff) - 1)
    by (by rewrite tolerance_S, tolerance_1).
  rewrite E. apply (compose_error _ ((1 # 2) * s)); [lra| |done].
  assert (E2 : (1 # 2) * s - (1 # 2) * q == (1 # 2) * (s - q)) by ring.
  rewrite E2, !Qabs_Qmult, (Qabs_pos (1 # 2)) by done.
  set (A := Qabs (s - q)) in *. set (B := Qabs q) in *.
  assert (E3 : unit_roundoff * ((1 # 2) * B) == (1 # 2) * (unit_roundoff * B)) by ring.
  rewrite E3. apply Qmult_le_l; done.
Qed.

(** The difference [d] of two centers [ca] and [cb], each within [g] of its
    midpoint [ha], [hb]. *)
Lemma spacing_step (ha hb ca cb d g : Q) :
  0 <= g →
  Qabs (ca - ha) <= g * Qabs ha →
  Qabs (cb - hb) <= g * Qabs hb →
  Qabs (d - (cb - ca)) <= unit_roundoff * Qabs (cb - ca) →
  Qabs (d - (hb - ha)) <= ((1 + g) * (1 + unit_roundoff) - 1) * (Qabs ha + Qabs hb).
Proof.
  intros Hg Ha Hb Hd. pose proof unit_roundoff_pos as He. set (u := unit_roundoff) in *.
  pose proof (Qabs_nonneg ha) as HA. pose proof (Qabs_nonneg hb) as HB.
  set (A := Qabs ha) in *. set (B := Qabs hb) in *.
  assert (HW : Qabs (cb - ca) <= A + g * A + B + g * B).
  { apply Qabs_Qle_condition in Ha, Hb.
    assert (Ha' : Qabs ha <= A) by (unfold A; lra).
    assert (Hb' : Qabs hb <= B) by (unfold B; lra).
    apply Qabs_Qle_condition in Ha', Hb'. apply Qabs_Qle_condition. lra. }
  set (W := Qabs (cb - ca)) in *.
  assert (HuW : u * W <= u * (A + g * A + B + g * B)) by (apply Qmult_le_l; lra).
  apply Qabs_Qle_condition in Ha, Hb, Hd. apply Qabs_Qle_condition.
  set (gA := g * A) in *. set (gB := g * B) in *.
  assert (E : ((1 + g) * (1 + u) - 1) * (A + B)
              == gA + gB + u * A + u * B + u * gA + u * gB) by (unfold gA, gB; ring).
  assert (E2 : u * (A + gA + B + gB) == u * A + u * gA + u * B + u * gB) by ring.
  rewrite E. lra.
Qed.

(** What the two loops of an extended direction make of the widths. *)
Lemma extended_mean_width σ σ' xf xv dxv lo hi :
  extended_post σ σ' xf xv dxv lo hi →
  ∀ i, (lo ≤ i ≤ hi - 1)%Z → mean_width_within_tolerance σ' xf dxv i.
Proof.
  intros (Hc & Hs & _ & _) i Hi.
  destruct (Hs i Hi) as (u & w & Hu & Hw & Hd).
  destruct (Hc i) as (a & b & Ha & Hb & Hv); [lia|].
  destruct (Hc (i + 1)%Z) as (b1 & c & Hb1 & Hc1 & Hv1); [lia|].
  replace (i + 1 + 1)%Z with (i + 2)%Z in Hc1 by lia.
  assert (b1 = b) as -> by congruence.
  assert (u = (0.5 * (a + b))%float) as -> by (rewrite Hu in Hv; by injection Hv).
  assert (w = (0.5 * (b + c))%float) as -> by (rewrite Hw in Hv1; by injection Hv1).
  exists a, b, c, (0.5 * (b + c) - 0.5 * (a + b))%float.
  do 3 (split; [done|]). split; [exact Hd|].
  intros Hfin Hab Hbc. apply sub_error in Hfin as (Fw & Fu & Hsub).
  destruct (center_error _ _ Fu Hab) as (Fa & Fb & Hca).
  destruct (center_error _ _ Fw Hbc) as (_ & Fc & Hcb).
  do 3 (split; [done|]).
  assert (E : (1 # 2) * ((B2Q b - B2Q a) + (B2Q c - B2Q b))
              == (1 # 2) * (B2Q b + B2Q c) - (1 # 2) * (B2Q a + B2Q b)) by ring.
  assert (E2 : (1 # 2) * (Qabs (B2Q a + B2Q b) + Qabs (B2Q b + B2Q c))
               == Qabs ((1 # 2) * (B2Q a + B2Q b)) + Qabs ((1 # 2) * (B2Q b + B2Q c))).
  { rewrite !Qabs_Qmult, (Qabs_pos (1 # 2)) by done. ring. }
  assert (E3 : tolerance 3 == (1 + tolerance 2) * (1 + unit_roundoff) - 1)
    by apply tolerance_S.
  rewrite E, E2, E3.
  apply (spacing_step _ _ (B2Q (0.5 * (a + b))) (B2Q (0.5 * (b + c))));
    first [done | apply tolerance_nonneg].
Qed.

(** In binary64 every spacing the constructor writes in an extended
    direction is the mean of the widths of the two cells whose centers it
    separates, [0.5 * ((x#f(i+1) - x#f(i)) + (x#f(i+2) - x#f(i+1)))], up to
    the rounding of the three operations behind it: whenever the spacing is
    a number and no face sum underflows, it is within [(1 + 2^-53)^3 - 1] of
    that mean, relative to the magnitudes of the two midpoints. *)
Theorem ctor_spacing_near_mean_width σ pb :
  ctor_pre NGHOST σ pb →
  ∃ co σ', Coordinates_ctor NGHOST pb σ = Some (co, σ') ∧
    (∀ i, (is_ pb - NGHOST ≤ i ≤ ie pb + NGHOST - 1)%Z →
          mean_width_within_tolerance σ' (x1f pb) (dx1v pb) i) ∧
    (nx2 (block_size pb) ≠ 1%Z →
     ∀ j, (js pb - NGHOST ≤ j ≤ je pb + NGHOST - 1)%Z →
          mean_width_within_tolerance σ' (x2f pb) (dx2v pb) j) ∧
    (nx3 (block_size pb) ≠ 1%Z →
     ∀ k, (ks pb - NGHOST ≤ k ≤ ke pb + NGHOST - 1)%Z →
          mean_width_within_tolerance σ' (x3f pb) (dx3v pb) k).
Proof.
  intros Hpre.
  destruct (Coordinates_ctor_spec NGHOST σ pb Hpre)
    as (co & σ' & Hrun & _ & _ & _ & _ & _ & _ & _ & _ & P1 & P2 & P3).
  exists co, σ'. split; [done|]. split; [|split].
  - by apply (extended_mean_width σ σ' (x1f pb) (x1v pb)).
  - intros Hnx. unfold axis_post in P2. rewrite decide_False in P2 by done.
    by apply (extended_mean_width σ σ' (x2f pb) (x2v pb)).
  - intros Hnx. unfold axis_post in P3. rewrite decide_False in P3 by done.
    by apply (extended_mean_width σ σ' (x3f pb) (x3v pb)).
Qed.

(** ** Volumes and areas in binary64 *)

Lemma zero_or_at_least_weaken (e e' : Z) (q : Q) :
  (e ≤ e')%Z → zero_or_at_least e' q → zero_or_at_least e q.
Proof.
  intros He [H0|Hge]; [by left|right].
  apply Qle_trans with (2 ^ e'); [|done]. by apply Qpower_le_compat_l.
Qed.

(** A rounded number keeps clear of underflow if the exact one does. *)
Lemma rounded_range (q s : Q) :
  Qabs (s - q) <= unit_roundoff * Qabs q →
  zero_or_at_least (-1020) q → zero_or_at_least (-1021) s.
Proof.
  intros Hs [H0|Hge]; [left|right].
  - rewrite H0 in Hs. change (Qabs 0) with 0 in Hs.
    apply Qabs_Qle_condition in Hs. lra.
  - assert (E : 2 ^ (-1020) == 2 * 2 ^ (-1021)) by (apply (pow2_Q_split (-1020) (-1021))).
    pose proof (pow2_Q_pos (-1021)) as Hc. rewrite E in Hge.
    set (c := 2 ^ (-1021)) in *.
    pose proof (Qabs_triangle_reverse q (q - s)) as Htri.
    assert (E2 : q - (q - s) == s) by ring. rewrite E2 in Htri.
    rewrite Qabs_Qminus in Hs.
    assert (Hu2 : unit_roundoff <= 1 # 2) by done.
    assert (unit_roundoff * Qabs q <= (1 # 2) * Qabs q)
      by (apply Qmult_le_compat_r; [done | apply Qabs_nonneg]).
    lra.
Qed.

(** An error relative to [q] is as much relative to [q * x]. *)
Lemma scale_error (a q x g : Q) :
  Qabs (a - q) <= g * Qabs q → Qabs (a * x - q * x) <= g * Qabs (q * x).
Proof.
  intros H. assert (E : a * x - q * x == (a - q) * x) by ring.
  rewrite E, !Qabs_Qmult, Qmult_assoc.
  apply Qmult_le_compat_r; [done | apply Qabs_nonneg].
Qed.

(** The volume [(dx * dy) * dz] against the area [dy * dz] times [dx], and
    against the area [dx * dz] times [dy]. *)
Lemma volume_error (dx dy dz : float) :
  volume_within_tolerance dx dy dz (dy * dz) (dx * dz) (dx * dy * dz).
Proof.
  intros Fv Fa1 Fa2 (Rxy & Ryz & Rxz & Rp).
  pose proof unit_roundoff_pos as Hu.
  destruct (mul_finite _ _ Fv) as [Fxy Fz].
  pose proof (mul_error _ _ Fxy (zero_or_at_least_weaken (-1022)%Z (-1020)%Z _ ltac:(lia) Rxy)) as Hxy.
  pose proof (mul_error _ _ Fa1 (zero_or_at_least_weaken (-1022)%Z (-1020)%Z _ ltac:(lia) Ryz)) as Hyz.
  pose proof (mul_error _ _ Fa2 (zero_or_at_least_weaken (-1022)%Z (-1020)%Z _ ltac:(lia) Rxz)) as Hxz.
  set (X := B2Q dx) in *. set (Y := B2Q dy) in *. set (Z := B2Q dz) in *.
  set (P := X * Y * Z) in *.
  pose proof (scale_error _ _ Z _ Hxy) as Hp. fold P in Hp.
  assert (Rv : zero_or_at_least (-1022) (B2Q (dx * dy) * Z)).
  { apply (zero_or_at_least_weaken _ (-1021)); [lia|]. by apply (rounded_range P). }
  pose proof (mul_error _ _ Fv Rv) as Hv. fold Z in Hv.
  pose proof (compose_error P _ _ unit_roundoff ltac:(lra) Hp Hv) as Hvol.
  assert (E2 : (1 + unit_roundoff) * (1 + unit_roundoff) - 1 == tolerance 2)
    by (by rewrite tolerance_S, tolerance_1).
  rewrite E2 in Hvol.
  assert (E3 : tolerance 3 == (1 + tolerance 2) * (1 + unit_roundoff) - 1)
    by apply tolerance_S.
  pose proof (tolerance_nonneg 2) as Ht.
  pose proof (Qabs_nonneg P) as HP.
  assert (Hsum : (tolerance 2 + unit_roundoff) * Qabs P <= tolerance 3 * Qabs P).
  { apply Qmult_le_compat_r; [|done]. rewrite E3.
    assert (0 <= tolerance 2 * unit_roundoff) by (apply Qmult_le_0_compat; lra).
    lra. }
  assert (Hclose : ∀ w, Qabs (w - P) <= unit_roundoff * Qabs P →
                        Qabs (B2Q (dx * dy * dz) - w) <= tolerance 3 * Qabs P).
  { intros w Hw. apply Qle_trans with ((tolerance 2 + unit_roundoff) * Qabs P); [|done].
    apply Qabs_Qle_condition in Hvol, Hw. apply Qabs_Qle_condition.
    set (V := B2Q (dx * dy * dz)) in *. set (A := Qabs P) in *.
    set (tA := tolerance 2 * A) in *. set (uA := unit_roundoff * A) in *.
    assert (E : (tolerance 2 + unit_roundoff) * A == tA + uA) by (unfold tA, uA; ring).
    rewrite E. lra. }
  split; apply Hclose.
  - pose proof (scale_error _ _ X _ Hyz) as H.
    assert (E : Y * Z * X == P) by (unfold P; ring). by rewrite E in H.
  - pose proof (scale_error _ _ Y _ Hxz) as H.
    assert (E : X * Z * Y == P) by (unfold P; ring). by rewrite E in H.
Qed.

(** In binary64 the volume of a cell is the area of its face orthogonal to
    direction 1 times [dx1f(i)], and the area of its face orthogonal to
    direction 2 times [dx2f(j)], up to the rounding of three
    multiplications: whenever the volume and the two areas are numbers and
    no product of the spacings underflows, the volume [CellVolume] writes
    is within [(1 + 2^-53)^3 - 1] of either product, relative to the exact
    product of the three spacings. *)
Theorem CellVolume_near_area_times_spacing σ co k j il iu areas volumes :
  query_pre σ co k j il iu areas →
  query_pre σ co k j il iu volumes →
  separate co areas →
  separate co volumes →
  ∃ σ1 σ2 σv dy dz,
    load σ (dx2f (pparent_block co)) j = Some dy ∧
    load σ (dx3f (pparent_block co)) k = Some dz ∧
    Area1Face co k j il iu areas σ = Some ((), σ1) ∧
    Area2Face co k j il iu areas σ = Some ((), σ2) ∧
    CellVolume co k j il iu volumes σ = Some ((), σv) ∧
    ∀ i, (il ≤ i ≤ iu)%Z →
      ∃ dx a1 a2 vol,
        load σ (dx1f (pparent_block co)) i = Some dx ∧
        load σ1 areas i = Some a1 ∧ load σ2 areas i = Some a2 ∧
        load σv volumes i = Some vol ∧
        volume_within_tolerance dx dy dz a1 a2 vol.
Proof.
  intros Hpa Hpv Hsa Hsv.
  destruct (query_pre_loads _ _ _ _ _ _ _ Hpa) as ([dy Hy] & [dz Hz] & Hx).
  destruct (Area1Face_spec σ co k j il iu areas Hpa) as (σ1 & Hr1 & _ & Hv1).
  destruct (Area2Face_spec σ co k j il iu areas Hpa) as (σ2 & Hr2 & _ & Hv2).
  destruct (CellVolume_spec σ co k j il iu volumes Hpv) as (σv & Hrv & _ & Hvv).
  exists σ1, σ2, σv, dy, dz. do 5 (split; [done|]).
  intros i Hi. destruct (Hx i Hi) as [dx Hdx].
  exists dx, (dy * dz)%float, (dx * dz)%float, (dx * dy * dz)%float.
  rewrite (Hv1 Hsa i Hi), (Hv2 Hsa i Hi), (Hvv Hsv i Hi), Hdx, Hy, Hz.
  do 4 (split; [done|]). apply volume_error.
Qed.

(** ** Centers within their cells in binary64 *)

Lemma SF2Q_le (x y : spec_float) :
  above_emin prec emax x → above_emin prec emax y →
  SF2Q x <= SF2Q y ↔ (units prec emax x ≤ units prec emax y)%Z.
Proof.
  intros Hx Hy. rewrite (SF2Q_units x Hx), (SF2Q_units y Hy).
  rewrite Qmult_le_r by apply pow2_Q_pos. by rewrite <- Zle_Qle.
Qed.

Lemma scaled_units (x : spec_float) :
  above_emin prec emax x →
  scaled (FloatOps.emin - prec) x = (units prec emax x * 2 ^ prec)%Z.
Proof.
  destruct x as [| | |s m e]; simpl; try done. intros He.
  replace (e - (FloatOps.emin - prec))%Z with ((e - FloatOps.emin) + prec)%Z by lia.
  rewrite pow2_split by (done || lia). lia.
Qed.

Lemma half_SF : Prim2SF 0.5 = S754_finite false 4503599627370496 (-53).
Proof. vm_compute. reflexivity. Qed.

(** Halving in binary64 does not cross a double: [0.5 * s] is on the same
    side of a double [f] as [s] is of [2 * f]. *)
Lemma half_between (s f : float) :
  finite_float (0.5 * s) = true → finite_float f = true →
  same_side (2 * units prec emax (Prim2SF f)) (units prec emax (Prim2SF s))
            (2 * units prec emax (Prim2SF (0.5 * s))).
Proof.
  unfold finite_float. rewrite mul_spec, half_SF. intros Hfin Ff.
  pose proof (valid_above_emin _ _ _ (Prim2SF_valid s)) as Hs.
  pose proof (valid_above_emin _ _ _ (Prim2SF_valid f)) as Hf.
  pose proof (valid_canonical _ _ _ (Prim2SF_valid f) Ff) as Hcan.
  pose proof (Prim2SF_valid (0.5 * s)) as Hc. rewrite mul_spec, half_SF in Hc.
  apply valid_above_emin in Hc.
  unfold SF64mul in *.
  destruct (Prim2SF s) as [ss|ss| |ss ms es]; try (simpl in Hfin; done).
  simpl in Hs.
  pose proof (SFmul_between prec emax (S754_finite false 4503599627370496 (-53))
                (S754_finite ss ms es) (Prim2SF f) (FloatOps.emin - prec)
                ltac:(done) ltac:(done) Hcan) as H.
  simpl xorb in H.
  specialize (H ltac:(unfold SpecFloat.emin, prec, emax in *; lia) Hfin).
  change (xorb false ss) with ss in H. rewrite !scaled_units in H by done.
  set (C := units prec emax (SFmul prec emax _ _)) in *.
  set (F := units prec emax (Prim2SF f)) in *.
  assert (E : (cond_Zopp ss (Z.pos (4503599627370496 * ms))
               * 2 ^ (-53 + es - (FloatOps.emin - prec)))%Z
              = (units prec emax (S754_finite ss ms es) * 2 ^ 52)%Z).
  { simpl units. replace (-53 + es - (FloatOps.emin - prec))%Z with (es - FloatOps.emin)%Z
      by (unfold prec; lia).
    rewrite Pos2Z.inj_mul. destruct ss; simpl cond_Zopp; lia. }
  rewrite E in H. clear E.
  set (S := units prec emax (S754_finite ss ms es)) in *.
  unfold same_side in *. change (2 ^ prec)%Z with 9007199254740992%Z in H.
  change (2 ^ 52)%Z with 4503599627370496%Z in H. lia.
Qed.

(** The center [0.5 * (a + b)] of a cell with faces [a <= b] lies in the
    cell. *)
Lemma center_between (a b : float) :
  finite_float (0.5 * (a + b)) = true →
  B2Q a <= B2Q b →
  finite_float a = true ∧ finite_float b = true ∧
  B2Q a <= B2Q (0.5 * (a + b)) ∧ B2Q (0.5 * (a + b)) <= B2Q b.
Proof.
  intros Hfin Hab. pose proof (mul_finite _ _ Hfin) as [_ Fs].
  destruct (add_error _ _ Fs) as (Fa & Fb & _). do 2 (split; [done|]).
  pose proof (valid_above_emin _ _ _ (Prim2SF_valid a)) as Ha.
  pose proof (valid_above_emin _ _ _ (Prim2SF_valid b)) as Hb.
  pose proof (valid_above_emin _ _ _ (Prim2SF_valid (0.5 * (a + b)))) as Hc.
  unfold B2Q in *. rewrite !SF2Q_le in * by done.
  destruct (double_canonical prec emax (Prim2SF a) ltac:(done)
              (valid_canonical _ _ _ (Prim2SF_valid a) Fa)) as (fa & Ca & Ea).
  destruct (double_canonical prec emax (Prim2SF b) ltac:(done)
              (valid_canonical _ _ _ (Prim2SF_valid b) Fb)) as (fb & Cb & Eb).
  unfold finite_float in Fs. rewrite add_spec in Fs.
  pose proof (SFadd_between prec emax _ _ fa ltac:(done) Ha Hb Ca Fs) as [H1 _].
  pose proof (SFadd_between prec emax _ _ fb ltac:(done) Ha Hb Cb Fs) as [_ H2].
  rewrite Ea in H1. rewrite Eb in H2.
  change (SFadd prec emax (Prim2SF a) (Prim2SF b))
    with (SF64add (Prim2SF a) (Prim2SF b)) in H1, H2.
  rewrite <- add_spec in H1, H2.
  destruct (half_between (a + b) a Hfin Fa) as [H3 _].
  destruct (half_between (a + b) b Hfin Fb) as [_ H4].
  lia.
Qed.

(** A center the constructor has written lies in its cell. *)
Lemma center_at_within σ xf xv i : center_at σ xf xv i → center_within_cell σ xf xv i.
Proof.
  intros (a & b & Ha & Hb & Hc). exists a, b, (0.5 * (a + b))%float.
  do 2 (split; [done|]). split; [exact Hc|]. apply center_between.
Qed.

(** The difference of two centers on either side of a face is not
    negative. *)
Lemma spacing_at_nonnegative σ xf xv dxv i :
  center_at σ xf xv i → center_at σ xf xv (i + 1) → spacing_at σ xv dxv i →
  spacing_nonnegative σ xf dxv i.
Proof.
  intros (a & b & Ha & Hb & Hv) (b1 & c & Hb1 & Hc1 & Hv1) (u & w & Hu & Hw & Hd).
  replace (i + 1 + 1)%Z with (i + 2)%Z in Hc1 by lia.
  assert (b1 = b) as -> by congruence.
  assert (u = (0.5 * (a + b))%float) as -> by (rewrite Hu in Hv; by injection Hv).
  assert (w = (0.5 * (b + c))%float) as -> by (rewrite Hw in Hv1; by injection Hv1).
  exists a, b, c, (0.5 * (b + c) - 0.5 * (a + b))%float.
  do 3 (split; [done|]). split; [exact Hd|].
  intros Hfin Hab Hbc. apply sub_error in Hfin as (Fw & Fu & Hsub).
  destruct (center_between _ _ Fu Hab) as (_ & _ & _ & Hlow).
  destruct (center_between _ _ Fw Hbc) as (_ & _ & Hhigh & _).
  set (t := B2Q (0.5 * (b + c)) - B2Q (0.5 * (a + b))) in *.
  assert (Ht : 0 <= t) by (unfold t; lra).
  rewrite (Qabs_pos t) in Hsub by done.
  apply Qabs_Qle_condition in Hsub.
  assert (Hu1 : unit_roundoff <= 1) by done.
  assert (unit_roundoff * t <= 1 * t) by (by apply Qmult_le_compat_r).
  lra.
Qed.

Lemma extended_post_ordered σ σ' xf xv dxv lo hi :
  extended_post σ σ' xf xv dxv lo hi → extended_ordered σ' xf xv dxv lo hi.
Proof.
  intros (Hc & Hs & _ & _). split.
  - intros i Hi. by apply center_at_within, Hc.
  - intros i Hi. apply (spacing_at_nonnegative σ' xf xv); [apply Hc|apply Hc|apply Hs]; lia.
Qed.

Lemma axis_post_ordered σ σ' nx xf dxf xv dxv s e :
  axis_post NGHOST σ σ' nx xf dxf xv dxv s e →
  axis_ordered NGHOST σ' nx xf xv dxv s e.
Proof.
  unfold axis_post, axis_ordered. destruct (decide (nx = 1%Z)).
  - intros (Hc & _). by apply center_at_within.
  - apply extended_post_ordered.
Qed.

(** In binary64 every center the constructor writes lies in its cell, and
    every spacing it writes between two cells is non-negative, where the
    faces are in non-decreasing order: whenever the center [x#v(i)] is a
    number and [x#f(i) <= x#f(i+1)], then [x#f(i) <= x#v(i) <= x#f(i+1)];
    whenever the spacing [dx#v(i)] is a number and
    [x#f(i) <= x#f(i+1) <= x#f(i+2)], then [0 <= dx#v(i)].  A center can be
    a face of its cell and a spacing can be zero. *)
Theorem ctor_centers_within_cells σ pb :
  ctor_pre NGHOST σ pb →
  ∃ co σ', Coordinates_ctor NGHOST pb σ = Some (co, σ') ∧
    extended_ordered σ' (x1f pb) (x1v pb) (dx1v pb)
      (is_ pb - NGHOST) (ie pb + NGHOST) ∧
    axis_ordered NGHOST σ' (nx2 (block_size pb))
      (x2f pb) (x2v pb) (dx2v pb) (js pb) (je pb) ∧
    axis_ordered NGHOST σ' (nx3 (block_size pb))
      (x3f pb) (x3v pb) (dx3v pb) (ks pb) (ke pb).
Proof.
  intros Hpre.
  destruct (Coordinates_ctor_spec NGHOST σ pb Hpre)
    as (co & σ' & Hrun & _ & _ & _ & _ & _ & _ & _ & _ & P1 & P2 & P3).
  exists co, σ'. split; [done|]. split; [|split].
  - by apply (extended_post_ordered σ).
  - by apply (axis_post_ordered σ _ _ _ (dx2f pb)).
  - by apply (axis_post_ordered σ _ _ _ (dx3f pb)).
Qed.

(** ** The sum of the spacings *)



End Binary64.

(** * The claims on the concrete blocks *)

(** Decides a closed precondition by evaluation. *)
Ltac by_evaluation := apply (bool_decide_unpack _); vm_compute; exact I.

(** C1 on the 1-D block: the volumes of the four interior cells. *)
Lemma CellVolume_product_witness :
  query_pre heap_1d coord_1d 0 0 2 5 14 ∧ separate coord_1d 14 ∧
  ∃ σ', CellVolume coord_1d 0 0 2 5 14 heap_1d = Some ((), σ') ∧
    ∀ i, 2 ≤ i ≤ 5 →
      ∃ dx dy dz,
        load heap_1d 4 i = Some dx ∧ load heap_1d 5 0 = Some dy ∧
        load heap_1d 6 0 = Some dz ∧
        load σ' 14 i = Some (Rmul (Rmul dx dy) dz).
Proof.
  assert (Hpre : query_pre heap_1d coord_1d 0 0 2 5 14) by by_evaluation.
  assert (Hsep : separate coord_1d 14) by by_evaluation.
  split; [exact Hpre|]. split; [exact Hsep|].
  exact (CellVolume_product heap_1d coord_1d 0 0 2 5 14 Hpre Hsep).
Defined.

(** C2 on the 1-D block: the three face areas of the four interior cells. *)
Lemma face_areas_product_witness :
  query_pre heap_1d coord_1d 0 0 2 5 13 ∧ separate coord_1d 13 ∧
  ∃ dy dz,
    load heap_1d 5 0 = Some dy ∧ load heap_1d 6 0 = Some dz ∧
    (∃ σ1, Area1Face coord_1d 0 0 2 5 13 heap_1d = Some ((), σ1) ∧
       ∀ i, 2 ≤ i ≤ 5 → load σ1 13 i = Some (Rmul dy dz)) ∧
    (∃ σ2, Area2Face coord_1d 0 0 2 5 13 heap_1d = Some ((), σ2) ∧
       ∀ i, 2 ≤ i ≤ 5 →
         ∃ dx, load heap_1d 4 i = Some dx ∧ load σ2 13 i = Some (Rmul dx dz)) ∧
    (∃ σ3, Area3Face coord_1d 0 0 2 5 13 heap_1d = Some ((), σ3) ∧
       ∀ i, 2 ≤ i ≤ 5 →
         ∃ dx, load heap_1d 4 i = Some dx ∧ load σ3 13 i = Some (Rmul dx dy)).
Proof.
  assert (Hpre : query_pre heap_1d coord_1d 0 0 2 5 13) by by_evaluation.
  assert (Hsep : separate coord_1d 13) by by_evaluation.
  split; [exact Hpre|]. split; [exact Hsep|].
  exact (face_areas_product heap_1d coord_1d 0 0 2 5 13 Hpre Hsep).
Defined.

(** The scenario of the specification, evaluated in binary64: over the four
    interior cells the areas orthogonal to direction 1 are 6 = 2 * 3 and the
    volumes are 6 = 1 * 2 * 3; the ghost cells of the buffer keep their 0. *)
Example scenario_areas_and_volumes :
  (Area1Face coord_1d 0 0 2 5 13 heap_1d ≫= λ r, r.2 !! 13%positive)
    = Some [0; 0; 6; 6; 6; 6; 0; 0]%float ∧
  (CellVolume coord_1d 0 0 2 5 14 heap_1d ≫= λ r, r.2 !! 14%positive)
    = Some [0; 0; 6; 6; 6; 6; 0; 0]%float.
Proof. split; vm_compute; reflexivity. Qed.

(** C4 on the 2-D block: the directions 1 and 2 are extended. *)
Lemma ctor_centers_and_spacings_witness :
  ctor_pre 2 heap_2d block_2d ∧
  ∃ co σ', Coordinates_ctor 2 block_2d heap_2d = Some (co, σ') ∧
    (∀ a, a ∈ [x1f block_2d; x2f block_2d; x3f block_2d] →
          σ' !! a = heap_2d !! a) ∧
    ((∀ i, 0 ≤ i ≤ 7 → center_at σ' 1 7 i) ∧
     (∀ i, 0 ≤ i ≤ 6 → spacing_at σ' 7 10 i)) ∧
    (nx2 (block_size block_2d) ≠ 1 →
     (∀ j, 0 ≤ j ≤ 5 → center_at σ' 2 8 j) ∧
     (∀ j, 0 ≤ j ≤ 4 → spacing_at σ' 8 11 j)) ∧
    (nx3 (block_size block_2d) ≠ 1 →
     (∀ k, 0 - 2 ≤ k ≤ 0 + 2 → center_at σ' 3 9 k) ∧
     (∀ k, 0 - 2 ≤ k ≤ 0 + 2 - 1 → spacing_at σ' 9 12 k)).
Proof.
  assert (Hpre : ctor_pre 2 heap_2d block_2d) by by_evaluation.
  split; [exact Hpre|].
  exact (ctor_centers_and_spacings 2 heap_2d block_2d Hpre).
Defined.

(** The centers and spacings of the 2-D block, evaluated in binary64. *)
Example scenario_construction :
  (Coordinates_ctor 2 block_2d heap_2d ≫= λ r,
     Some (r.2 !! 7%positive, r.2 !! 10%positive, r.2 !! 8%positive, r.2 !! 11%positive))
  = Some (Some [-1.5; -0.5; 0.5; 1.5; 2.5; 3.5; 4.5; 5.5]%float,
          Some [1; 1; 1; 1; 1; 1; 1; 0]%float,
          Some [-3; -1; 1; 3; 5; 7]%float,
          Some [2; 2; 2; 2; 2; 0]%float).
Proof. vm_compute. reflexivity. Qed.

(** Refutes an equation [H] between two different doubles. *)
Ltac floats_differ H :=
  let E := fresh in
  match type of H with
  | ?x = ?y => assert (E : PrimFloat.eqb x y = true) by (rewrite H; vm_compute; reflexivity)
  end;
  vm_compute in E; discriminate E.

(** Runs the constructor on a concrete block and names what it returns. *)
Ltac run_ctor co σ' :=
  match goal with
  | |- context [Coordinates_ctor ?g ?pb ?σ] =>
      let r := eval vm_compute in (Coordinates_ctor g pb σ) in
      match r with
      | Some (?c, ?s) =>
          assert (Coordinates_ctor g pb σ = Some (c, s)) by (vm_compute; reflexivity);
          pose (co := c); pose (σ' := s); exists c, s
      end
  end.

(** C5 as stated fails: on the 1-D block whose faces of direction 2 are 1
    and 1.1 and whose stored face spacing is 0.1, [nx2 == 1] and the
    constructor sets [dx2v(js)] to the stored 0.1, which is not
    [x2f(js+1) - x2f(js)]. *)
Lemma ctor_unit_extent_spacing_is_not_width :
  ctor_pre 2 heap_1d_step block_1d ∧
  nx2 (block_size block_1d) = 1 ∧
  ∃ co σ', Coordinates_ctor 2 block_1d heap_1d_step = Some (co, σ') ∧
    load σ' (dx2v block_1d) (js block_1d) = load heap_1d_step (dx2f block_1d) (js block_1d) ∧
    ¬ width_at σ' (x2f block_1d) (dx2v block_1d) (js block_1d).
Proof.
  split; [by_evaluation|]. split; [reflexivity|].
  run_ctor co σ'. split; [assumption|]. split; [vm_compute; reflexivity|].
  intros (a & b & Ha & Hb & Hw).
  vm_compute in Ha. vm_compute in Hb.
  apply (inj Some) in Ha as <-. apply (inj Some) in Hb as <-.
  vm_compute in Hw. apply (inj Some) in Hw. floats_differ Hw.
Qed.

(** C5, as the code has it, on the 1-D block. *)
Lemma ctor_unit_extent_direction2_witness :
  ctor_pre 2 heap_1d block_1d ∧ nx2 (block_size block_1d) = 1 ∧
  ∃ co σ', Coordinates_ctor 2 block_1d heap_1d = Some (co, σ') ∧
    center_at σ' 2 8 0 ∧
    (∃ d, load heap_1d 5 0 = Some d ∧ load σ' 11 0 = Some d) ∧
    (∀ n, n ≠ 0 →
          load σ' 8 n = load heap_1d 8 n ∧ load σ' 11 n = load heap_1d 11 n) ∧
    (width_at heap_1d 2 5 0 → width_at σ' 2 11 0).
Proof.
  assert (Hpre : ctor_pre 2 heap_1d block_1d) by by_evaluation.
  split; [exact Hpre|]. split; [reflexivity|].
  exact (ctor_unit_extent_direction2 2 heap_1d block_1d Hpre eq_refl).
Defined.

(** C6 as stated fails for direction 1: on the block with a single cell in
    every direction ([nx1 == 1], [is == ie == 2]) the constructor runs the
    general loops over the ghost-extended range.  It writes the center of
    index 1, which is not [is], and it sets the spacing at [is] to the
    distance 3 between the centers 3 and 6, not to the face-to-face width 2
    that [dx1f(is)] holds. *)
Lemma ctor_unit_extent_direction1_is_iterated :
  ctor_pre 2 heap_thin block_thin ∧
  nx1 (block_size block_thin) = 1 ∧ is_ block_thin = ie block_thin ∧
  ∃ co σ', Coordinates_ctor 2 block_thin heap_thin = Some (co, σ') ∧
    load heap_thin (x1v block_thin) 1 = Some 0%float ∧
    load σ' (x1v block_thin) 1 = Some 1.5%float ∧
    load σ' (dx1v block_thin) (is_ block_thin) = Some 3%float ∧
    load σ' (dx1f block_thin) (is_ block_thin) = Some 2%float ∧
    ¬ width_at σ' (x1f block_thin) (dx1v block_thin) (is_ block_thin).
Proof.
  split; [by_evaluation|]. split; [reflexivity|]. split; [reflexivity|].
  run_ctor co σ'. split; [assumption|].
  do 4 (split; [vm_compute; reflexivity|]).
  intros (a & b & Ha & Hb & Hw).
  vm_compute in Ha. vm_compute in Hb.
  apply (inj Some) in Ha as <-. apply (inj Some) in Hb as <-.
  vm_compute in Hw. apply (inj Some) in Hw. floats_differ Hw.
Qed.

(** C6, as the code has it, on the block with a single cell in every
    direction. *)
Lemma ctor_unit_extent_directions_witness :
  ctor_pre 2 heap_thin block_thin ∧
  ∃ co σ', Coordinates_ctor 2 block_thin heap_thin = Some (co, σ') ∧
    (nx2 (block_size block_thin) = 1 → no_extent_post heap_thin σ' 2 5 8 11 0) ∧
    (nx3 (block_size block_thin) = 1 → no_extent_post heap_thin σ' 3 6 9 12 0) ∧
    extended_post heap_thin σ' 1 7 10 0 4.
Proof.
  assert (Hpre : ctor_pre 2 heap_thin block_thin) by by_evaluation.
  split; [exact Hpre|].
  exact (ctor_unit_extent_directions 2 heap_thin block_thin Hpre).
Defined.

(** C7 on the 1-D block, for [Area1Face] over the interior cells. *)
Lemma range_queries_keep_rest_of_buffer_witness :
  query_pre heap_1d coord_1d 0 0 2 5 13 ∧
  ∃ σ', Area1Face coord_1d 0 0 2 5 13 heap_1d = Some ((), σ') ∧
        (∀ n, ¬ (2 ≤ n ≤ 5) → load σ' 13 n = load heap_1d 13 n) ∧
        (5 < 2 → σ' = heap_1d).
Proof.
  assert (Hpre : query_pre heap_1d coord_1d 0 0 2 5 13) by by_evaluation.
  split; [exact Hpre|].
  refine (range_queries_keep_rest_of_buffer heap_1d coord_1d 0 0 2 5 13
            Area1Face _ Hpre).
  unfold range_queries. apply elem_of_cons. left. reflexivity.
Defined.

(** An empty range: [CellVolume] over [5..2] returns the store it was
    given. *)
Example empty_range_leaves_store :
  CellVolume coord_1d 0 0 5 2 14 heap_1d = Some ((), heap_1d).
Proof. vm_compute. reflexivity. Qed.



(** The tolerance is needed.  On that block, whose faces are in increasing
    order, the three spacings between the interior centers sum, in
    binary64, to a double that is [2^-56] more than the distance between
    the first and the last interior center as the store has them. *)
Example spacings_sum_is_rounded :
  ∃ co σ' S, Coordinates_ctor 2 block_1d heap_1d_tenths_grid = Some (co, σ') ∧
    sum_cells σ' 10 2 4 = Some S ∧ finite_float S = true ∧
    (∀ i, 2 ≤ i ≤ 5 → (value_at σ' 1 i <= value_at σ' 1 (i + 1))%Q) ∧
    (B2Q S - (value_at σ' 7 5 - value_at σ' 7 2) == 1 # 2 ^ 56)%Q.
Proof.
  run_ctor co σ'. eexists. split; [assumption|].
  split; [vm_compute; reflexivity|]. split; [vm_compute; reflexivity|].
  split; [|vm_compute; reflexivity].
  intros i Hi. assert (i = 2 ∨ i = 3 ∨ i = 4 ∨ i = 5) as Hcases by lia.
  destruct Hcases as [->|[->|[->| ->]]]; vm_compute; discriminate.
Qed.

(** C9 as stated fails.  With the bounds of direction 1 inverted
    ([is - NGHOST = 4 > 3 = ie + NGHOST]) the constructor completes; with
    faces of direction 1 that hold NaN it completes as well, and the centers
    it has written are NaN. *)
Lemma ctor_completes_on_bad_blocks :
  (ie block_inverted + 2 < is_ block_inverted - 2 ∧
   ∃ co σ', Coordinates_ctor 2 block_inverted heap_1d = Some (co, σ')) ∧
  (load heap_1d_nan (x1f block_1d) (is_ block_1d) = Some PrimFloat.nan ∧
   ∃ co σ', Coordinates_ctor 2 block_1d heap_1d_nan = Some (co, σ') ∧
     load σ' (x1v block_1d) (is_ block_1d) = Some PrimFloat.nan).
Proof.
  split; split.
  - vm_compute. reflexivity.
  - run_ctor co σ'. assumption.
  - vm_compute. reflexivity.
  - run_ctor co σ'. split; [assumption|]. vm_compute. reflexivity.
Qed.

(** C9, as the code has it, on the block with inverted bounds. *)
Lemma ctor_checks_nothing_witness :
  ctor_pre 2 heap_1d block_inverted ∧
  ∃ co σ', Coordinates_ctor 2 block_inverted heap_1d = Some (co, σ') ∧
    (ie block_inverted + 2 < is_ block_inverted - 2 →
     ∀ n, load σ' 7 n = load heap_1d 7 n ∧ load σ' 10 n = load heap_1d 10 n).
Proof.
  assert (Hpre : ctor_pre 2 heap_1d block_inverted) by by_evaluation.
  split; [exact Hpre|].
  exact (ctor_checks_nothing 2 heap_1d block_inverted Hpre).
Defined.

(** C10 as stated fails.  [cell_volume] is a scratch buffer of the
    instance; handed to [CellVolume] as the buffer, within valid bounds, it
    goes from eight zeros to the volumes 6 of the four interior cells. *)
Lemma queries_overwrite_scratch_buffer :
  cell_volume coord_1d ∈ owned_arrays coord_1d ∧
  query_pre heap_1d coord_1d 0 0 2 5 (cell_volume coord_1d) ∧
  heap_1d !! cell_volume coord_1d = Some (replicate 8 0%float) ∧
  (CellVolume coord_1d 0 0 2 5 (cell_volume coord_1d) heap_1d
     ≫= λ r, r.2 !! cell_volume coord_1d)
    = Some [0; 0; 6; 6; 6; 6; 0; 0]%float.
Proof.
  split; [by_evaluation|]. split; [by_evaluation|].
  split; vm_compute; reflexivity.
Qed.

(** C10 on the 1-D block, with the scratch buffer [cell_volume] handed as
    the buffer of the caller. *)
Lemma queries_write_buffer_only_witness :
  query_pre heap_1d coord_1d 0 0 2 5 14 ∧
  (∀ q : Coordinates → Z → Z → Z → Z → positive → @M float (),
     q ∈ range_queries →
     ∃ σ', q coord_1d 0 0 2 5 14%positive heap_1d = Some ((), σ') ∧
           (∀ a n, a ≠ 14%positive ∨ ¬ (2 ≤ n ≤ 5) → load σ' a n = load heap_1d a n) ∧
           (∀ a, a ∈ owned_arrays coord_1d → a ≠ 14%positive → σ' !! a = heap_1d !! a) ∧
           (∀ a, GetDim1 σ' a = GetDim1 heap_1d a)) ∧
  CoordinateSourceTerms coord_1d 0 0 7 14 heap_1d = Some ((), heap_1d).
Proof.
  assert (Hpre : query_pre heap_1d coord_1d 0 0 2 5 14) by by_evaluation.
  split; [exact Hpre|].
  exact (queries_write_buffer_only heap_1d coord_1d 0 0 2 5 14 7 Hpre).
Defined.

(** The scratch arrays of the 1-D block: eight cells each. *)
Lemma ctor_allocates_scratch_arrays_witness :
  ctor_pre 2 heap_1d block_1d ∧
  ∃ co σ', Coordinates_ctor 2 block_1d heap_1d = Some (co, σ') ∧
    pparent_block co = block_1d ∧
    (face_area co ∉ dom heap_1d) ∧ (cell_volume co ∉ dom heap_1d) ∧
    face_area co ≠ cell_volume co ∧
    (GetDim1 σ' (face_area co) = 4 + 2 * 2) ∧
    (GetDim1 σ' (cell_volume co) = 4 + 2 * 2).
Proof.
  assert (Hpre : ctor_pre 2 heap_1d block_1d) by by_evaluation.
  split; [exact Hpre|].
  exact (ctor_allocates_scratch_arrays 2 heap_1d block_1d Hpre).
Defined.

(** * When the code is defined *)

Section Defined.

Context {Real : Type} `{!RealOps Real}.
Variable NGHOST : Z.

Implicit Types (σ : gmap positive (list Real)) (a buf : positive)
  (n i lo hi : Z) (v : Real) (D : positive → Z).

#[local] Abbreviation defined := (@defined_iff Real _).

Lemma defined_ret {A : Type} (x : A) D : defined (mret x : @M Real A) D True.
Proof.
  intros σ HD. split.
  - split; [done|]. intros _. by exists (x, σ).
  - intros y σ' Hr. injection Hr as _ <-. done.
Qed.

(** Sequencing: the first computation must complete, and then the second. *)
Lemma defined_bind {A B : Type} (m : @M Real A) (f : A → @M Real B) (R : A → Prop) D P Q :
  defined m D P →
  (∀ σ x σ', m σ = Some (x, σ') → R x) →
  (∀ x, R x → defined (f x) D Q) →
  defined (m ≫= f) D (P ∧ Q).
Proof.
  intros Hm HR Hf σ HD. destruct (Hm σ HD) as [Hiff Hkeep].
  rewrite bind_unfold. destruct (m σ) as [[x σ1]|] eqn:Hrun.
  - destruct (Hf x (HR _ _ _ Hrun) σ1 (Hkeep _ _ eq_refl)) as [Hiff' Hkeep'].
    split; [|done]. rewrite Hiff'. split; [|tauto].
    intros HQ. split; [|done]. apply Hiff. eauto.
  - split; [|done]. split; [by intros [? ?]|].
    intros [HP _]. apply Hiff in HP. by destruct HP.
Qed.

Lemma defined_weaken {A : Type} (m : @M Real A) D P Q :
  (P ↔ Q) → defined m D P → defined m D Q.
Proof. intros HPQ Hm σ HD. destruct (Hm σ HD) as [Hiff ?]. by rewrite <- HPQ. Qed.

Lemma defined_int z D :
  defined (int_ z) D (INT_MIN ≤ z ≤ INT_MAX).
Proof.
  intros σ HD. unfold int_. case_decide as Hz.
  - split; [split; eauto|]. intros x σ' Hr. injection Hr as _ <-. done.
  - split; [|done]. split; [by intros [? ?] | done].
Qed.

Lemma int_returns z σ x σ' : int_ z σ = Some (x, σ') → x = z.
Proof. unfold int_. case_decide; [|done]. by intros [= <- _]. Qed.

Lemma defined_elem a n D :
  defined (elem a n) D (0 ≤ n < D a).
Proof.
  intros σ HD. unfold elem. rewrite HD. case_decide as Hn.
  - split; [split; eauto|]. intros x σ' Hr. injection Hr as _ <-. done.
  - split; [|done]. split; [by intros [? ?] | done].
Qed.

Lemma elem_returns a n σ x σ' : elem a n σ = Some (x, σ') → x = (a, n).
Proof. unfold elem. case_decide; [|done]. by intros [= <- _]. Qed.

Lemma defined_rd (p : lvalue) D :
  defined (rd p) D (0 ≤ p.2 < D p.1).
Proof.
  intros σ HD. unfold rd. rewrite <- HD, <- load_is_Some.
  destruct (load σ p.1 p.2) as [v|].
  - split; [split; eauto|]. intros x σ' Hr. injection Hr as _ <-. done.
  - split; [|done]. split; by intros [? ?].
Qed.

Lemma defined_wr (p : lvalue) v D :
  defined (wr p v) D (0 ≤ p.2 < D p.1).
Proof.
  intros σ HD. unfold wr. rewrite HD. case_decide as Hn.
  - split; [split; eauto|]. intros x σ' Hr. injection Hr as _ <-.
    intros a. by rewrite GetDim1_upd.
  - split; [|done]. split; [by intros [? ?] | done].
Qed.

Lemma defined_get a n D :
  defined (get a n) D (0 ≤ n < D a).
Proof.
  apply (defined_weaken _ _ (0 ≤ n < D a ∧ 0 ≤ n < D a)); [tauto|].
  unfold get. apply (defined_bind _ _ (λ p, p = (a, n))).
  - apply defined_elem.
  - intros σ x σ'. apply elem_returns.
  - intros p ->. apply defined_rd.
Qed.

Lemma defined_put a n v D :
  defined (put a n v) D (0 ≤ n < D a).
Proof.
  apply (defined_weaken _ _ (0 ≤ n < D a ∧ 0 ≤ n < D a)); [tauto|].
  unfold put. apply (defined_bind _ _ (λ p, p = (a, n))).
  - apply defined_elem.
  - intros σ x σ'. apply elem_returns.
  - intros p ->. apply defined_wr.
Qed.

Lemma defined_iter (body : Z → @M Real ()) (ok : Z → Prop) D (k : nat) : ∀ lo,
  (∀ i, defined (body i) D (ok i)) →
  defined (iter body (seqZ lo (Z.of_nat k))) D
    (∀ i, lo ≤ i < lo + Z.of_nat k → ok i).
Proof.
  induction k as [|k IH]; intros lo Hbody.
  - rewrite seqZ_nil by lia. simpl.
    apply (defined_weaken _ _ True); [|apply defined_ret].
    split; [intros _ i Hi; lia | done].
  - rewrite seqZ_cons by lia. simpl iter.
    replace (Z.pred (Z.of_nat (S k))) with (Z.of_nat k) by lia.
    apply (defined_weaken _ _
             (ok lo ∧ ∀ i, Z.succ lo ≤ i < Z.succ lo + Z.of_nat k → ok i)).
    + split.
      * intros [H0 Hr] i Hi. destruct (decide (i = lo)) as [->|]; [done|].
        apply Hr. lia.
      * intros Hall. split; [apply Hall; lia|]. intros i Hi. apply Hall. lia.
    + apply (defined_bind _ _ (λ _, True)); [apply Hbody | done |].
      intros _ _. by apply IH.
Qed.

(** A loop is defined exactly when each of its bodies is and the last
    increment of the counter is an [int]. *)
Lemma defined_for (body : Z → @M Real ()) (ok : Z → Prop) D lo hi :
  (∀ i, defined (body i) D (ok i)) →
  defined (for_ lo hi body) D
    ((∀ i, lo ≤ i ≤ hi → ok i) ∧ (lo ≤ hi → INT_MIN ≤ hi + 1 ≤ INT_MAX)).
Proof.
  intros Hbody. unfold for_.
  apply (defined_bind _ _ (λ _, True)); [| done |].
  - destruct (decide (lo ≤ hi)) as [Hle|Hgt].
    + replace (hi - lo + 1) with (Z.of_nat (Z.to_nat (hi - lo + 1))) by lia.
      apply (defined_weaken _ _
               (∀ i, lo ≤ i < lo + Z.of_nat (Z.to_nat (hi - lo + 1)) → ok i)).
      * split; intros Hall i Hi; apply Hall; lia.
      * by apply defined_iter.
    + rewrite seqZ_nil by lia. simpl.
      apply (defined_weaken _ _ True); [|apply defined_ret].
      split; [intros _ i Hi; lia | done].
  - intros _ _. case_decide as Hle.
    + apply (defined_weaken _ _ (INT_MIN ≤ hi + 1 ≤ INT_MAX ∧ True)); [tauto|].
      apply (defined_bind _ _ (λ _, True)); [apply defined_int | done |].
      intros _ _. apply defined_ret.
    + apply (defined_weaken _ _ True); [tauto | apply defined_ret].
Qed.

Lemma defined_bind_elem {B : Type} a n (f : lvalue → @M Real B) D Q :
  defined (f (a, n)) D Q → defined (elem a n ≫= f) D (0 ≤ n < D a ∧ Q).
Proof.
  intros Hf. apply (defined_bind _ _ (λ p, p = (a, n))).
  - apply defined_elem.
  - intros σ x σ'. apply elem_returns.
  - by intros p ->.
Qed.

Lemma defined_bind_int {B : Type} z (f : Z → @M Real B) D Q :
  defined (f z) D Q → defined (int_ z ≫= f) D (INT_MIN ≤ z ≤ INT_MAX ∧ Q).
Proof.
  intros Hf. apply (defined_bind _ _ (λ x, x = z)).
  - apply defined_int.
  - intros σ x σ'. apply int_returns.
  - by intros x ->.
Qed.

Lemma defined_bind_rd {B : Type} (p : lvalue) (f : Real → @M Real B) D Q :
  (∀ v, defined (f v) D Q) → defined (rd p ≫= f) D (0 ≤ p.2 < D p.1 ∧ Q).
Proof.
  intros Hf. apply (defined_bind _ _ (λ _, True)); [apply defined_rd | done | auto].
Qed.

Lemma defined_bind_get {B : Type} a n (f : Real → @M Real B) D Q :
  (∀ v, defined (f v) D Q) → defined (get a n ≫= f) D (0 ≤ n < D a ∧ Q).
Proof.
  intros Hf. apply (defined_bind _ _ (λ _, True)); [apply defined_get | done | auto].
Qed.

Lemma defined_then {A B : Type} (m : @M Real A) (k : @M Real B) D P Q :
  defined m D P → defined k D Q → defined (m ≫= λ _, k) D (P ∧ Q).
Proof.
  intros Hm Hk. apply (defined_bind _ _ (λ _, True)); [done | done | auto].
Qed.

Lemma defined_if {A : Type} (c : Prop) `{!Decision c} (m1 m2 : @M Real A) D P1 P2 :
  defined m1 D P1 → defined m2 D P2 →
  defined (if decide c then m1 else m2) D (if decide c then P1 else P2).
Proof. intros H1 H2. by case_decide. Qed.

(** Reads off, step by step, when a computation is defined. *)
Ltac defined_steps :=
  repeat first
    [ apply defined_bind_elem
    | apply defined_bind_int
    | apply defined_bind_rd; intros ?
    | apply defined_bind_get; intros ?
    | apply defined_wr
    | apply defined_put
    | apply defined_ret
    | apply defined_for; intros ?
    | apply defined_then ].

Lemma cells_forall D a lo hi :
  (lo ≤ hi → 0 ≤ lo ∧ hi < D a) ↔ (∀ i, lo ≤ i ≤ hi → 0 ≤ i < D a).
Proof.
  split.
  - intros Hc i Hi. lia.
  - intros Hall Hle. pose proof (Hall lo). pose proof (Hall hi). lia.
Qed.

(** Proves that the condition read off the code and a condition on the
    bounds of the ranges say the same. *)
Ltac bounds_iff lo hi :=
  unfold INT_MIN, INT_MAX; simpl;
  split; intros ?; destruct_and?;
  repeat match goal with
         | H : ∀ i : Z, _ |- _ =>
             pose proof (H lo); pose proof (H hi); pose proof (H (hi - 1)); clear H
         end;
  repeat match goal with
         | |- _ ∧ _ => split
         | |- _ → _ => intro
         | |- ∀ _ : Z, _ => intro
         end;
  lia.

Lemma Area1Face_defined co k j il iu areas D :
  defined (Area1Face co k j il iu areas) D
    (0 ≤ j < D (dx2f (pparent_block co)) ∧
     0 ≤ k < D (dx3f (pparent_block co)) ∧
     (il ≤ iu → 0 ≤ il ∧ iu < D areas) ∧ (il ≤ iu → iu < INT_MAX)).
Proof.
  eapply defined_weaken; cycle 1.
  - unfold Area1Face. defined_steps.
  - bounds_iff il iu.
Qed.

Lemma Area2Face_defined co k j il iu areas D :
  defined (Area2Face co k j il iu areas) D
    (0 ≤ k < D (dx3f (pparent_block co)) ∧
     (il ≤ iu → 0 ≤ il ∧ iu < D (dx1f (pparent_block co))) ∧
     (il ≤ iu → 0 ≤ il ∧ iu < D areas) ∧ (il ≤ iu → iu < INT_MAX)).
Proof.
  eapply defined_weaken; cycle 1.
  - unfold Area2Face. defined_steps.
  - bounds_iff il iu.
Qed.

Lemma Area3Face_defined co k j il iu areas D :
  defined (Area3Face co k j il iu areas) D
    (0 ≤ j < D (dx2f (pparent_block co)) ∧
     (il ≤ iu → 0 ≤ il ∧ iu < D (dx1f (pparent_block co))) ∧
     (il ≤ iu → 0 ≤ il ∧ iu < D areas) ∧ (il ≤ iu → iu < INT_MAX)).
Proof.
  eapply defined_weaken; cycle 1.
  - unfold Area3Face. defined_steps.
  - bounds_iff il iu.
Qed.

Lemma CellVolume_defined co k j il iu volumes D :
  defined (CellVolume co k j il iu volumes) D
    (0 ≤ j < D (dx2f (pparent_block co)) ∧
     0 ≤ k < D (dx3f (pparent_block co)) ∧
     (il ≤ iu → 0 ≤ il ∧ iu < D (dx1f (pparent_block co))) ∧
     (il ≤ iu → 0 ≤ il ∧ iu < D volumes) ∧ (il ≤ iu → iu < INT_MAX)).
Proof.
  eapply defined_weaken; cycle 1.
  - unfold CellVolume. defined_steps.
  - bounds_iff il iu.
Qed.

(** [CellVolume] has defined behaviour exactly within valid bounds: it runs
    to completion if and only if [j] and [k] index the face spacings of the
    directions 2 and 3, the range [il..iu] lies within the face spacings of
    direction 1 and within the buffer, and [iu + 1] is an [int].  The
    transverse indices are checked even when the range is empty. *)
Theorem CellVolume_defined_iff σ co k j il iu volumes :
  is_Some (CellVolume co k j il iu volumes σ) ↔
  query_pre σ co k j il iu volumes.
Proof.
  destruct (CellVolume_defined co k j il iu volumes (GetDim1 σ) σ) as [Hiff _];
    [done|].
  rewrite Hiff. unfold query_pre, cells. simpl. tauto.
Qed.

(** Each face-area query has defined behaviour exactly when the cells it
    touches exist: [Area1Face] needs [j], [k] and the buffer range, and never
    looks at [dx1f]; [Area2Face] needs [k], the range in [dx1f] and in the
    buffer, and never uses [j]; [Area3Face] needs [j], the range in [dx1f]
    and in the buffer, and never uses [k]. *)
Theorem face_areas_defined_iff σ co k j il iu areas :
  (is_Some (Area1Face co k j il iu areas σ) ↔
     0 ≤ j < GetDim1 σ (dx2f (pparent_block co)) ∧
     0 ≤ k < GetDim1 σ (dx3f (pparent_block co)) ∧
     cells σ areas il iu ∧ (il ≤ iu → iu < INT_MAX)) ∧
  (is_Some (Area2Face co k j il iu areas σ) ↔
     0 ≤ k < GetDim1 σ (dx3f (pparent_block co)) ∧
     cells σ (dx1f (pparent_block co)) il iu ∧
     cells σ areas il iu ∧ (il ≤ iu → iu < INT_MAX)) ∧
  (is_Some (Area3Face co k j il iu areas σ) ↔
     0 ≤ j < GetDim1 σ (dx2f (pparent_block co)) ∧
     cells σ (dx1f (pparent_block co)) il iu ∧
     cells σ areas il iu ∧ (il ≤ iu → iu < INT_MAX)).
Proof.
  split; [|split].
  - by destruct (Area1Face_defined co k j il iu areas (GetDim1 σ) σ) as [Hiff _].
  - by destruct (Area2Face_defined co k j il iu areas (GetDim1 σ) σ) as [Hiff _].
  - by destruct (Area3Face_defined co k j il iu areas (GetDim1 σ) σ) as [Hiff _].
Qed.

Lemma extended_defined xf xv dxv s e D :
  defined (extended NGHOST xf xv dxv s e) D (extended_sizes NGHOST D xf xv dxv s e).
Proof.
  eapply defined_weaken; cycle 1.
  - unfold extended, centers, spacings. defined_steps.
  - unfold extended_sizes. bounds_iff (s - NGHOST) (e + NGHOST).
Qed.

Lemma no_extent_defined xf dxf xv dxv s D :
  defined (no_extent xf dxf xv dxv s) D (no_extent_sizes D xf dxf xv dxv s).
Proof.
  eapply defined_weaken; cycle 1.
  - unfold no_extent. defined_steps.
  - unfold no_extent_sizes. bounds_iff s s.
Qed.

(** A computation whose definedness is known, followed by one whose
    completion is known on stores of the same sizes. *)
Lemma then_runs {A B : Type} (m : @M Real A) (f : A → @M Real B) D P Q :
  defined m D P →
  (∀ x σ, (∀ a, GetDim1 σ a = D a) → (is_Some (f x σ) ↔ Q)) →
  ∀ σ, (∀ a, GetDim1 σ a = D a) → (is_Some ((m ≫= f) σ) ↔ P ∧ Q).
Proof.
  intros Hm Hf σ HD. destruct (Hm σ HD) as [Hiff Hkeep].
  rewrite bind_unfold. destruct (m σ) as [[x σ1]|] eqn:Hrun.
  - rewrite (Hf x σ1 (Hkeep _ _ eq_refl)). split; [|tauto].
    intros HQ. split; [|done]. apply Hiff. eauto.
  - split; [by intros [? ?]|]. intros [HP _]. apply Hiff in HP. by destruct HP.
Qed.

(** The allocation of the scratch arrays completes exactly when their size
    is a non-negative [int], whatever the store. *)
Lemma scratch_runs (pb : Block) σ :
  is_Some ((g2 ← int_ (2 * NGHOST);
            n_cells ← int_ (nx1 (block_size pb) + g2);
            fa ← NewAthenaArray n_cells;
            cv ← NewAthenaArray n_cells;
            mret {| pparent_block := pb; face_area := fa; cell_volume := cv |}) σ)
  ↔ INT_MIN ≤ 2 * NGHOST ≤ INT_MAX ∧
    0 ≤ nx1 (block_size pb) + 2 * NGHOST ≤ INT_MAX.
Proof.
  rewrite bind_unfold. unfold int_ at 1. case_decide as Hg; [|split; [by intros [? ?] | tauto]].
  rewrite bind_unfold. unfold int_. case_decide as Hn.
  - rewrite !bind_unfold. unfold NewAthenaArray.
    case_decide as H0.
    + simpl. split; [intros _; lia | intros _; eauto].
    + split; [by intros [? ?] | lia].
  - split; [by intros [? ?]|]. unfold INT_MIN in *. lia.
Qed.

(** The constructor has defined behaviour exactly when the arrays have the
    cells it touches and its bounds are [int]s: it runs to completion if and
    only if the sizes of the store satisfy [ctor_sizes].  Nothing else
    matters: not the values of the faces, not the order of the bounds, not
    whether two arrays of the block are the same array. *)
Theorem ctor_defined_iff σ pb :
  is_Some (Coordinates_ctor NGHOST pb σ) ↔ ctor_sizes NGHOST σ pb.
Proof.
  unfold Coordinates_ctor, ctor_sizes.
  apply (then_runs _ _ (GetDim1 σ)); [apply extended_defined | | done].
  intros _ σ1 H1.
  apply (then_runs _ _ (GetDim1 σ));
    [apply defined_if; [apply no_extent_defined | apply extended_defined] | | done].
  intros _ σ2 H2.
  apply (then_runs _ _ (GetDim1 σ));
    [apply defined_if; [apply no_extent_defined | apply extended_defined] | | done].
  intros _ σ3 H3. apply scratch_runs.
Qed.

End Defined.

(** * How the queries compose *)

Section Compose.

Context {Real : Type} `{!RealOps Real}.
Variable NGHOST : Z.

Implicit Types (σ : gmap positive (list Real)) (a buf : positive)
  (n i lo hi il iu : Z) (v : Real).

(** Two arrays with the same cells are the same array. *)
Lemma lookup_ext σ1 σ2 a :
  (is_Some (σ1 !! a) ↔ is_Some (σ2 !! a)) →
  (∀ n, load σ1 a n = load σ2 a n) →
  σ1 !! a = σ2 !! a.
Proof.
  intros Hs Hl. unfold load in Hl.
  destruct (σ1 !! a) as [l1|] eqn:H1, (σ2 !! a) as [l2|] eqn:H2.
  - f_equal. apply list_eq. intros m. specialize (Hl (Z.of_nat m)).
    simpl in Hl. rewrite !decide_True, !Nat2Z.id in Hl by lia. done.
  - destruct Hs as [Hs _]. destruct Hs; [eauto | done].
  - destruct Hs as [_ Hs]. destruct Hs; [eauto | done].
  - done.
Qed.

(** Two stores that differ at most in [buf] and hold the same cells there
    are the same store. *)
Lemma store_ext σ1 σ2 buf :
  (∀ a, a ≠ buf → σ1 !! a = σ2 !! a) →
  dom σ1 = dom σ2 →
  (∀ n, load σ1 buf n = load σ2 buf n) →
  σ1 = σ2.
Proof.
  intros Hne Hdom Hl. apply map_eq. intros a.
  destruct (decide (a = buf)) as [->|Ha]; [|by apply Hne].
  apply lookup_ext; [|done]. by rewrite <- !elem_of_dom, Hdom.
Qed.

Lemma query_pre_dims σ σ' co k j il iu buf :
  (∀ a, GetDim1 σ' a = GetDim1 σ a) →
  query_pre σ co k j il iu buf → query_pre σ' co k j il iu buf.
Proof. unfold query_pre, cells. intros Hd. by rewrite !Hd. Qed.

Lemma query_pre_sub σ co k j il iu il' iu' buf :
  query_pre σ co k j il iu buf →
  (il' ≤ iu' → il ≤ il' ∧ iu' ≤ iu) →
  query_pre σ co k j il' iu' buf.
Proof. unfold query_pre, cells. intros (Hj & Hk & H1 & Hb & Hi) Hsub. repeat split; lia. Qed.

(** What each range query writes, as a function of the index and of the
    store it reads: the values do not depend on the buffer when the buffer
    is none of the face-spacing arrays. *)
Lemma range_queries_values q co k j buf :
  q ∈ range_queries →
  ∃ val : Z → gmap positive (list Real) → option Real,
    (separate co buf → ∀ σ σ' i,
       (∀ a, a ≠ buf → σ' !! a = σ !! a) → val i σ' = val i σ) ∧
    (∀ σ il iu, query_pre σ co k j il iu buf →
       ∃ σ', q co k j il iu buf σ = Some ((), σ') ∧
             only_cells σ σ' buf il iu ∧
             (separate co buf → ∀ i, il ≤ i ≤ iu → load σ' buf i = val i σ)).
Proof.
  unfold range_queries. rewrite !elem_of_cons, elem_of_nil.
  intros [->|[->|[->|[->|[]]]]].
  - eexists (λ i σ, y ← load σ (dx2f (pparent_block co)) j;
                    z ← load σ (dx3f (pparent_block co)) k; Some (Rmul y z)).
    split.
    + intros (_ & Hy & Hz) σ σ' i Hag. simpl.
      by rewrite (load_agree σ σ' _ j), (load_agree σ σ' _ k) by (apply Hag; done).
    + intros σ il iu Hpre. apply Area1Face_spec. done.
  - eexists (λ i σ, x ← load σ (dx1f (pparent_block co)) i;
                    z ← load σ (dx3f (pparent_block co)) k; Some (Rmul x z)).
    split.
    + intros (Hx & _ & Hz) σ σ' i Hag. simpl.
      by rewrite (load_agree σ σ' _ i), (load_agree σ σ' _ k) by (apply Hag; done).
    + intros σ il iu Hpre. apply Area2Face_spec. done.
  - eexists (λ i σ, x ← load σ (dx1f (pparent_block co)) i;
                    y ← load σ (dx2f (pparent_block co)) j; Some (Rmul x y)).
    split.
    + intros (Hx & Hy & _) σ σ' i Hag. simpl.
      by rewrite (load_agree σ σ' _ i), (load_agree σ σ' _ j) by (apply Hag; done).
    + intros σ il iu Hpre. apply Area3Face_spec. done.
  - eexists (λ i σ, x ← load σ (dx1f (pparent_block co)) i;
                    y ← load σ (dx2f (pparent_block co)) j;
                    z ← load σ (dx3f (pparent_block co)) k;
                    Some (Rmul (Rmul x y) z)).
    split.
    + intros (Hx & Hy & Hz) σ σ' i Hag. simpl.
      by rewrite (load_agree σ σ' _ i), (load_agree σ σ' _ j),
        (load_agree σ σ' _ k) by (apply Hag; done).
    + intros σ il iu Hpre. apply CellVolume_spec. done.
Qed.

(** A range query into a buffer of the caller is idempotent: a second call
    with the same arguments completes and leaves the store exactly as the
    first call left it. *)
Theorem range_queries_idempotent σ co k j il iu buf q :
  q ∈ range_queries →
  query_pre σ co k j il iu buf →
  separate co buf →
  ∃ σ', q co k j il iu buf σ = Some ((), σ') ∧
        q co k j il iu buf σ' = Some ((), σ').
Proof.
  intros Hq Hpre Hsep.
  destruct (range_queries_values q co k j buf Hq) as (val & Hind & Hspec).
  destruct (Hspec σ il iu Hpre) as (σ1 & Hrun1 & (Hag1 & Hd1 & Hm1 & Ho1 & _) & Hv1).
  destruct (Hspec σ1 il iu (query_pre_dims σ σ1 _ _ _ _ _ _ Hd1 Hpre))
    as (σ2 & Hrun2 & (Hag2 & Hd2 & Hm2 & Ho2 & _) & Hv2).
  exists σ1. split; [done|]. rewrite Hrun2. do 2 f_equal.
  apply (store_ext σ2 σ1 buf); [done | done |].
  intros n. destruct (decide (il ≤ n ≤ iu)) as [Hn|Hn]; [|by apply Ho2].
  rewrite (Hv2 Hsep n Hn), (Hv1 Hsep n Hn). by apply (Hind Hsep).
Qed.

(** A range can be filled in two parts: a range query over [il..m] followed
    by the same query over [m+1..iu] completes and leaves the store exactly
    as one call over [il..iu] does. *)
Theorem range_queries_split σ co k j il m iu buf q :
  q ∈ range_queries →
  query_pre σ co k j il iu buf →
  separate co buf →
  il - 1 ≤ m ≤ iu →
  ∃ σ1 σ2, q co k j il m buf σ = Some ((), σ1) ∧
           q co k j (m + 1) iu buf σ1 = Some ((), σ2) ∧
           q co k j il iu buf σ = Some ((), σ2).
Proof.
  intros Hq Hpre Hsep Hm.
  destruct (range_queries_values q co k j buf Hq) as (val & Hind & Hspec).
  destruct (Hspec σ il m) as (σ1 & Hrun1 & (Hag1 & Hd1 & Hm1 & Ho1 & _) & Hv1).
  { apply (query_pre_sub σ co k j il iu); [done | lia]. }
  destruct (Hspec σ1 (m + 1) iu) as (σ2 & Hrun2 & (Hag2 & Hd2 & Hm2 & Ho2 & _) & Hv2).
  { apply (query_pre_dims σ); [done|].
    apply (query_pre_sub σ co k j il iu); [done | lia]. }
  destruct (Hspec σ il iu Hpre) as (σ3 & Hrun3 & (Hag3 & Hd3 & Hm3 & Ho3 & _) & Hv3).
  exists σ1, σ2. split; [done|]. split; [done|]. rewrite Hrun3. do 2 f_equal.
  apply (store_ext σ3 σ2 buf).
  - intros a Ha. rewrite Hag3, Hag2, Hag1 by done. done.
  - by rewrite Hm3, Hm2, Hm1.
  - intros n. destruct (decide (il ≤ n ≤ iu)) as [Hn|Hn].
    + rewrite (Hv3 Hsep n Hn). destruct (decide (n ≤ m)) as [Hlo|Hhi].
      * rewrite Ho2 by lia. rewrite (Hv1 Hsep n) by lia. done.
      * rewrite (Hv2 Hsep n) by lia. symmetry. by apply (Hind Hsep).
    + rewrite Ho3 by done. rewrite Ho2 by lia. rewrite Ho1 by lia. done.
Qed.

End Compose.

(** * Construction and queries together *)

Section Lifecycle.

Context {Real : Type} `{!RealOps Real}.
Variable NGHOST : Z.

Implicit Types (σ : gmap positive (list Real)) (a buf : positive)
  (n i lo hi il iu : Z) (v : Real).

(** Closes a goal [x ≠ y] or [x ∉ [y; ...]] from the inequalities at hand. *)
Ltac distinct :=
  rewrite ?not_elem_of_cons; repeat split;
  first [ assumption | apply not_eq_sym; assumption | apply not_elem_of_nil ].

(** The volumes are the areas orthogonal to direction 3 times [dx3f(k)],
    with the very same rounding. *)
Theorem CellVolume_is_Area3Face_times_depth σ co k j il iu areas volumes :
  query_pre σ co k j il iu areas →
  query_pre σ co k j il iu volumes →
  separate co areas →
  separate co volumes →
  ∃ σa σv dz,
    Area3Face co k j il iu areas σ = Some ((), σa) ∧
    CellVolume co k j il iu volumes σ = Some ((), σv) ∧
    load σ (dx3f (pparent_block co)) k = Some dz ∧
    ∀ i, il ≤ i ≤ iu →
      ∃ area, load σa areas i = Some area ∧
              load σv volumes i = Some (Rmul area dz).
Proof.
  intros Hpa Hpv Hsa Hsv.
  destruct (query_pre_loads _ _ _ _ _ _ _ Hpa) as ([dy Hy] & [dz Hz] & Hx).
  destruct (Area3Face_spec σ co k j il iu areas Hpa) as (σa & Hra & _ & Hva).
  destruct (CellVolume_spec σ co k j il iu volumes Hpv) as (σv & Hrv & _ & Hvv).
  exists σa, σv, dz. split; [done|]. split; [done|]. split; [done|].
  intros i Hi. destruct (Hx i Hi) as [dx Hdx].
  exists (Rmul dx dy). rewrite (Hva Hsa i Hi), (Hvv Hsv i Hi), Hdx, Hy, Hz. done.
Qed.

(** The store the constructor leaves has the arrays of the store it was
    given and the two scratch arrays, nothing else. *)
Lemma Coordinates_ctor_dom σ pb co σ' :
  ctor_pre NGHOST σ pb →
  Coordinates_ctor NGHOST pb σ = Some (co, σ') →
  dom σ' = {[cell_volume co]} ∪ ({[face_area co]} ∪ dom σ).
Proof.
  intros (Hnd & Hall & Hp1 & Hp2 & Hp3 & Hg & Hn). unfold ctor_arrays in *.
  repeat (rewrite NoDup_cons in Hnd; rewrite ?not_elem_of_cons in Hnd).
  destruct_and!.
  unfold Coordinates_ctor.
  destruct (extended_spec NGHOST σ (x1f pb) (x1v pb) (dx1v pb) (is_ pb) (ie pb))
    as (σ1 & Hrun1 & (T1 & D1 & M1) & P1); [distinct.. | done |].
  rewrite bind_unfold, Hrun1.
  destruct (axis_spec NGHOST σ1 (nx2 (block_size pb)) (x2f pb) (dx2f pb) (x2v pb)
              (dx2v pb) (js pb) (je pb))
    as (σ2 & Hrun2 & (T2 & D2 & M2) & P2);
    [distinct.. | by apply (axis_pre_dims NGHOST σ) |].
  rewrite bind_unfold, Hrun2.
  destruct (axis_spec NGHOST σ2 (nx3 (block_size pb)) (x3f pb) (dx3f pb) (x3v pb)
              (dx3v pb) (ks pb) (ke pb))
    as (σ3 & Hrun3 & (T3 & D3 & M3) & P3);
    [distinct.. | apply (axis_pre_dims NGHOST σ); [intros a; by rewrite D2|done] |].
  rewrite bind_unfold, Hrun3.
  rewrite bind_unfold, int_ok by done.
  rewrite bind_unfold, int_ok by (unfold INT_MIN; lia).
  destruct (NewAthenaArray_spec σ3 (nx1 (block_size pb) + 2 * NGHOST))
    as (fa & σ4 & Hrun4 & Hfa & M4 & G4 & T4); [lia|].
  rewrite bind_unfold, Hrun4.
  destruct (NewAthenaArray_spec σ4 (nx1 (block_size pb) + 2 * NGHOST))
    as (cv & σ5 & Hrun5 & Hcv & M5 & G5 & T5); [lia|].
  rewrite bind_unfold, Hrun5. intros [= <- <-]. simpl.
  by rewrite M5, M4, M3, M2, M1.
Qed.

Lemma center_at_same σ1 σ2 xf xv i :
  σ2 !! xf = σ1 !! xf →
  center_at σ1 xf xv i → center_at σ2 xf xv i →
  load σ2 xv i = load σ1 xv i.
Proof.
  intros Hf (a & b & Ha & Hb & Hc) (a' & b' & Ha' & Hb' & Hc').
  rewrite (load_agree σ1 σ2 xf) in Ha', Hb' by done. congruence.
Qed.

Lemma spacing_at_same σ1 σ2 xv dxv i :
  (∀ n, load σ2 xv n = load σ1 xv n) →
  spacing_at σ1 xv dxv i → spacing_at σ2 xv dxv i →
  load σ2 dxv i = load σ1 dxv i.
Proof.
  intros Hv (a & b & Ha & Hb & Hc) (a' & b' & Ha' & Hb' & Hc').
  rewrite Hv in Ha', Hb'. congruence.
Qed.

(** Running the two loops of a direction again, on the same faces, writes
    what is there already. *)
Lemma extended_post_again σ0 σ1 σ2 xf xv dxv lo hi :
  σ2 !! xf = σ1 !! xf →
  extended_post σ0 σ1 xf xv dxv lo hi →
  extended_post σ1 σ2 xf xv dxv lo hi →
  ∀ n, load σ2 xv n = load σ1 xv n ∧ load σ2 dxv n = load σ1 dxv n.
Proof.
  intros Hf (Hc1 & Hs1 & _ & _) (Hc2 & Hs2 & Hov & Hod).
  assert (Hv : ∀ n, load σ2 xv n = load σ1 xv n).
  { intros n. destruct (decide (lo ≤ n ≤ hi)) as [Hn|Hn]; [|by apply Hov].
    apply (center_at_same σ1 σ2 xf); auto. }
  intros n. split; [done|].
  destruct (decide (lo ≤ n ≤ hi - 1)) as [Hn|Hn]; [|by apply Hod].
  apply (spacing_at_same σ1 σ2 xv); auto.
Qed.

Lemma no_extent_post_again σ0 σ1 σ2 xf dxf xv dxv s :
  σ2 !! xf = σ1 !! xf → σ2 !! dxf = σ1 !! dxf →
  no_extent_post σ0 σ1 xf dxf xv dxv s →
  no_extent_post σ1 σ2 xf dxf xv dxv s →
  ∀ n, load σ2 xv n = load σ1 xv n ∧ load σ2 dxv n = load σ1 dxv n.
Proof.
  intros Hf Hg (Hc1 & (d1 & Hd1 & Hd1') & _ & _) (Hc2 & (d2 & Hd2 & Hd2') & Hov & Hod).
  rewrite (load_agree σ1 σ2 dxf) in Hd2 by done.
  intros n. destruct (decide (n = s)) as [->|Hn]; [|auto].
  split; [by apply (center_at_same σ1 σ2 xf) | congruence].
Qed.

Lemma axis_post_again σ0 σ1 σ2 nx xf dxf xv dxv s e :
  σ2 !! xf = σ1 !! xf → σ2 !! dxf = σ1 !! dxf →
  axis_post NGHOST σ0 σ1 nx xf dxf xv dxv s e →
  axis_post NGHOST σ1 σ2 nx xf dxf xv dxv s e →
  ∀ n, load σ2 xv n = load σ1 xv n ∧ load σ2 dxv n = load σ1 dxv n.
Proof.
  unfold axis_post. intros Hf Hg. case_decide.
  - by apply no_extent_post_again.
  - by apply extended_post_again.
Qed.

(** The precondition of the constructor still holds in the store it
    leaves. *)
Lemma ctor_pre_after σ pb co σ' :
  ctor_pre NGHOST σ pb →
  Coordinates_ctor NGHOST pb σ = Some (co, σ') →
  (∀ a, a ∈ dom σ → GetDim1 σ' a = GetDim1 σ a) →
  ctor_pre NGHOST σ' pb.
Proof.
  intros Hpre Hrun Hdim. pose proof (Coordinates_ctor_dom σ pb co σ' Hpre Hrun) as Hdom.
  destruct Hpre as (Hnd & Hall & Hp1 & Hp2 & Hp3 & Hg & Hn).
  assert (Hin : ∀ a, a ∈ ctor_arrays pb → a ∈ dom σ).
  { intros a Ha. apply elem_of_dom. by apply (proj1 (Forall_forall _ _) Hall). }
  assert (HD : ∀ a, a ∈ ctor_arrays pb → GetDim1 σ' a = GetDim1 σ a) by auto.
  assert (Hmem : ∀ a, a ∈ ctor_arrays pb ↔
            a = x1f pb ∨ a = x1v pb ∨ a = dx1v pb ∨ a = x2f pb ∨ a = dx2f pb ∨
            a = x2v pb ∨ a = dx2v pb ∨ a = x3f pb ∨ a = dx3f pb ∨ a = x3v pb ∨
            a = dx3v pb).
  { intros a. unfold ctor_arrays. rewrite !elem_of_cons, elem_of_nil. tauto. }
  split; [done|]. split; [|split; [|split; [|split; [|done]]]].
  - apply Forall_forall. intros a Ha. apply elem_of_dom.
    rewrite Hdom, !elem_of_union. right. right. auto.
  - unfold extended_pre in *. rewrite !HD by (apply Hmem; tauto). done.
  - unfold axis_pre, no_extent_pre, extended_pre in *.
    rewrite !HD by (apply Hmem; tauto). done.
  - unfold axis_pre, no_extent_pre, extended_pre in *.
    rewrite !HD by (apply Hmem; tauto). done.
Qed.

(** Construction is repeatable: constructing a second time on the store the
    first construction left completes, and every array that existed after
    the first construction (faces, centers, spacings, and the scratch arrays
    of the first instance) holds exactly what it held; the second instance
    only gets scratch arrays of its own. *)
Theorem ctor_again_same_geometry σ pb :
  ctor_pre NGHOST σ pb →
  ∃ co1 σ1 co2 σ2,
    Coordinates_ctor NGHOST pb σ = Some (co1, σ1) ∧
    Coordinates_ctor NGHOST pb σ1 = Some (co2, σ2) ∧
    (∀ a, a ∈ dom σ1 → σ2 !! a = σ1 !! a) ∧
    (face_area co2 ∉ dom σ1) ∧ (cell_volume co2 ∉ dom σ1).
Proof.
  intros Hpre.
  destruct (Coordinates_ctor_spec NGHOST σ pb Hpre)
    as (co1 & σ1 & Hrun1 & _ & _ & _ & _ & _ & _ & Hfr1 & Hdim1 & P1 & P2 & P3).
  pose proof (ctor_pre_after σ pb co1 σ1 Hpre Hrun1 Hdim1) as Hpre1.
  destruct (Coordinates_ctor_spec NGHOST σ1 pb Hpre1)
    as (co2 & σ2 & Hrun2 & _ & Hfa2 & Hcv2 & _ & _ & _ & Hfr2 & Hdim2 & Q1 & Q2 & Q3).
  pose proof (Coordinates_ctor_dom σ1 pb co2 σ2 Hpre1 Hrun2) as Hdom2.
  pose proof (ctor_reads_kept NGHOST σ1 σ2 pb Hpre1 Hfr2) as Hkept.
  assert (Hk : ∀ a, a ∈ [x1f pb; x2f pb; x3f pb; dx2f pb; dx3f pb] → σ2 !! a = σ1 !! a)
    by exact Hkept.
  assert (E1 : ∀ n, load σ2 (x1v pb) n = load σ1 (x1v pb) n ∧
                    load σ2 (dx1v pb) n = load σ1 (dx1v pb) n).
  { apply (extended_post_again σ σ1 σ2 (x1f pb) (x1v pb) (dx1v pb)
             (is_ pb - NGHOST) (ie pb + NGHOST)); [|exact P1|exact Q1].
    apply Hk. rewrite !elem_of_cons. tauto. }
  assert (E2 : ∀ n, load σ2 (x2v pb) n = load σ1 (x2v pb) n ∧
                    load σ2 (dx2v pb) n = load σ1 (dx2v pb) n).
  { apply (axis_post_again σ σ1 σ2 (nx2 (block_size pb)) (x2f pb) (dx2f pb)
             (x2v pb) (dx2v pb) (js pb) (je pb));
      [| |exact P2|exact Q2]; apply Hk; rewrite !elem_of_cons; tauto. }
  assert (E3 : ∀ n, load σ2 (x3v pb) n = load σ1 (x3v pb) n ∧
                    load σ2 (dx3v pb) n = load σ1 (dx3v pb) n).
  { apply (axis_post_again σ σ1 σ2 (nx3 (block_size pb)) (x3f pb) (dx3f pb)
             (x3v pb) (dx3v pb) (ks pb) (ke pb));
      [| |exact P3|exact Q3]; apply Hk; rewrite !elem_of_cons; tauto. }
  exists co1, σ1, co2, σ2. split; [done|]. split; [done|]. split; [|done].
  intros a Ha.
  apply lookup_ext.
  { rewrite <- !elem_of_dom, Hdom2, !elem_of_union. tauto. }
  intros n.
  destruct (decide (a ∈ [x1v pb; dx1v pb; x2v pb; dx2v pb; x3v pb; dx3v pb]))
    as [Hw|Hw]; [|by apply load_agree, Hfr2].
  rewrite !elem_of_cons, elem_of_nil in Hw.
  destruct Hw as [->|[->|[->|[->|[->|[->|[]]]]]]];
    first [apply E1 | apply E2 | apply E3].
Qed.

(** The scratch buffer of the instance fits the rows of the block: after
    construction, [CellVolume] over any range within
    [0 .. nx1 + 2*NGHOST - 1], into [cell_volume] itself, completes and
    fills the range with the products of the face spacings the block had
    before construction. *)
Theorem ctor_then_CellVolume σ pb k j il iu :
  ctor_pre NGHOST σ pb →
  is_Some (σ !! dx1f pb) →
  dx1f pb ∉ [x1v pb; dx1v pb; x2v pb; dx2v pb; x3v pb; dx3v pb] →
  0 ≤ j < GetDim1 σ (dx2f pb) →
  0 ≤ k < GetDim1 σ (dx3f pb) →
  cells σ (dx1f pb) il iu →
  (il ≤ iu → 0 ≤ il ∧ iu < nx1 (block_size pb) + 2 * NGHOST) →
  ∃ co σ1 σ2,
    Coordinates_ctor NGHOST pb σ = Some (co, σ1) ∧
    CellVolume co k j il iu (cell_volume co) σ1 = Some ((), σ2) ∧
    ∀ i, il ≤ i ≤ iu →
      ∃ dx dy dz,
        load σ (dx1f pb) i = Some dx ∧
        load σ (dx2f pb) j = Some dy ∧
        load σ (dx3f pb) k = Some dz ∧
        load σ2 (cell_volume co) i = Some (Rmul (Rmul dx dy) dz).
Proof.
  intros Hpre H1 Hn1 Hj Hk Hc Hrow.
  destruct (Coordinates_ctor_spec NGHOST σ pb Hpre)
    as (co & σ1 & Hrun & Hpb & Hfa & Hcv & Hne & Gfa & Gcv & Hfr & Hdim & _).
  pose proof (ctor_reads_kept NGHOST σ σ1 pb Hpre Hfr) as Hkept.
  assert (H1d : dx1f pb ∈ dom σ) by (by apply elem_of_dom).
  assert (H2d : dx2f pb ∈ dom σ).
  { apply elem_of_dom. unfold GetDim1 in Hj. destruct (σ !! dx2f pb); [eauto | simpl in Hj; lia]. }
  assert (H3d : dx3f pb ∈ dom σ).
  { apply elem_of_dom. unfold GetDim1 in Hk. destruct (σ !! dx3f pb); [eauto | simpl in Hk; lia]. }
  assert (E1 : σ1 !! dx1f pb = σ !! dx1f pb) by (by apply Hfr).
  assert (E2 : σ1 !! dx2f pb = σ !! dx2f pb)
    by (apply Hkept; rewrite !elem_of_cons; tauto).
  assert (E3 : σ1 !! dx3f pb = σ !! dx3f pb)
    by (apply Hkept; rewrite !elem_of_cons; tauto).
  destruct Hpre as (_ & _ & _ & _ & _ & _ & Hn).
  assert (Hq : query_pre σ1 co k j il iu (cell_volume co)).
  { unfold query_pre, cells. rewrite Hpb. simpl.
    rewrite (GetDim1_agree σ σ1 _ E1), (GetDim1_agree σ σ1 _ E2),
      (GetDim1_agree σ σ1 _ E3), Gcv.
    unfold cells in Hc. repeat split; try lia. }
  assert (Hs : separate co (cell_volume co)).
  { unfold separate. rewrite Hpb. repeat split; by intros Heq; rewrite Heq in Hcv. }
  destruct (CellVolume_spec σ1 co k j il iu (cell_volume co) Hq)
    as (σ2 & Hrun2 & _ & Hval).
  destruct (query_pre_loads _ _ _ _ _ _ _ Hq) as ([dy Hy] & [dz Hz] & Hx).
  rewrite Hpb in Hy, Hz, Hx.
  exists co, σ1, σ2. split; [done|]. split; [done|].
  intros i Hi. destruct (Hx i Hi) as [dx Hdx].
  exists dx, dy, dz.
  rewrite <- (load_agree σ σ1 _ i E1), <- (load_agree σ σ1 _ j E2),
    <- (load_agree σ σ1 _ k E3).
  split; [done|]. split; [done|]. split; [done|].
  rewrite (Hval Hs i Hi), Hpb, Hdx, Hy, Hz. done.
Qed.

End Lifecycle.

(** * The further properties on the concrete blocks *)

(** Out of bounds: with [j = 1], where [dx2f] has the single cell 0,
    [CellVolume] is undefined, also over the empty range [5..2]; and a range
    that reaches past the buffer is undefined as well. *)
Example queries_out_of_bounds :
  CellVolume coord_1d 0 1 2 5 14 heap_1d = None ∧
  CellVolume coord_1d 0 1 5 2 14 heap_1d = None ∧
  CellVolume coord_1d 0 0 2 8 14 heap_1d = None ∧
  Area1Face coord_1d 0 0 (-1) 3 13 heap_1d = None.
Proof. repeat split; vm_compute; reflexivity. Qed.

Lemma range_queries_idempotent_witness :
  query_pre heap_1d coord_1d 0 0 2 5 14 ∧ separate coord_1d 14 ∧
  ∃ σ', CellVolume coord_1d 0 0 2 5 14 heap_1d = Some ((), σ') ∧
        CellVolume coord_1d 0 0 2 5 14 σ' = Some ((), σ').
Proof.
  assert (Hpre : query_pre heap_1d coord_1d 0 0 2 5 14) by by_evaluation.
  assert (Hsep : separate coord_1d 14) by by_evaluation.
  split; [exact Hpre|]. split; [exact Hsep|].
  refine (range_queries_idempotent heap_1d coord_1d 0 0 2 5 14 CellVolume _ Hpre Hsep).
  unfold range_queries. rewrite !elem_of_cons. tauto.
Defined.

Lemma range_queries_split_witness :
  query_pre heap_1d coord_1d 0 0 2 5 13 ∧ separate coord_1d 13 ∧ 2 - 1 ≤ 3 ≤ 5 ∧
  ∃ σ1 σ2, Area2Face coord_1d 0 0 2 3 13 heap_1d = Some ((), σ1) ∧
           Area2Face coord_1d 0 0 (3 + 1) 5 13 σ1 = Some ((), σ2) ∧
           Area2Face coord_1d 0 0 2 5 13 heap_1d = Some ((), σ2).
Proof.
  assert (Hpre : query_pre heap_1d coord_1d 0 0 2 5 13) by by_evaluation.
  assert (Hsep : separate coord_1d 13) by by_evaluation.
  assert (Hm : 2 - 1 ≤ 3 ≤ 5) by lia.
  split; [exact Hpre|]. split; [exact Hsep|]. split; [exact Hm|].
  refine (range_queries_split heap_1d coord_1d 0 0 2 3 5 13 Area2Face _ Hpre Hsep Hm).
  unfold range_queries. rewrite !elem_of_cons. tauto.
Defined.

Lemma CellVolume_is_Area3Face_times_depth_witness :
  query_pre heap_1d_tenths coord_1d 0 0 2 5 13 ∧
  query_pre heap_1d_tenths coord_1d 0 0 2 5 14 ∧
  separate coord_1d 13 ∧ separate coord_1d 14 ∧
  ∃ σa σv dz,
    Area3Face coord_1d 0 0 2 5 13 heap_1d_tenths = Some ((), σa) ∧
    CellVolume coord_1d 0 0 2 5 14 heap_1d_tenths = Some ((), σv) ∧
    load heap_1d_tenths 6 0 = Some dz ∧
    ∀ i, 2 ≤ i ≤ 5 →
      ∃ area, load σa 13 i = Some area ∧ load σv 14 i = Some (Rmul area dz).
Proof.
  assert (Hpa : query_pre heap_1d_tenths coord_1d 0 0 2 5 13) by by_evaluation.
  assert (Hpv : query_pre heap_1d_tenths coord_1d 0 0 2 5 14) by by_evaluation.
  assert (Hsa : separate coord_1d 13) by by_evaluation.
  assert (Hsv : separate coord_1d 14) by by_evaluation.
  split; [exact Hpa|]. split; [exact Hpv|]. split; [exact Hsa|]. split; [exact Hsv|].
  exact (CellVolume_is_Area3Face_times_depth heap_1d_tenths coord_1d 0 0 2 5 13 14
           Hpa Hpv Hsa Hsv).
Defined.

(** In binary64 the volume is not the area orthogonal to direction 1 times
    [dx1f(i)]: with the spacings 0.1, 0.2 and 0.3, [(0.1 * 0.2) * 0.3] and
    [(0.2 * 0.3) * 0.1] differ in the last place. *)
Example volume_is_not_area1_times_width :
  (CellVolume coord_1d 0 0 2 2 14 heap_1d_tenths ≫= λ r, load r.2 14 2)
    = Some 0x1.89374bc6a7efbp-8%float ∧
  (Area1Face coord_1d 0 0 2 2 13 heap_1d_tenths ≫= λ r,
     a ← load r.2 13 2; dx ← load r.2 4 2; Some (PrimFloat.mul a dx))
    = Some 0x1.89374bc6a7efap-8%float.
Proof. split; vm_compute; reflexivity. Qed.

Lemma ctor_again_same_geometry_witness :
  ctor_pre 2 heap_2d block_2d ∧
  ∃ co1 σ1 co2 σ2,
    Coordinates_ctor 2 block_2d heap_2d = Some (co1, σ1) ∧
    Coordinates_ctor 2 block_2d σ1 = Some (co2, σ2) ∧
    (∀ a, a ∈ dom σ1 → σ2 !! a = σ1 !! a) ∧
    (face_area co2 ∉ dom σ1) ∧ (cell_volume co2 ∉ dom σ1).
Proof.
  assert (Hpre : ctor_pre 2 heap_2d block_2d) by by_evaluation.
  split; [exact Hpre|].
  exact (ctor_again_same_geometry 2 heap_2d block_2d Hpre).
Defined.

(** The whole row of the 1-D block, ghost cells included. *)
Lemma ctor_then_CellVolume_witness :
  ctor_pre 2 heap_1d block_1d ∧
  ∃ co σ1 σ2,
    Coordinates_ctor 2 block_1d heap_1d = Some (co, σ1) ∧
    CellVolume co 0 0 0 7 (cell_volume co) σ1 = Some ((), σ2) ∧
    ∀ i, 0 ≤ i ≤ 7 →
      ∃ dx dy dz,
        load heap_1d 4 i = Some dx ∧ load heap_1d 5 0 = Some dy ∧
        load heap_1d 6 0 = Some dz ∧
        load σ2 (cell_volume co) i = Some (Rmul (Rmul dx dy) dz).
Proof.
  assert (Hpre : ctor_pre 2 heap_1d block_1d) by by_evaluation.
  split; [exact Hpre|].
  refine (ctor_then_CellVolume 2 heap_1d block_1d 0 0 0 7 Hpre _ _ _ _ _ _);
    by_evaluation.
Defined.

(** The spacings of direction 1 of the 1-D block with faces at the tenths. *)
Lemma ctor_spacing_near_mean_width_witness :
  ctor_pre 2 heap_1d_tenths_grid block_1d ∧
  ∃ co σ', Coordinates_ctor 2 block_1d heap_1d_tenths_grid = Some (co, σ') ∧
    (∀ i, 2 - 2 ≤ i ≤ 5 + 2 - 1 → mean_width_within_tolerance σ' 1 10 i) ∧
    (nx2 (block_size block_1d) ≠ 1 →
     ∀ j, 0 - 2 ≤ j ≤ 0 + 2 - 1 → mean_width_within_tolerance σ' 2 11 j) ∧
    (nx3 (block_size block_1d) ≠ 1 →
     ∀ k, 0 - 2 ≤ k ≤ 0 + 2 - 1 → mean_width_within_tolerance σ' 3 12 k).
Proof.
  assert (Hpre : ctor_pre 2 heap_1d_tenths_grid block_1d) by by_evaluation.
  split; [exact Hpre|].
  exact (ctor_spacing_near_mean_width 2 heap_1d_tenths_grid block_1d Hpre).
Defined.

(** On that block every cell is a tenth wide, to the nearest double, and
    the seven spacings written take four different values.  The first
    interior one is a number, its face sums 0.1 and 0.3 are far from
    underflow, and it is [2^-56] more than the mean width of its cells. *)
Example spacings_on_the_tenths_grid :
  ∃ co σ', Coordinates_ctor 2 block_1d heap_1d_tenths_grid = Some (co, σ') ∧
    σ' !! 10%positive
      = Some [0x1.999999999999bp-4; 0x1.999999999999ap-4; 0x1.999999999999bp-4;
              0x1.9999999999998p-4; 0x1.9999999999998p-4; 0x1.999999999999cp-4;
              0x1.999999999999cp-4; 0]%float ∧
    finite_float 0x1.999999999999bp-4 = true ∧
    zero_or_at_least (-1020) (value_at σ' 1 2 + value_at σ' 1 3) ∧
    zero_or_at_least (-1020) (value_at σ' 1 3 + value_at σ' 1 4) ∧
    (value_at σ' 10 2
     - (1 # 2) * ((value_at σ' 1 3 - value_at σ' 1 2)
                  + (value_at σ' 1 4 - value_at σ' 1 3)) == 1 # 2 ^ 56)%Q.
Proof.
  run_ctor co σ'. split; [assumption|].
  split; [vm_compute; reflexivity|]. split; [vm_compute; reflexivity|].
  split; [right; vm_compute; discriminate|].
  split; [right; vm_compute; discriminate|]. vm_compute. reflexivity.
Qed.

(** The volumes and areas of the 1-D block with spacings 0.1, 0.2, 0.3. *)
Lemma CellVolume_near_area_times_spacing_witness :
  query_pre heap_1d_tenths coord_1d 0 0 2 5 13 ∧
  query_pre heap_1d_tenths coord_1d 0 0 2 5 14 ∧
  separate coord_1d 13 ∧ separate coord_1d 14 ∧
  ∃ σ1 σ2 σv dy dz,
    load heap_1d_tenths 5 0 = Some dy ∧ load heap_1d_tenths 6 0 = Some dz ∧
    Area1Face coord_1d 0 0 2 5 13 heap_1d_tenths = Some ((), σ1) ∧
    Area2Face coord_1d 0 0 2 5 13 heap_1d_tenths = Some ((), σ2) ∧
    CellVolume coord_1d 0 0 2 5 14 heap_1d_tenths = Some ((), σv) ∧
    ∀ i, 2 ≤ i ≤ 5 →
      ∃ dx a1 a2 vol,
        load heap_1d_tenths 4 i = Some dx ∧
        load σ1 13 i = Some a1 ∧ load σ2 13 i = Some a2 ∧
        load σv 14 i = Some vol ∧
        volume_within_tolerance dx dy dz a1 a2 vol.
Proof.
  assert (Hpa : query_pre heap_1d_tenths coord_1d 0 0 2 5 13) by by_evaluation.
  assert (Hpv : query_pre heap_1d_tenths coord_1d 0 0 2 5 14) by by_evaluation.
  assert (Hsa : separate coord_1d 13) by by_evaluation.
  assert (Hsv : separate coord_1d 14) by by_evaluation.
  split; [exact Hpa|]. split; [exact Hpv|]. split; [exact Hsa|]. split; [exact Hsv|].
  exact (CellVolume_near_area_times_spacing heap_1d_tenths coord_1d 0 0 2 5 13 14
           Hpa Hpv Hsa Hsv).
Defined.

(** With the spacings 0.1, 0.2 and 0.3 the volume and the two areas are
    numbers and no product of the spacings is near underflow: the bound
    applies to the two doubles of [volume_is_not_area1_times_width]. *)
Example volume_tolerance_applies :
  let dx := 0x1.999999999999ap-4%float in
  let dy := 0x1.999999999999ap-3%float in
  let dz := 0x1.3333333333333p-2%float in
  finite_float (dx * dy * dz) = true ∧ finite_float (dy * dz) = true ∧
  finite_float (dx * dz) = true ∧
  zero_or_at_least (-1020) (B2Q dx * B2Q dy) ∧
  zero_or_at_least (-1020) (B2Q dy * B2Q dz) ∧
  zero_or_at_least (-1020) (B2Q dx * B2Q dz) ∧
  zero_or_at_least (-1020) (B2Q dx * B2Q dy * B2Q dz).
Proof.
  repeat split; first [vm_compute; reflexivity | right; vm_compute; discriminate].
Qed.

(** The centers and spacings of the 1-D block with faces at the tenths. *)
Lemma ctor_centers_within_cells_witness :
  ctor_pre 2 heap_1d_tenths_grid block_1d ∧
  ∃ co σ', Coordinates_ctor 2 block_1d heap_1d_tenths_grid = Some (co, σ') ∧
    extended_ordered σ' 1 7 10 (2 - 2) (5 + 2) ∧
    axis_ordered 2 σ' 1 2 8 11 0 0 ∧
    axis_ordered 2 σ' 1 3 9 12 0 0.
Proof.
  assert (Hpre : ctor_pre 2 heap_1d_tenths_grid block_1d) by by_evaluation.
  split; [exact Hpre|].
  exact (ctor_centers_within_cells 2 heap_1d_tenths_grid block_1d Hpre).
Defined.

(** Within, not strictly inside.  With adjacent doubles as faces the
    centers are faces: the center of every cell is its lower or its upper
    face, the centers of the cells 1 and 2 are the face between them, and
    the spacing between these two is zero. *)
Example centers_on_adjacent_doubles :
  ∃ co σ', Coordinates_ctor 2 block_1d heap_1d_adjacent = Some (co, σ') ∧
    σ' !! 7%positive
      = Some [0x1.0000000000000p+0; 0x1.0000000000002p+0; 0x1.0000000000002p+0;
              0x1.0000000000004p+0; 0x1.0000000000004p+0; 0x1.0000000000006p+0;
              0x1.0000000000006p+0; 0x1.0000000000008p+0]%float ∧
    load σ' 1 2 = Some 0x1.0000000000002p+0%float ∧
    load σ' 10 1 = Some 0%float ∧
    (B2Q 0x1.0000000000001p+0 < B2Q 0x1.0000000000002p+0)%Q.
Proof.
  run_ctor co σ'. split; [assumption|]. repeat split; vm_compute; reflexivity.
Qed.
